(** * Session, navigation guard, HTTP retry policy, persistent store,
      tasks and profile of the quarterhorse frontend, embedded in Rocq.

    Sources:
    - [src/router/index.js] (navigation guard, [Router.beforeEach]);
    - [src/router/routes.js] (route table);
    - [src/stores/tasks.js] (tasks store: getters and actions);
    - the task components [TaskInput] and [TaskItem] and the tasks page
      ([handleAddTask], [handleToggleAll], [handleSave], [handleSaveEdit],
      [handleDeleteTask]);
    - the profile page ([validateForm], [isFormValid], [handleSubmit]);
    - [src/stores/auth.js], [src/config/axios.js] and
      [src/services/localStorage.service.js] are referenced by the tests
      under [test/unit] but are not part of the available sources; their
      definitions below are modelled from the specification and say so. *)

From Stdlib Require Import ZArith String List Bool Lia Ascii.
From Stdlib Require Import DecimalFacts DecimalPos DecimalZ.
From Stdlib Require Import SpecFloat QArith_base Qabs Qreduction.
From stdpp Require Import base gmap strings list.
Import ListNotations.
Open Scope string_scope.
Open Scope Z_scope.
Set Warnings "-register-all".

(* ================================================================= *)
(** ** Session state (auth store) *)

(** A user record, opaque beyond these fields to the session code. *)
Record User := mkUser {
  user_id : Z;
  user_name : string;
  user_role : string;
  user_email : string
}.

(** The five session fields; [None] is JavaScript [null]. *)
Record AuthState := mkAuthState {
  user : option User;
  accessToken : option string;
  accessTokenExpiry : option Z;   (* Unix seconds *)
  invitationToken : option string;
  oauthErrorMessage : option string
}.

Definition empty_auth : AuthState := mkAuthState None None None None None.

(** Observable effects of the store: persisted writes and removals,
    HTTP posts, notifications and router navigations. *)
Inductive event :=
| EvPersist (key : string)
| EvRemove (key : string)
| EvPost (url : string)
| EvNotify (msg : string)
| EvNavigate (path : string).

Definition event_eqb (a b : event) : bool :=
  match a, b with
  | EvPersist x, EvPersist y | EvRemove x, EvRemove y | EvPost x, EvPost y
  | EvNotify x, EvNotify y | EvNavigate x, EvNavigate y => String.eqb x y
  | _, _ => false
  end.

(** The store: the in-memory session, its persisted mirror, and the
    effects emitted so far (most recent first). *)
Record Store := mkStore {
  mem : AuthState;
  disk : AuthState;
  trace : list event
}.

(** A small state monad, used over [Store] here and over the HTTP
    client's world below. *)
Definition StateM (St A : Type) := St -> A * St.
Definition ret {St A} (a : A) : StateM St A := fun s => (a, s).
Definition bind {St A B} (m : StateM St A) (k : A -> StateM St B) : StateM St B :=
  fun s => let '(a, s') := m s in k a s'.
Definition M := StateM Store.
Notation "x <- m ;; k" := (bind m (fun x => k))
  (at level 100, m at next level, right associativity).
Notation "m ;;; k" := (bind m (fun _ => k))
  (at level 100, right associativity).

Definition emit (e : event) : M unit :=
  fun s => (tt, mkStore (mem s) (disk s) (e :: trace s)).
Definition get_state : M AuthState := fun s => (mem s, s).
Definition modify_both (f : AuthState -> AuthState) : M unit :=
  fun s => (tt, mkStore (f (mem s)) (f (disk s)) (trace s)).

Definition REFRESH_URL := "/auth/refresh".
Definition LOGOUT_URL := "/auth/logout".
Definition LOGIN_PATH := "/login".
Definition LOGOUT_MESSAGE := "Logged out successfully".

(** Modelled from the spec: getter [isAuthenticated] of the missing
    [src/stores/auth.js]: token present, expiry present and
    [expiry > now] (strict). *)
Definition isAuthenticated (now : Z) (a : AuthState) : bool :=
  match accessToken a, accessTokenExpiry a with
  | Some _, Some exp => now <? exp
  | _, _ => false
  end.

(** Modelled from the spec: getter [isTokenExpired] of the missing
    [src/stores/auth.js]: the negation of the time condition; an absent
    expiry counts as expired. *)
Definition isTokenExpired (now : Z) (a : AuthState) : bool :=
  match accessTokenExpiry a with
  | None => true
  | Some exp => exp <=? now
  end.

(** Modelled from the spec: [initialize()] re-hydrates the five fields
    from the persisted mirror. *)
Definition initialize (s : Store) : Store :=
  mkStore (disk s) (disk s) (trace s).

(** Modelled from the spec: [clearAuthData()] nulls user, token and
    expiry in memory and removes their three persisted keys. *)
Definition clearAuthData : M unit :=
  modify_both (fun a => mkAuthState None None None
                          (invitationToken a) (oauthErrorMessage a)) ;;;
  emit (EvRemove "user") ;;; emit (EvRemove "accessToken") ;;;
  emit (EvRemove "accessTokenExpiry").

(** Modelled from the spec: [logout(showNotification)] clears the
    session, sends a best-effort server logout (its outcome ignored),
    optionally notifies, and navigates to the login surface. *)
Definition logout (showNotification : bool) : M unit :=
  clearAuthData ;;;
  emit (EvPost LOGOUT_URL) ;;;
  (if showNotification then emit (EvNotify LOGOUT_MESSAGE) else ret tt) ;;;
  emit (EvNavigate LOGIN_PATH).

(** What the refresh endpoint does to the request: a response body
    [{success, accessToken, accessTokenExpiry}] or a thrown error. *)
Inductive refresh_reply :=
| RefreshReplied (success : bool) (token : string) (expiry : Z)
| RefreshThrew (message : string).

(** Modelled from the spec: [refreshToken()]. *)
Definition refreshToken (reply : refresh_reply) : M bool :=
  emit (EvPost REFRESH_URL) ;;;
  match reply with
  | RefreshReplied true tok exp =>
      modify_both (fun a => mkAuthState (user a) (Some tok) (Some exp)
                              (invitationToken a) (oauthErrorMessage a)) ;;;
      emit (EvPersist "accessToken") ;;; emit (EvPersist "accessTokenExpiry") ;;;
      ret true
  | RefreshReplied false _ _ => ret false
  | RefreshThrew _ => logout false ;;; ret false
  end.

Definition REFRESH_THRESHOLD := 300.

(** Modelled from the spec: [checkAndRefreshToken()]; refreshes only
    when [0 < expiry - now < 5 minutes]. *)
Definition checkAndRefreshToken (now : Z) (reply : refresh_reply) : M bool :=
  a <- get_state ;;
  match accessToken a, accessTokenExpiry a with
  | Some _, Some exp =>
      let timeUntilExpiry := exp - now in
      if (timeUntilExpiry <? REFRESH_THRESHOLD) && (0 <? timeUntilExpiry)
      then refreshToken reply
      else ret true
  | _, _ => ret false
  end.

Definition count_event (e : event) (l : list event) : nat :=
  List.length (List.filter (event_eqb e) l).

(* ================================================================= *)
(** ** Route table ([src/router/routes.js]) *)

(** A child route: its path (relative, or absolute when it starts with
    a slash) and its [meta.requiresAuth], [None] when [meta] is absent. *)
Record ChildRoute := mkChild {
  child_path : string;
  child_requiresAuth : option bool
}.

(** A top-level route; none of the top-level records declares [meta]. *)
Record RouteDef := mkRoute {
  route_path : string;
  route_children : list ChildRoute
}.

Definition CATCH_ALL := "/:catchAll(.*)*".

Definition routes : list RouteDef := [
  mkRoute "/" [ mkChild "dashboard" (Some true);
                mkChild "tasks" (Some true);
                mkChild "profile" (Some true) ];
  mkRoute "/" [ mkChild "signup" (Some false);
                mkChild "login" (Some false);
                mkChild "forgot-password" (Some false);
                mkChild "/set-password/:token/:uidb64" (Some false);
                mkChild "auth/callback" (Some false) ];
  mkRoute CATCH_ALL []
].

(** Route paths cut at '/' into their segments; the record paths of the
    table have no empty segment, so the empty pieces are dropped. *)
Fixpoint split_segments (cur : string) (s : string) : list string :=
  match s with
  | EmptyString => if String.eqb cur "" then [] else [cur]
  | String c rest =>
      if Ascii.eqb c "/"%char
      then ((if String.eqb cur "" then [] else [cur]) ++ split_segments "" rest)%list
      else split_segments (cur ++ String c EmptyString) rest
  end.

Definition segments (p : string) : list string := split_segments "" p.

(** A token of a record path, as vue-router's [tokenizePath] reads the
    segments of this table: a static segment, a parameter [:name] (default
    pattern [[^/]+?]), or the catch-all parameter (the segment of [CATCH_ALL],
    custom pattern dot-star, optional and repeatable). Each segment of the table is a
    single token. *)
Inductive PathToken :=
| TStatic (s : string)
| TParam
| TCatchAll.

Definition token_of (seg : string) : PathToken :=
  if String.prefix ":" seg then
    if String.eqb seg ":catchAll(.*)*" then TCatchAll else TParam
  else TStatic seg.

Definition tokenize_path (path : string) : list PathToken :=
  map token_of (segments path).

(** [Canonicalize] of ECMAScript regular expressions under the [i] flag
    (non-Unicode mode) on the code units 0-255: the upper-case form, unless
    it is not a single code unit or it would map a non-ASCII unit to ASCII
    (so U+00DF stays, U+00B5 gives U+039C and U+00FF gives U+0178). *)
Definition canonicalize (c : ascii) : N :=
  let n := N_of_ascii c in
  if ((97 <=? n) && (n <=? 122))%N then (n - 32)%N
  else if ((224 <=? n) && (n <=? 254) && negb (n =? 247))%N then (n - 32)%N
  else if (n =? 181)%N then 924%N
  else if (n =? 255)%N then 376%N
  else n.

(** A static segment matched case-insensitively at the start of a path;
    the rest of the path. *)
Fixpoint strip_ci (lit p : string) : option string :=
  match lit, p with
  | EmptyString, _ => Some p
  | String a lit', String b p' =>
      if N.eqb (canonicalize a) (canonicalize b) then strip_ci lit' p' else None
  | String _ _, EmptyString => None
  end.

(** The characters [.] does not match: line feed and carriage return (the
    other line terminators are not code units 0-255). *)
Definition is_line_terminator (c : ascii) : bool :=
  ((nat_of_ascii c =? 10) || (nat_of_ascii c =? 13))%nat.

(** The regular expression vue-router's [tokensToParser] builds for a
    record with the default options ([strict] and [sensitive] false, [end]
    true): [^], then per token [/lit], [/([^/]+?)] or, for the catch-all,
    an optional group of [/] followed by dot-star and any repetitions of
    [/] and dot-star; then [/?$], all under the [i] flag.
    [match_tokens toks p] tells whether it matches [p], trying every split
    of [p] as the backtracking matcher does. *)
Fixpoint match_tokens (toks : list PathToken) (p : string) : bool :=
  match toks with
  | [] => String.eqb p "" || String.eqb p "/"
  | TStatic lit :: r =>
      match p with
      | String c p' =>
          Ascii.eqb c "/" &&
          match strip_ci lit p' with Some q => match_tokens r q | None => false end
      | EmptyString => false
      end
  | TParam :: r =>
      let fix param (started : bool) (q : string) : bool :=
        (started && match_tokens r q) ||
        match q with
        | String c q' => negb (Ascii.eqb c "/") && param true q'
        | EmptyString => false
        end in
      match p with
      | String c p' => Ascii.eqb c "/" && param false p'
      | EmptyString => false
      end
  | TCatchAll :: r =>
      let fix any (q : string) : bool :=
        match_tokens r q ||
        match q with
        | String c q' => negb (is_line_terminator c) && any q'
        | EmptyString => false
        end in
      match_tokens r p ||
      match p with
      | String c p' => Ascii.eqb c "/" && any p'
      | EmptyString => false
      end
  end.

(** The record path of a child: vue-router appends a relative child path to
    its parent's, with a slash unless the parent's ends with one. *)
Definition ends_with_slash (s : string) : bool :=
  match String.get (String.length s - 1) s with
  | Some c => Ascii.eqb c "/"
  | None => false
  end.

Definition child_full_path (parent : string) (c : ChildRoute) : string :=
  if String.prefix "/" (child_path c) then child_path c
  else if String.eqb (child_path c) "" then parent
  else parent ++ (if ends_with_slash parent then "" else "/") ++ child_path c.

(** One matcher: the tokens of its record path and the merged
    [meta.requiresAuth] of its matched chain (parent metas are empty, so
    the child's own value). *)
Record Matchable := mkMatchable {
  m_pattern : list PathToken;
  m_requiresAuth : option bool;
  m_catchAll : bool
}.

Definition route_records (rs : list RouteDef) : list Matchable :=
  List.flat_map (fun r =>
    List.map (fun c => mkMatchable (tokenize_path (child_full_path (route_path r) c))
                                   (child_requiresAuth c) false)
             (route_children r)
    ++ [mkMatchable (tokenize_path (route_path r)) None
                    (String.eqb (route_path r) CATCH_ALL)])%list rs.

(** The resolved destination as the guard sees it: [to.path] and
    [to.meta?.requiresAuth]. *)
Record RouteLocation := mkLocation {
  to_path : string;
  to_requiresAuth : option bool
}.

(** Resolution: the first matcher, in this order, whose regular expression
    matches [to.path]. vue-router tries its matchers by decreasing score;
    for this table the order differs only among matchers that can match the
    same path and carry no meta (the two [/] records and the catch-all),
    and the static records and [/set-password/:token/:uidb64] outrank the
    catch-all, so the meta is the same. A path no matcher accepts (one with a
    line break, which [.] does not match) resolves with an empty meta. *)
Definition resolve (rs : list RouteDef) (p : string) : RouteLocation :=
  match List.find (fun m => match_tokens (m_pattern m) p) (route_records rs) with
  | Some m => mkLocation p (m_requiresAuth m)
  | None => mkLocation p None
  end.

(** [p] matches a declared route other than the catch-all. *)
Definition matches_declared_route (rs : list RouteDef) (p : string) : bool :=
  List.existsb (fun m => negb (m_catchAll m) && match_tokens (m_pattern m) p)
               (route_records rs).

(* ================================================================= *)
(** ** Navigation guard ([Router.beforeEach] in [src/router/index.js]) *)

(** The members of the auth store the guard uses. *)
Record AuthStoreApi (S : Type) := mkAuthStoreApi {
  api_accessToken : S -> option string;
  api_isTokenExpired : S -> bool;
  api_isAuthenticated : S -> bool;
  api_initialize : S -> S;
  api_checkAndRefreshToken : S -> bool * S
}.
Arguments mkAuthStoreApi {S}.
Arguments api_accessToken {S}.
Arguments api_isTokenExpired {S}.
Arguments api_isAuthenticated {S}.
Arguments api_initialize {S}.
Arguments api_checkAndRefreshToken {S}.

(** JavaScript truthiness of a string-or-null value. *)
Definition truthy_str (o : option string) : bool :=
  match o with
  | Some s => negb (String.eqb s "")
  | None => false
  end.

(** JavaScript truthiness of [to.meta?.requiresAuth]. *)
Definition truthy_bool (o : option bool) : bool :=
  match o with Some b => b | None => false end.

(** The argument passed to [next]: [next()] or [next({ path })]. *)
Inductive NextArg :=
| NextProceed
| NextRedirect (path : string).

(** The store methods the guard invoked, in order. *)
Inductive GuardCall := CallInitialize | CallCheckAndRefreshToken.

Record GuardOutcome (S : Type) := mkOutcome {
  out_next : NextArg;
  out_state : S;
  out_calls : list GuardCall
}.
Arguments mkOutcome {S}.
Arguments out_next {S}.
Arguments out_state {S}.
Arguments out_calls {S}.

(** Paths of the pages meant for anonymous users. *)
Definition anonymous_only_path (p : string) : bool :=
  String.eqb p "/login" || String.eqb p "/signup"
  || String.eqb p "/forgot-password" || String.prefix "/set-password" p.

(** The redirect decision, lines 125-143. *)
Definition navigation_decision (isAuth : bool) (to : RouteLocation) : NextArg :=
  let requiresAuth := truthy_bool (to_requiresAuth to) in
  if isAuth && anonymous_only_path (to_path to) then NextRedirect "/dashboard"
  else if requiresAuth && negb isAuth then NextRedirect "/login"
  else if String.eqb (to_path to) "/" && isAuth then NextRedirect "/dashboard"
  else if String.eqb (to_path to) "/" && negb isAuth then NextRedirect "/login"
  else NextProceed.

(** The guard, lines 110-144: lazy initialisation, the awaited token
    check, then the decision on the resulting authentication status. *)
Definition beforeEach {S} (api : AuthStoreApi S) (to : RouteLocation) (s0 : S)
  : GuardOutcome S :=
  let '(s1, c1) :=
    if negb (truthy_str (api_accessToken api s0))
    then (api_initialize api s0, [CallInitialize]) else (s0, []) in
  let '(s2, c2) :=
    if truthy_str (api_accessToken api s1) && api_isTokenExpired api s1
    then (snd (api_checkAndRefreshToken api s1), [CallCheckAndRefreshToken])
    else (s1, []) in
  mkOutcome (navigation_decision (api_isAuthenticated api s2) to) s2 (c1 ++ c2)%list.

(** The auth store of the specification seen through the guard's
    interface, at time [now] and with the refresh endpoint answering
    [reply]. *)
Definition spec_store_api (now : Z) (reply : refresh_reply) : AuthStoreApi Store :=
  mkAuthStoreApi
    (fun s => accessToken (mem s))
    (fun s => isTokenExpired now (mem s))
    (fun s => isAuthenticated now (mem s))
    initialize
    (checkAndRefreshToken now reply).

(* ================================================================= *)
(** ** HTTP client interceptors ([src/config/axios.js]) *)

(** Modelled from the spec: the request configuration as the missing
    [src/config/axios.js] carries it, with one retry counter per
    failure class (spec section 4.2: the 401, 429 and 5xx policies do not
    share attempt budgets). *)
Record RequestConfig := mkConfig {
  cfg_url : string;
  cfg_authorization : option string;  (* headers.Authorization *)
  cfg_retried401 : bool;              (* retried once after a 401 *)
  cfg_retry429 : nat;                 (* re-issues after a 429 *)
  cfg_retry5xx : nat                  (* re-issues after a 5xx *)
}.

(** A failed response: its status, its [retry-after] header in seconds,
    and the configuration of the request that failed. *)
Record HttpError := mkHttpError {
  err_status : Z;
  err_retryAfter : Z;
  err_config : RequestConfig
}.

(** What the server does with one dispatched request. *)
Inductive HttpOutcome :=
| HttpOk (data : string)
| HttpFail (status : Z) (retryAfter : Z).

(** How the session store's [refreshToken()] settles: resolved [true]
    with the new token stored, resolved [false], or rejected. *)
Inductive RefreshOutcome :=
| RefreshOk (newToken : string)
| RefreshFalse
| RefreshRejected.

(** What the caller of [apiClient.request] gets back. *)
Inductive HttpResult :=
| Resolved (data : string)
| Rejected (err : HttpError).

(** Observable effects of the HTTP client. *)
Inductive NetEvent :=
| NDispatch (cfg : RequestConfig)
| NRefresh
| NWait (seconds : Z)
| NLogout (showNotification : bool)
| NNavigate (path : string).

(** The world the client runs in: the store's current token, the server
    answering the [n]-th dispatched request, the refresh endpoint
    answering the [n]-th refresh, and the effects so far (most recent
    first). *)
Record Net := mkNet {
  net_token : option string;
  net_server : nat -> HttpOutcome;
  net_dispatched : nat;
  net_refresh : nat -> RefreshOutcome;
  net_refreshed : nat;
  net_log : list NetEvent
}.

Definition NetM := StateM Net.

Definition net_emit (e : NetEvent) : NetM unit :=
  fun w => (tt, mkNet (net_token w) (net_server w) (net_dispatched w)
                      (net_refresh w) (net_refreshed w) (e :: net_log w)).

(** Modelled from the spec: the request interceptor attaches the bearer
    credential when the store has a token and leaves headers alone
    otherwise. *)
Definition attach_credential (tok : option string) (cfg : RequestConfig) : RequestConfig :=
  if truthy_str tok then
    match tok with
    | Some t => mkConfig (cfg_url cfg) (Some ("Bearer " ++ t)) (cfg_retried401 cfg)
                         (cfg_retry429 cfg) (cfg_retry5xx cfg)
    | None => cfg
    end
  else cfg.

(** One request on the wire, after the request interceptor. *)
Definition dispatch (cfg : RequestConfig) : NetM (RequestConfig * HttpOutcome) :=
  fun w =>
    let cfg' := attach_credential (net_token w) cfg in
    ((cfg', net_server w (net_dispatched w)),
     mkNet (net_token w) (net_server w) (S (net_dispatched w))
           (net_refresh w) (net_refreshed w) (NDispatch cfg' :: net_log w)).

(** [await authStore.refreshToken()]: [true] when it resolves [true]
    (the store then holds the new token), [false] when it resolves
    [false] or rejects. *)
Definition call_refresh : NetM bool :=
  fun w =>
    let log := NRefresh :: net_log w in
    match net_refresh w (net_refreshed w) with
    | RefreshOk t =>
        (true, mkNet (Some t) (net_server w) (net_dispatched w)
                     (net_refresh w) (S (net_refreshed w)) log)
    | RefreshFalse | RefreshRejected =>
        (false, mkNet (net_token w) (net_server w) (net_dispatched w)
                      (net_refresh w) (S (net_refreshed w)) log)
    end.

(** [authStore.logout(false)] as the client sees it: the token is gone. *)
Definition net_logout : NetM unit :=
  fun w => (tt, mkNet None (net_server w) (net_dispatched w)
                      (net_refresh w) (net_refreshed w) (NLogout false :: net_log w)).

Definition with_retried401 (cfg : RequestConfig) : RequestConfig :=
  mkConfig (cfg_url cfg) (cfg_authorization cfg) true (cfg_retry429 cfg) (cfg_retry5xx cfg).
Definition with_retry429 (cfg : RequestConfig) (n : nat) : RequestConfig :=
  mkConfig (cfg_url cfg) (cfg_authorization cfg) (cfg_retried401 cfg) n (cfg_retry5xx cfg).
Definition with_retry5xx (cfg : RequestConfig) (n : nat) : RequestConfig :=
  mkConfig (cfg_url cfg) (cfg_authorization cfg) (cfg_retried401 cfg) (cfg_retry429 cfg) n.
Definition with_authorization (cfg : RequestConfig) (h : string) : RequestConfig :=
  mkConfig (cfg_url cfg) (Some h) (cfg_retried401 cfg) (cfg_retry429 cfg) (cfg_retry5xx cfg).

Definition MAX_429_RETRIES : nat := 1.
Definition MAX_5XX_RETRIES : nat := 2.

Definition is_5xx (status : Z) : bool := (500 <=? status) && (status <? 600).

(** Modelled from the spec: the response interceptor's failure handler;
    [retry] is [apiClient.request], which runs the interceptors again. *)
Definition on_rejected (retry : RequestConfig -> NetM HttpResult) (err : HttpError)
  : NetM HttpResult :=
  let cfg := err_config err in
  let status := err_status err in
  if (status =? 401) && negb (cfg_retried401 cfg) then
    let cfg1 := with_retried401 cfg in
    ok <- call_refresh ;;
    if ok then
      w <- (fun w => (w, w)) ;;
      retry (match net_token w with
             | Some t => with_authorization cfg1 ("Bearer " ++ t)
             | None => cfg1
             end)
    else
      net_logout ;;; net_emit (NNavigate "/login") ;;; ret (Rejected err)
  else if (status =? 429) && (cfg_retry429 cfg <? MAX_429_RETRIES)%nat then
    let n := S (cfg_retry429 cfg) in
    net_emit (NWait (err_retryAfter err)) ;;; retry (with_retry429 cfg n)
  else if is_5xx status && (cfg_retry5xx cfg <? MAX_5XX_RETRIES)%nat then
    let n := S (cfg_retry5xx cfg) in
    net_emit (NWait (2 ^ Z.of_nat n)) ;;; retry (with_retry5xx cfg n)
  else ret (Rejected err).

(** [apiClient.request(cfg)]: dispatch, and on failure hand the error to
    the response interceptor. Each re-issue spends one unit of one of the
    three bounded budgets, so the recursion is bounded by [retry_budget];
    [fuel] is that bound. *)
Fixpoint request (fuel : nat) (cfg : RequestConfig) : NetM HttpResult :=
  r <- dispatch cfg ;;
  let '(cfg', out) := r in
  match out with
  | HttpOk d => ret (Resolved d)
  | HttpFail st ra =>
      let err := mkHttpError st ra cfg' in
      match fuel with
      | O => ret (Rejected err)
      | S f => on_rejected (request f) err
      end
  end.

Definition retry_budget (cfg : RequestConfig) : nat :=
  (if cfg_retried401 cfg then 0 else 1)
  + (MAX_429_RETRIES - cfg_retry429 cfg) + (MAX_5XX_RETRIES - cfg_retry5xx cfg).

Definition apiClient_request (cfg : RequestConfig) : NetM HttpResult :=
  request (retry_budget cfg) cfg.

(** The response interceptor's [rejected] handler as axios invokes it. *)
Definition response_interceptor (err : HttpError) : NetM HttpResult :=
  on_rejected apiClient_request err.

Definition count_refresh (l : list NetEvent) : nat :=
  List.length (List.filter (fun e => match e with NRefresh => true | _ => false end) l).

(* ================================================================= *)
(** ** JavaScript values of the tasks store

    The tasks store and its components handle plain objects as the server
    sends them. Their numbers are task ids and counts: finite numbers are
    integers in this part of the model, strings are byte strings, and an
    object's fields are listed in its property enumeration order. *)

(** A JavaScript number. *)
Inductive JsNumber :=
| JsFinite (z : Z)
| JsNaN
| JsInfinity
| JsNegInfinity.

(** A JavaScript value as the tasks code sees it. *)
Inductive JsValue :=
| JsUndefined
| JsNull
| JsBool (b : bool)
| JsNum (n : JsNumber)
| JsStr (s : string)
| JsArr (xs : list JsValue)
| JsObj (fields : list (string * JsValue))
| JsFunction.

(** The decimal text of an integer, as [String(n)] writes it. *)
Fixpoint uint_to_string (u : Decimal.uint) : string :=
  match u with
  | Decimal.Nil => EmptyString
  | Decimal.D0 u => String "0" (uint_to_string u)
  | Decimal.D1 u => String "1" (uint_to_string u)
  | Decimal.D2 u => String "2" (uint_to_string u)
  | Decimal.D3 u => String "3" (uint_to_string u)
  | Decimal.D4 u => String "4" (uint_to_string u)
  | Decimal.D5 u => String "5" (uint_to_string u)
  | Decimal.D6 u => String "6" (uint_to_string u)
  | Decimal.D7 u => String "7" (uint_to_string u)
  | Decimal.D8 u => String "8" (uint_to_string u)
  | Decimal.D9 u => String "9" (uint_to_string u)
  end.

Definition number_to_json (z : Z) : string :=
  match Z.to_int z with
  | Decimal.Pos u => uint_to_string u
  | Decimal.Neg u => String "-" (uint_to_string u)
  end.

(** [Array.prototype.join]. *)
Fixpoint join (sep : string) (xs : list string) : string :=
  match xs with
  | [] => EmptyString
  | [x] => x
  | x :: r => x ++ sep ++ join sep r
  end.

(** A repeated key keeps its first position and takes the last value. *)
Fixpoint obj_set (acc : list (string * JsValue)) (k : string) (v : JsValue)
  : list (string * JsValue) :=
  match acc with
  | [] => [(k, v)]
  | (k', v') :: r => if String.eqb k k' then (k, v) :: r else (k', v') :: obj_set r k v
  end.


(* ================================================================= *)
(** ** Persistent store adapter (modelled from the specification)

    [localStorageService.getItem] and [setItem] over the browser's string
    store, with [JSON.parse] and [JSON.stringify] written out after
    ECMA-262: a string is its list of UTF-16 code units, a number an IEEE
    754 binary64 value ([spec_float] with precision 53 and [emax] 1024),
    and an object the list of its own enumerable properties in their
    enumeration order. *)

Section StorageAdapter.
Local Open Scope list_scope.

(** A JavaScript string: its UTF-16 code units, each in [0, 65535]. *)
Definition jsstring := list Z.

(** The code units of an ASCII literal. *)
Definition U (s : string) : jsstring :=
  map (fun c => Z.of_nat (nat_of_ascii c)) (list_ascii_of_string s).

(** A value as [JSON.stringify] and [JSON.parse] see it. *)
Inductive JsVal :=
| VUndefined
| VNull
| VBool (b : bool)
| VNum (x : spec_float)
| VStr (s : jsstring)
| VArr (xs : list JsVal)
| VObj (props : list (jsstring * JsVal))
| VFunction.

(** [xs] joined with [sep] between consecutive elements. *)
Fixpoint join_units (sep : jsstring) (xs : list jsstring) : jsstring :=
  match xs with
  | [] => []
  | [x] => x
  | x :: r => x ++ sep ++ join_units sep r
  end.

(** *** Strings: [QuoteJSONString] and the string literals of [JSON.parse] *)

Definition is_high_surrogate (u : Z) : bool := (55296 <=? u) && (u <=? 56319).

Definition is_low_surrogate (u : Z) : bool := (56320 <=? u) && (u <=? 57343).

(** A hexadecimal digit, in lower case. *)
Definition hex_unit (d : Z) : Z := if d <? 10 then 48 + d else 87 + d.

(** [UnicodeEscape(u)]: [\u] and four lower-case hexadecimal digits. *)
Definition unicode_escape (u : Z) : jsstring :=
  [92; 117; hex_unit (u / 4096); hex_unit (u / 256 mod 16);
   hex_unit (u / 16 mod 16); hex_unit (u mod 16)].

(** A code unit that is not a surrogate: the escapes of the table of
    [QuoteJSONString], [UnicodeEscape] below [0x20], itself otherwise. *)
Definition escape_unit (u : Z) : jsstring :=
  if u =? 8 then [92; 98]
  else if u =? 9 then [92; 116]
  else if u =? 10 then [92; 110]
  else if u =? 12 then [92; 102]
  else if u =? 13 then [92; 114]
  else if u =? 34 then [92; 34]
  else if u =? 92 then [92; 92]
  else if u <? 32 then unicode_escape u
  else [u].

(** The code points of the string, read from its code units: a surrogate
    pair is kept as is, a lone surrogate is written with [UnicodeEscape]. *)
Fixpoint escape_units (s : jsstring) : jsstring :=
  match s with
  | [] => []
  | u :: r =>
      if is_high_surrogate u then
        match r with
        | v :: r' =>
            if is_low_surrogate v then u :: v :: escape_units r'
            else unicode_escape u ++ escape_units r
        | [] => unicode_escape u
        end
      else if is_low_surrogate u then unicode_escape u ++ escape_units r
      else escape_unit u ++ escape_units r
  end.

Definition quote_units (s : jsstring) : jsstring := 34 :: escape_units s ++ [34].

Definition hex_value (u : Z) : option Z :=
  if (48 <=? u) && (u <=? 57) then Some (u - 48)
  else if (97 <=? u) && (u <=? 102) then Some (u - 87)
  else if (65 <=? u) && (u <=? 70) then Some (u - 55)
  else None.

(** The character a one-letter escape stands for. *)
Definition simple_escape (e : Z) : option Z :=
  if e =? 34 then Some 34
  else if e =? 92 then Some 92
  else if e =? 47 then Some 47
  else if e =? 98 then Some 8
  else if e =? 102 then Some 12
  else if e =? 110 then Some 10
  else if e =? 114 then Some 13
  else if e =? 116 then Some 9
  else None.

(** [JSON.parse] on the body of a string literal, after its opening quote:
    the string's code units and the text after the closing quote. A code
    unit below [0x20] must be escaped; [\uXXXX] takes hexadecimal digits in
    either case. *)
Fixpoint parse_str_body (s : jsstring) : option (jsstring * jsstring) :=
  match s with
  | [] => None
  | u :: r =>
      if u =? 34 then Some ([], r)
      else if u =? 92 then
        match r with
        | [] => None
        | e :: r2 =>
            if e =? 117 then
              match r2 with
              | h1 :: h2 :: h3 :: h4 :: r3 =>
                  match hex_value h1, hex_value h2, hex_value h3, hex_value h4 with
                  | Some a, Some b, Some c, Some d =>
                      match parse_str_body r3 with
                      | Some (t, rest) => Some (((a * 16 + b) * 16 + c) * 16 + d :: t, rest)
                      | None => None
                      end
                  | _, _, _, _ => None
                  end
              | _ => None
              end
            else
              match simple_escape e with
              | Some c =>
                  match parse_str_body r2 with
                  | Some (t, rest) => Some (c :: t, rest)
                  | None => None
                  end
              | None => None
              end
        end
      else if u <? 32 then None
      else
        match parse_str_body r with
        | Some (t, rest) => Some (u :: t, rest)
        | None => None
        end
  end.

(** *** Numbers: binary64 rounding, [Number::toString] and the number
    literals of [JSON.parse] *)

(** A finite binary64 value [S754_finite neg m e] is [(-1)^neg * m * 2^e];
    [valid_binary] says its mantissa and exponent are the canonical ones. *)
Definition binary64_valid (x : spec_float) : bool := valid_binary 53 1024 x.

(** Structural equality of binary64 values ([+0] and [-0] differ). *)
Definition float_eqb (x y : spec_float) : bool :=
  match x, y with
  | S754_zero a, S754_zero b => Bool.eqb a b
  | S754_infinity a, S754_infinity b => Bool.eqb a b
  | S754_nan, S754_nan => true
  | S754_finite a m e, S754_finite b m' e' => Bool.eqb a b && Pos.eqb m m' && Z.eqb e e'
  | _, _ => false
  end.

(** [m * 2^e] as a rational. *)
Definition Q_of_float (m : positive) (e : Z) : Q :=
  if 0 <=? e then inject_Z (Zpos m * 2 ^ e) else Qmake (Zpos m) (Z.to_pos (2 ^ (- e))).

(** [d * 10^t] as a rational. *)
Definition decimal_Q (d t : Z) : Q :=
  if 0 <=? t then inject_Z (d * 10 ^ t) else Qmake d (Z.to_pos (10 ^ (- t))).

(** [num / (den * 2^e)] as a fraction of integers. *)
Definition scale (num den e : Z) : Z * Z :=
  if 0 <=? e then (num, den * 2 ^ e) else (num * 2 ^ (- e), den).

(** For [num, den > 0], the exponent [e] with
    [2^52 <= num / (den * 2^e) < 2^53]: it is [g] or [g - 1] for
    [g = log2 num - log2 den - 52]. *)
Definition binade (num den : Z) : Z :=
  let g := Z.log2 num - Z.log2 den - 52 in
  let '(a, b) := scale num den g in
  if 2 ^ 52 <=? a / b then g else g - 1.

(** [e] is the exponent of the binade of [num / den]. *)
Definition in_binade (num den e : Z) : Prop :=
  2 ^ 52 * snd (scale num den e) <= fst (scale num den e) < 2 ^ 53 * snd (scale num den e).

(** "The Number value for" the positive rational [num / den] with sign
    [neg]: rounded to the binary64 grid, to nearest with ties to even. The
    exponent is the binade's, but at least [-1074] (subnormals); a result
    of [2^1024] or more is an infinity, one that rounds to [0] a zero. *)
Definition round_binary64 (neg : bool) (num den : Z) : spec_float :=
  let e := Z.max (binade num den) (-1074) in
  let '(a, b) := scale num den e in
  let q := a / b in
  let r := a mod b in
  let m := if (b <? 2 * r) || ((2 * r =? b) && Z.odd q) then q + 1 else q in
  let '(m', e') := if m =? 2 ^ 53 then (2 ^ 52, e + 1) else (m, e) in
  if m' =? 0 then S754_zero neg
  else if 971 <? e' then S754_infinity neg
  else S754_finite neg (Z.to_pos m') e'.

(** The Number value of a non-negative rational, with sign [neg]. *)
Definition number_value (neg : bool) (q : Q) : spec_float :=
  let q' := Qred q in
  if Qnum q' =? 0 then S754_zero neg else round_binary64 neg (Qnum q') (Zpos (Qden q')).

(** The decimal digits of [n >= 0], most significant first; [fuel], the
    number of binary digits, bounds their number. *)
Fixpoint digits_fuel (fuel : nat) (n : Z) (acc : list Z) : list Z :=
  match fuel with
  | O => n :: acc
  | S f => if n <? 10 then n :: acc else digits_fuel f (n / 10) (n mod 10 :: acc)
  end.

Definition dec_digits (n : Z) : list Z := digits_fuel (Z.to_nat (Z.log2 n + 1)) n [].

Definition digits_value (ds : list Z) : Z := fold_left (fun acc d => acc * 10 + d) ds 0.

Definition digit_unit (d : Z) : Z := 48 + d.

(** Steps 7 to 11 of [Number::toString] (ECMA-262, 6.1.6.1.20) for the
    digits [ds] of [s] ([k] of them) and the exponent [n]:
    [x = s * 10^(n - k)]. *)
Definition format_decimal (ds : list Z) (n : Z) : jsstring :=
  let k := Z.of_nat (length ds) in
  let du := map digit_unit ds in
  if (k <=? n) && (n <=? 21) then du ++ repeat 48 (Z.to_nat (n - k))
  else if (0 <? n) && (n <=? 21) then firstn (Z.to_nat n) du ++ [46] ++ skipn (Z.to_nat n) du
  else if (-6 <? n) && (n <=? 0) then [48; 46] ++ repeat 48 (Z.to_nat (- n)) ++ du
  else
    let ex := (if 0 <=? n - 1 then 43 else 45) :: map digit_unit (dec_digits (Z.abs (n - 1))) in
    if k =? 1 then du ++ [101] ++ ex
    else firstn 1 du ++ [46] ++ skipn 1 du ++ [101] ++ ex.

(** The exact decimal form [(s0, t0)] of [m * 2^e]: [m * 2^e = s0 * 10^t0]. *)
Definition exact_decimal (m : positive) (e : Z) : Z * Z :=
  if 0 <=? e then (Zpos m * 2 ^ e, 0) else (Zpos m * 5 ^ (- e), e).

Definition clamp (lo hi s : Z) : Z := Z.max lo (Z.min hi s).

(** The integers next to [x * 10^(k - n)] for [x = s0 * 10^t0], brought
    into [10^(k-1), 10^k - 1]: among the [s] of [k] digits whose
    [s * 10^(n - k)] rounds to [x], those closest to [x] are among them. *)
Definition candidates (s0 t0 k n : Z) : list Z :=
  let d := t0 + k - n in
  let lo := 10 ^ (k - 1) in
  let hi := 10 ^ k - 1 in
  if 0 <=? d then [clamp lo hi (s0 * 10 ^ d)]
  else
    let q := s0 / 10 ^ (- d) in
    [clamp lo hi q; clamp lo hi (if s0 mod 10 ^ (- d) =? 0 then q else q + 1)].

(** [c1 = (s1, n1)] is a better choice than [c2]: [s1 * 10^(n1 - k)] is
    closer to [x], or as close with [s1] even and [s2] odd. *)
Definition better (xq : Q) (k : Z) (c1 c2 : Z * Z) : bool :=
  let d1 := Qabs (Qminus (decimal_Q (fst c1) (snd c1 - k)) xq) in
  let d2 := Qabs (Qminus (decimal_Q (fst c2) (snd c2 - k)) xq) in
  match Qcompare d1 d2 with
  | Lt => true
  | Eq => Z.even (fst c1) && negb (Z.even (fst c2))
  | Gt => false
  end.

Definition pick (xq : Q) (k : Z) (cs : list (Z * Z)) : option (Z * Z) :=
  fold_left (fun best c => match best with
                           | None => Some c
                           | Some b => if better xq k c b then Some c else best
                           end) cs None.

(** Steps 5 and 6 of [Number::toString]: the least [k], from [k], for
    which some [s] of [k] digits and some [n] make [s * 10^(n - k)] round
    to [x], with the closest such [s]; [n] is within one of [n0], the [n]
    of [x] itself. *)
Fixpoint shortest (fuel : nat) (x : spec_float) (xq : Q) (s0 t0 n0 k : Z)
  : option (Z * Z) :=
  match fuel with
  | O => None
  | S f =>
      let cs := List.filter (fun c => float_eqb (number_value false (decimal_Q (fst c) (snd c - k))) x)
                  (flat_map (fun n => map (fun s => (s, n)) (candidates s0 t0 k n))
                            [n0 - 1; n0; n0 + 1]) in
      match pick xq k cs with
      | Some c => Some c
      | None => shortest f x xq s0 t0 n0 (k + 1)
      end
  end.

(** [Number::toString(x)] for a finite [x = m * 2^e > 0]. The exact
    decimal form has at most 767 digits and is itself a candidate at its
    own length, so the search ends before its fuel does. *)
Definition number_to_string_pos (m : positive) (e : Z) : jsstring :=
  let '(s0, t0) := exact_decimal m e in
  let n0 := Z.of_nat (length (dec_digits s0)) + t0 in
  match shortest 800 (S754_finite false m e) (Q_of_float m e) s0 t0 n0 1 with
  | Some (s, n) => format_decimal (dec_digits s) n
  | None => format_decimal (dec_digits s0) n0
  end.

(** [JSON.stringify] on a number: [ToString] when finite ([-0] gives
    ["0"]), ["null"] otherwise. *)
Definition number_json (x : spec_float) : jsstring :=
  match x with
  | S754_zero _ => U "0"
  | S754_finite false m e => number_to_string_pos m e
  | S754_finite true m e => 45 :: number_to_string_pos m e
  | S754_infinity _ | S754_nan => U "null"
  end.

(** *** [JSON.stringify] *)

(** [JSON.stringify(v)]; [None] is the [undefined] it returns for
    [undefined] and functions, which an array writes as [null] and an
    object leaves out. *)
Fixpoint json_stringify (v : JsVal) : option jsstring :=
  match v with
  | VUndefined | VFunction => None
  | VNull => Some (U "null")
  | VBool true => Some (U "true")
  | VBool false => Some (U "false")
  | VNum x => Some (number_json x)
  | VStr s => Some (quote_units s)
  | VArr xs =>
      Some ([91] ++ join_units [44] (map (fun x => match json_stringify x with
                                                   | Some s => s
                                                   | None => U "null"
                                                   end) xs) ++ [93])
  | VObj ps =>
      Some ([123] ++ join_units [44] (flat_map (fun '(k, x) =>
                                        match json_stringify x with
                                        | Some s => [quote_units k ++ [58] ++ s]
                                        | None => []
                                        end) ps) ++ [125])
  end.

(** *** [JSON.parse] *)

Definition is_ws_unit (u : Z) : bool := (u =? 32) || (u =? 9) || (u =? 10) || (u =? 13).

Fixpoint skip_ws (s : jsstring) : jsstring :=
  match s with
  | u :: r => if is_ws_unit u then skip_ws r else s
  | [] => []
  end.

Fixpoint strip_prefix (p s : jsstring) : option jsstring :=
  match p, s with
  | [], _ => Some s
  | a :: p', b :: s' => if a =? b then strip_prefix p' s' else None
  | _ :: _, [] => None
  end.

Definition next_is (c : Z) (s : jsstring) : option jsstring :=
  match s with
  | u :: r => if u =? c then Some r else None
  | [] => None
  end.

Definition is_digit_unit (u : Z) : bool := (48 <=? u) && (u <=? 57).

(** The longest run of digits at the start of [s], as digit values. *)
Fixpoint take_digits (s : jsstring) : list Z * jsstring :=
  match s with
  | u :: r =>
      if is_digit_unit u then let '(ds, r') := take_digits r in ((u - 48) :: ds, r')
      else ([], s)
  | [] => ([], [])
  end.

(** The integer part of a number: [0], or a digit from 1 to 9 and digits. *)
Definition parse_int_part (s : jsstring) : option (list Z * jsstring) :=
  match s with
  | u :: r =>
      if u =? 48 then Some ([0], r)
      else if is_digit_unit u then let '(ds, r') := take_digits r in Some ((u - 48) :: ds, r')
      else None
  | [] => None
  end.

(** An optional fraction: [.] and at least one digit. *)
Definition parse_frac (s : jsstring) : option (list Z * jsstring) :=
  match s with
  | u :: r =>
      if u =? 46 then
        match take_digits r with
        | ([], _) => None
        | (ds, r') => Some (ds, r')
        end
      else Some ([], s)
  | [] => Some ([], [])
  end.

(** An optional exponent: [e] or [E], an optional sign, at least one digit. *)
Definition parse_exp (s : jsstring) : option (Z * jsstring) :=
  match s with
  | u :: r =>
      if (u =? 101) || (u =? 69) then
        let '(sg, r1) := match r with
                         | v :: r' => if v =? 43 then (1, r') else if v =? 45 then (-1, r')
                                      else (1, r)
                         | [] => (1, r)
                         end in
        match take_digits r1 with
        | ([], _) => None
        | (ds, r2) => Some (sg * digits_value ds, r2)
        end
      else Some (0, s)
  | [] => Some (0, [])
  end.

(** A number literal: its Number value, correctly rounded. *)
Definition parse_number (s : jsstring) : option (spec_float * jsstring) :=
  let '(neg, s1) := match s with
                    | u :: r => if u =? 45 then (true, r) else (false, s)
                    | [] => (false, s)
                    end in
  match parse_int_part s1 with
  | None => None
  | Some (ids, s2) =>
      match parse_frac s2 with
      | None => None
      | Some (fds, s3) =>
          match parse_exp s3 with
          | None => None
          | Some (ex, s4) =>
              Some (number_value neg (decimal_Q (digits_value (ids ++ fds))
                                                (ex - Z.of_nat (length fds))), s4)
          end
      end
  end.

(** [k] is an array index, the canonical decimal form of an integer from
    [0] to [2^32 - 2]: its value. *)
Definition array_index (k : jsstring) : option Z :=
  match k with
  | [] => None
  | u :: r =>
      let v := digits_value (map (fun d => d - 48) k) in
      if forallb is_digit_unit k && (negb (u =? 48) || match r with [] => true | _ => false end)
         && (v <=? 4294967294)
      then Some v else None
  end.

(** A new array-index property goes after the smaller indices, before any
    other key. *)
Fixpoint insert_index (i : Z) (k : jsstring) (v : JsVal) (ps : list (jsstring * JsVal))
  : list (jsstring * JsVal) :=
  match ps with
  | [] => [(k, v)]
  | (k', v') :: r =>
      match array_index k' with
      | Some j => if j <? i then (k', v') :: insert_index i k v r else (k, v) :: ps
      | None => (k, v) :: ps
      end
  end.

(** [CreateDataProperty(obj, k, v)] on the property list in enumeration
    order (integer indices ascending, then the other keys in creation
    order): an existing key keeps its place and takes the new value. *)
Definition obj_define (ps : list (jsstring * JsVal)) (k : jsstring) (v : JsVal)
  : list (jsstring * JsVal) :=
  if existsb (fun kv => bool_decide (fst kv = k)) ps
  then map (fun '(k', v') => if bool_decide (k' = k) then (k', v) else (k', v')) ps
  else match array_index k with
       | Some i => insert_index i k v ps
       | None => ps ++ [(k, v)]
       end.

(** [JSON.parse] on one value; [fuel] bounds the nesting and the number
    of elements, [json_parse] gives it more than the text can need. *)
Fixpoint parse_value (fuel : nat) (s : jsstring) : option (JsVal * jsstring) :=
  match fuel with
  | O => None
  | S f =>
      match skip_ws s with
      | [] => None
      | c :: r =>
          if c =? 110 then
            match strip_prefix (U "ull") r with Some r' => Some (VNull, r') | None => None end
          else if c =? 116 then
            match strip_prefix (U "rue") r with Some r' => Some (VBool true, r') | None => None end
          else if c =? 102 then
            match strip_prefix (U "alse") r with Some r' => Some (VBool false, r') | None => None end
          else if c =? 34 then
            match parse_str_body r with Some (t, r') => Some (VStr t, r') | None => None end
          else if c =? 91 then
            match next_is 93 (skip_ws r) with
            | Some r' => Some (VArr [], r')
            | None => match parse_elements f r with
                      | Some (xs, r') => Some (VArr xs, r')
                      | None => None
                      end
            end
          else if c =? 123 then
            match next_is 125 (skip_ws r) with
            | Some r' => Some (VObj [], r')
            | None => match parse_members f [] r with
                      | Some (ps, r') => Some (VObj ps, r')
                      | None => None
                      end
            end
          else
            match parse_number (c :: r) with
            | Some (x, r') => Some (VNum x, r')
            | None => None
            end
      end
  end
with parse_elements (fuel : nat) (s : jsstring) : option (list JsVal * jsstring) :=
  match fuel with
  | O => None
  | S f =>
      match parse_value f s with
      | None => None
      | Some (v, r) =>
          match next_is 44 (skip_ws r) with
          | Some r' =>
              match parse_elements f r' with
              | Some (vs, r'') => Some (v :: vs, r'')
              | None => None
              end
          | None =>
              match next_is 93 (skip_ws r) with
              | Some r' => Some ([v], r')
              | None => None
              end
          end
      end
  end
with parse_members (fuel : nat) (acc : list (jsstring * JsVal)) (s : jsstring)
  : option (list (jsstring * JsVal) * jsstring) :=
  match fuel with
  | O => None
  | S f =>
      match next_is 34 (skip_ws s) with
      | None => None
      | Some r =>
          match parse_str_body r with
          | None => None
          | Some (k, r1) =>
              match next_is 58 (skip_ws r1) with
              | None => None
              | Some r2 =>
                  match parse_value f r2 with
                  | None => None
                  | Some (v, r3) =>
                      let acc' := obj_define acc k v in
                      match next_is 44 (skip_ws r3) with
                      | Some r4 => parse_members f acc' r4
                      | None =>
                          match next_is 125 (skip_ws r3) with
                          | Some r4 => Some (acc', r4)
                          | None => None
                          end
                      end
                  end
              end
          end
      end
  end.

(** [JSON.parse(text)]: [None] is the [SyntaxError] it throws. *)
Definition json_parse (text : jsstring) : option JsVal :=
  match parse_value (S (length text)) text with
  | Some (v, r) => match skip_ws r with [] => Some v | _ :: _ => None end
  | None => None
  end.

(** *** The adapter *)

(** The browser store: its items, and whether a read or a write throws
    (quota exceeded, security error). *)
Record Backend := mkBackend {
  items : gmap jsstring jsstring;
  read_error : option string;
  write_error : option string
}.

Definition empty_backend : Backend := mkBackend ∅ None None.

Definition LOG_GET_ERROR := "Error getting item from localStorage:".

Definition LOG_SET_ERROR := "Error setting item in localStorage:".

(** [getItem(key)]: the parsed value when the raw string parses, the raw
    string when it does not; a missing key reads as [null], which
    [JSON.parse(null)] returns; a throwing read is logged and gives [null].
    The second component is what is written with [console.error]. *)
Definition getItem (b : Backend) (key : jsstring) : JsVal * list string :=
  match read_error b with
  | Some e => (VNull, [LOG_GET_ERROR ++ " " ++ e]%string)
  | None =>
      match items b !! key with
      | None => (VNull, [])
      | Some raw =>
          match json_parse raw with
          | Some v => (v, [])
          | None => (VStr raw, [])
          end
      end
  end.

Definition storage_raw (v : JsVal) : jsstring :=
  match v with
  | VStr s => s
  | _ => match json_stringify v with Some s => s | None => U "undefined" end
  end.

(** [setItem(key, value)]: a string is stored as is, any other value as its
    [JSON.stringify] text (the store turns the [undefined] it returns for
    [undefined] and functions into the text ["undefined"]); a throwing
    write is logged and suppressed. *)
Definition setItem (b : Backend) (key : jsstring) (v : JsVal) : Backend * list string :=
  match write_error b with
  | Some e => (b, [LOG_SET_ERROR ++ " " ++ e]%string)
  | None => (mkBackend (<[key := storage_raw v]> (items b)) (read_error b) (write_error b), [])
  end.

(** *** Values that [JSON.stringify] then [JSON.parse] bring back *)

Definition units_ok (s : jsstring) : bool := forallb (fun u => (0 <=? u) && (u <? 65536)) s.

(** A finite number other than [-0], as a canonical binary64 value. *)
Definition number_safe (x : spec_float) : bool :=
  match x with
  | S754_zero false => true
  | S754_finite _ _ _ => binary64_valid x
  | _ => false
  end.

(** [x] with the sign [neg]. *)
Definition with_sign (neg : bool) (x : spec_float) : spec_float :=
  match x with
  | S754_zero _ => S754_zero neg
  | S754_infinity _ => S754_infinity neg
  | S754_nan => S754_nan
  | S754_finite _ m e => S754_finite neg m e
  end.

(** [r] does not start with a digit. *)
Definition digit_free_head (r : jsstring) : Prop :=
  match r with [] => True | u :: _ => is_digit_unit u = false end.

(** What may follow a number literal: not a digit, [.], [e] or [E]. *)
Definition number_end (r : jsstring) : bool :=
  match r with
  | [] => true
  | u :: _ => negb (is_digit_unit u || (u =? 46) || (u =? 101) || (u =? 69))
  end.

Fixpoint keys_distinct (ks : list jsstring) : bool :=
  match ks with
  | [] => true
  | k :: r => negb (existsb (fun k' => bool_decide (k' = k)) r) && keys_distinct r
  end.

(** Keys in an order in which an object enumerates them: a later key is a
    larger index after an index, and no index after another key. *)
Fixpoint ordered_keys (ks : list jsstring) : bool :=
  match ks with
  | [] => true
  | k :: r =>
      match array_index k with
      | Some i => forallb (fun k' => match array_index k' with Some j => i <? j | None => true end) r
      | None => forallb (fun k' => match array_index k' with Some _ => false | None => true end) r
      end && ordered_keys r
  end.

(** No [undefined], function, [NaN], infinity or [-0] inside, code units
    in range, and the keys of each object distinct and in enumeration order. *)
Fixpoint json_safe (v : JsVal) : bool :=
  match v with
  | VUndefined | VFunction => false
  | VNull | VBool _ => true
  | VNum x => number_safe x
  | VStr s => units_ok s
  | VArr xs => forallb json_safe xs
  | VObj ps => forallb (fun '(k, x) => units_ok k && json_safe x) ps
               && keys_distinct (map fst ps) && ordered_keys (map fst ps)
  end.

Fixpoint jsize (v : JsVal) : nat :=
  match v with
  | VArr xs => S (list_sum (map (fun x => S (jsize x)) xs))
  | VObj ps => S (list_sum (map (fun '(_, x) => S (jsize x)) ps))
  | _ => 1%nat
  end.

(** The text [JSON.stringify] writes for an element of an array, and for
    a member of an object. *)
Definition elem_json (v : JsVal) : jsstring :=
  match json_stringify v with Some s => s | None => U "null" end.

Definition member_json (kv : jsstring * JsVal) : jsstring :=
  quote_units (fst kv) ++ [58] ++ elem_json (snd kv).

(** The sample user object of the store's tests, with a fractional score. *)
Definition john : JsVal :=
  VObj [(U "name", VStr (U "John"));
        (U "age", VNum (S754_finite false 8444249301319680 (-48)));
        (U "score", VNum (S754_finite false 6755399441055744 (-52)));
        (U "roles", VArr [VStr (U "admin"); VStr (U "user")])].

End StorageAdapter.


(* ================================================================= *)
(** ** Tasks store ([src/stores/tasks.js], here [src/unnamed/part_003]) *)

(** A task as the store holds it: a plain object, its fields in property
    order (a task list element is an object, as the server sends it). *)
Definition Obj := list (string * JsValue).

(** [o[k]]: the value of an own property, [undefined] when absent. *)
Fixpoint get_field (o : Obj) (k : string) : JsValue :=
  match o with
  | [] => JsUndefined
  | (k', v) :: r => if String.eqb k k' then v else get_field r k
  end.

(** JavaScript truthiness. *)
Definition js_truthy (v : JsValue) : bool :=
  match v with
  | JsUndefined | JsNull => false
  | JsBool b => b
  | JsNum (JsFinite z) => negb (Z.eqb z 0)
  | JsNum JsNaN => false
  | JsNum _ => true
  | JsStr s => negb (String.eqb s "")
  | JsArr _ | JsObj _ | JsFunction => true
  end.

(** Strict equality [===] on primitive values ([NaN] is not equal to
    itself). Objects, arrays and functions compare by identity, which
    these values do not carry: they are never equal here, and task ids
    are primitives. *)
Definition js_strict_eq (a b : JsValue) : bool :=
  match a, b with
  | JsUndefined, JsUndefined | JsNull, JsNull => true
  | JsBool x, JsBool y => Bool.eqb x y
  | JsNum (JsFinite x), JsNum (JsFinite y) => Z.eqb x y
  | JsNum JsInfinity, JsNum JsInfinity => true
  | JsNum JsNegInfinity, JsNum JsNegInfinity => true
  | JsStr x, JsStr y => String.eqb x y
  | _, _ => false
  end.

(** [String(v)] in a template literal, for the values an id can be; a
    function's text is its source, which the model does not keep. *)
Fixpoint js_to_string (v : JsValue) : string :=
  match v with
  | JsUndefined => "undefined"
  | JsNull => "null"
  | JsBool b => if b then "true" else "false"
  | JsNum (JsFinite z) => number_to_json z
  | JsNum JsNaN => "NaN"
  | JsNum JsInfinity => "Infinity"
  | JsNum JsNegInfinity => "-Infinity"
  | JsStr s => s
  | JsArr xs => join "," (map (fun x => match x with
                                       | JsUndefined | JsNull => ""
                                       | _ => js_to_string x end) xs)
  | JsObj _ => "[object Object]"
  | JsFunction => "function"
  end.

Fixpoint indexed_from (i : nat) (xs : list JsValue) : Obj :=
  match xs with
  | [] => []
  | x :: r => (number_to_json (Z.of_nat i), x) :: indexed_from (S i) r
  end.

(** The own enumerable properties an object spread [...v] copies. *)
Definition spread_source (v : JsValue) : Obj :=
  match v with
  | JsObj fs => fs
  | JsArr xs => indexed_from 0 xs
  | JsStr s => indexed_from 0 (map (fun c => JsStr (String c EmptyString))
                                   (list_ascii_of_string s))
  | _ => []
  end.

(** [{ ...o, ...v }]: the properties of [v] set on a copy of [o] in order
    (a key already present keeps its place; integer-like keys are not
    moved to the front, which no lookup depends on). *)
Definition spread (o : Obj) (v : JsValue) : Obj :=
  fold_left (fun acc kv => obj_set acc (fst kv) (snd kv)) (spread_source v) o.

Definition FILTER_TYPES : list string := ["all"; "active"; "completed"].

(** The store's state; [task_filter] is the state's [filter]. *)
Record TasksState := mkTasksState {
  tasks : list Obj;
  task_filter : string;
  loading : bool
}.

Definition initial_tasks_state : TasksState := mkTasksState [] "all" false.

(** The getters, lines 23-54. *)
Definition filteredTasks (s : TasksState) : list Obj :=
  if String.eqb (task_filter s) "active"
  then List.filter (fun t => negb (js_truthy (get_field t "completed"))) (tasks s)
  else if String.eqb (task_filter s) "completed"
  then List.filter (fun t => js_truthy (get_field t "completed")) (tasks s)
  else tasks s.

Definition activeTaskCount (s : TasksState) : nat :=
  List.length (List.filter (fun t => negb (js_truthy (get_field t "completed"))) (tasks s)).

Definition completedTaskCount (s : TasksState) : nat :=
  List.length (List.filter (fun t => js_truthy (get_field t "completed")) (tasks s)).

Definition allTasksCompleted (s : TasksState) : bool :=
  (0 <? List.length (tasks s))%nat
  && forallb (fun t => js_truthy (get_field t "completed")) (tasks s).

(** What the user sees: Quasar notifications and console warnings. *)
Inductive UiEvent :=
| NotifyError (message : string)
| NotifySuccess (message : string) (timeout : Z)
| ConsoleWarn (message : string).

(** The requests the store sends through the axios client. *)
Inductive Request :=
| GetReq (url : string)
| PostReq (url : string) (body : JsValue)
| PutReq (url : string) (body : JsValue)
| DeleteReq (url : string).

(** [response.data] of a resolved call: [success] and [tasks] as read by
    their truthiness, [message] as a string, [""] when absent or falsy. *)
Record ApiData := mkApiData {
  data_success : bool;
  data_message : string;
  data_tasks : option (list Obj)
}.

(** A rejected call: [error.response?.data?.message],
    [error.response?.data?.error] and [error.message], [""] when absent
    or falsy. *)
Record ApiError := mkApiError {
  err_data_message : string;
  err_data_error : string;
  err_message : string
}.

Inductive ApiOutcome :=
| ApiResolved (d : ApiData)
| ApiRejected (e : ApiError).

(** The store's world: its state, the user-visible events and the
    requests sent (oldest first), the server (the outcome of the axios
    call, interceptors included, given the requests sent before it) and
    the rejection [Promise.all] reports among several. *)
Record TasksWorld := mkTasksWorld {
  tstate : TasksState;
  ui : list UiEvent;
  sent : list Request;
  server : list Request -> Request -> ApiOutcome;
  first_rejection : list ApiError -> ApiError
}.

Definition TM := StateM TasksWorld.

Definition set_tstate (s : TasksState) : TM unit :=
  fun w => (tt, mkTasksWorld s (ui w) (sent w) (server w) (first_rejection w)).
Definition get_tstate : TM TasksState := fun w => (tstate w, w).
Definition ui_emit (e : UiEvent) : TM unit :=
  fun w => (tt, mkTasksWorld (tstate w) (ui w ++ [e])%list (sent w) (server w)
                             (first_rejection w)).

(** [axios.get/post/put/delete]: the request is sent, its outcome awaited. *)
Definition send (r : Request) : TM ApiOutcome :=
  fun w => (server w (sent w) r,
            mkTasksWorld (tstate w) (ui w) (sent w ++ [r])%list (server w)
                         (first_rejection w)).

(** [rs.map(send)]: every request leaves before any outcome is awaited. *)
Fixpoint send_each (rs : list Request) : TM (list ApiOutcome) :=
  match rs with
  | [] => ret []
  | r :: rs' => o <- send r ;; os <- send_each rs' ;; ret (o :: os)
  end.

Definition rejections (os : list ApiOutcome) : list ApiError :=
  flat_map (fun o => match o with ApiRejected e => [e] | ApiResolved _ => [] end) os.

(** [await Promise.all(...)]: [None] when every call resolves, else the
    rejection it reports. *)
Definition promise_all (os : list ApiOutcome) : TM (option ApiError) :=
  fun w => (match rejections os with
            | [] => None
            | es => Some (first_rejection w es)
            end, w).

Definition set_tasks (l : list Obj) : TM unit :=
  s <- get_tstate ;; set_tstate (mkTasksState l (task_filter s) (loading s)).
Definition set_loading (b : bool) : TM unit :=
  s <- get_tstate ;; set_tstate (mkTasksState (tasks s) (task_filter s) b).
Definition set_filter (f : string) : TM unit :=
  s <- get_tstate ;; set_tstate (mkTasksState (tasks s) f (loading s)).

(** [a || b] on strings read as above. *)
Definition str_or (a b : string) : string := if String.eqb a "" then b else a.

Definition showErrorNotification (message : string) : TM unit :=
  ui_emit (NotifyError message).

Definition showSuccessNotification (message : string) (timeout : Z) : TM unit :=
  ui_emit (NotifySuccess message timeout).

Definition handleApiError (error : ApiError) (defaultMessage : string) : TM bool :=
  showErrorNotification
    (str_or (err_data_message error)
       (str_or (err_data_error error) (str_or (err_message error) defaultMessage))) ;;;
  ret false.

Definition extractErrorMessage (d : ApiData) (defaultMessage : string) : string :=
  str_or (data_message d) defaultMessage.

Fixpoint find_index {A} (p : A -> bool) (l : list A) : option nat :=
  match l with
  | [] => None
  | x :: r => if p x then Some 0%nat else option_map S (find_index p r)
  end.

(** [findIndex], [None] for [-1]. *)
Definition findTaskIndex (taskId : JsValue) (ts : list Obj) : option nat :=
  find_index (fun t => js_strict_eq (get_field t "entity_id") taskId) ts.

Definition validateTaskId (taskId : JsValue) : TM bool :=
  if negb (js_truthy taskId)
  then showErrorNotification "Task ID is missing" ;;; ret false
  else ret true.

Definition updateTaskInState (taskId updates : JsValue) : TM bool :=
  s <- get_tstate ;;
  match findTaskIndex taskId (tasks s) with
  | Some i =>
      set_tasks (<[i := spread (nth i (tasks s) []) updates]> (tasks s)) ;;; ret true
  | None => ret false
  end.

Definition removeTaskFromState (taskId : JsValue) : TM bool :=
  s <- get_tstate ;;
  match findTaskIndex taskId (tasks s) with
  | Some i => set_tasks (delete i (tasks s)) ;;; ret true
  | None => ret false
  end.

(** The actions on the server, lines 145-273. *)
Definition getTasks : TM bool :=
  set_loading true ;;;
  o <- send (GetReq "/task/") ;;
  r <- match o with
       | ApiResolved d =>
           if data_success d
           then (set_tasks (match data_tasks d with Some l => l | None => [] end) ;;;
                 ret true)
           else (showErrorNotification (extractErrorMessage d "Failed to fetch tasks") ;;;
                 ret false)
       | ApiRejected e => handleApiError e "Failed to fetch tasks"
       end ;;
  set_loading false ;;;
  ret r.

(** [!payload || typeof payload !== 'object'] fails for objects and
    arrays only. *)
Definition valid_payload (payload : JsValue) : bool :=
  match payload with JsObj _ | JsArr _ => true | _ => false end.

Definition addTask (payload : JsValue) : TM bool :=
  if negb (valid_payload payload)
  then showErrorNotification "Invalid task data" ;;; ret false
  else
    o <- send (PostReq "/task/" payload) ;;
    match o with
    | ApiResolved d =>
        if data_success d
        then (showSuccessNotification (str_or (data_message d) "Task added successfully!") 2000 ;;;
              getTasks ;;;
              ret true)
        else (showErrorNotification (extractErrorMessage d "Failed to add task") ;;;
              ret false)
    | ApiRejected e => handleApiError e "Failed to add task"
    end.

Definition task_url (taskId : JsValue) : string := "/task/" ++ js_to_string taskId.

Definition updateTask (taskId payload : JsValue) : TM bool :=
  ok <- validateTaskId taskId ;;
  if negb ok then ret false else
  if negb (valid_payload payload)
  then showErrorNotification "Invalid task data" ;;; ret false
  else
    o <- send (PutReq (task_url taskId) payload) ;;
    match o with
    | ApiResolved d =>
        if data_success d
        then (updateTaskInState taskId payload ;;;
              showSuccessNotification (str_or (data_message d) "Task updated successfully!") 2000 ;;;
              ret true)
        else (showErrorNotification (extractErrorMessage d "Failed to update task") ;;;
              ret false)
    | ApiRejected e => handleApiError e "Failed to update task"
    end.

Definition toggleTaskComplete (taskId : JsValue) : TM bool :=
  s <- get_tstate ;;
  match List.find (fun t => js_strict_eq (get_field t "entity_id") taskId) (tasks s) with
  | None => showErrorNotification "Task not found" ;;; ret false
  | Some task =>
      updateTask taskId
        (JsObj [("completed", JsBool (negb (js_truthy (get_field task "completed"))))])
  end.

Definition deleteTask (taskId : JsValue) : TM bool :=
  ok <- validateTaskId taskId ;;
  if negb ok then ret false else
    o <- send (DeleteReq (task_url taskId)) ;;
    match o with
    | ApiResolved d =>
        if data_success d
        then (removeTaskFromState taskId ;;;
              showSuccessNotification (str_or (data_message d) "Task deleted successfully!") 2000 ;;;
              ret true)
        else (showErrorNotification (extractErrorMessage d "Failed to delete task") ;;;
              ret false)
    | ApiRejected e => handleApiError e "Failed to delete task"
    end.

(** [setFilter], lines 278-285, for a string argument. *)
Definition setFilter (filter : string) : TM unit :=
  if existsb (String.eqb filter) FILTER_TYPES
  then set_filter filter
  else ui_emit (ConsoleWarn ("Invalid filter type: " ++ filter ++ ". Using default: all")) ;;;
       set_filter "all".

Fixpoint for_each {A} (f : A -> TM unit) (xs : list A) : TM unit :=
  match xs with
  | [] => ret tt
  | x :: r => f x ;;; for_each f r
  end.

(** [toggleAllTasks], lines 290-324. *)
Definition toggleAllTasks (completed : bool) : TM bool :=
  s <- get_tstate ;;
  let tasksToUpdate :=
    List.filter (fun t => negb (js_strict_eq (get_field t "completed") (JsBool completed)))
                (tasks s) in
  match tasksToUpdate with
  | [] => ret true
  | _ =>
      for_each (fun t => updateTaskInState (get_field t "entity_id")
                           (JsObj [("completed", JsBool completed)]) ;;; ret tt)
               tasksToUpdate ;;;
      os <- send_each (map (fun t => PutReq (task_url (get_field t "entity_id"))
                                            (JsObj [("completed", JsBool completed)]))
                           tasksToUpdate) ;;
      r <- promise_all os ;;
      match r with
      | None =>
          getTasks ;;;
          showSuccessNotification
            (if completed then "All tasks marked as completed!"
             else "All tasks marked as active!") 2000 ;;;
          ret true
      | Some error =>
          getTasks ;;;
          handleApiError error "Failed to toggle all tasks"
      end
  end.

(** [clearCompleted], lines 327-359. *)
Definition clearCompleted : TM bool :=
  s <- get_tstate ;;
  let completedTasks := List.filter (fun t => js_truthy (get_field t "completed")) (tasks s) in
  let n := List.length completedTasks in
  match completedTasks with
  | [] => ret true
  | _ =>
      let taskIds := map (fun t => get_field t "entity_id") completedTasks in
      for_each (fun taskId => removeTaskFromState taskId ;;; ret tt) taskIds ;;;
      os <- send_each (map (fun t => DeleteReq (task_url (get_field t "entity_id")))
                           completedTasks) ;;
      r <- promise_all os ;;
      match r with
      | None =>
          getTasks ;;;
          showSuccessNotification
            ("Cleared " ++ number_to_json (Z.of_nat n) ++ " completed task"
             ++ (if (1 <? n)%nat then "s" else "") ++ "!") 2000 ;;;
          ret true
      | Some error =>
          getTasks ;;;
          handleApiError error "Failed to clear completed tasks"
      end
  end.

(** The state changes of [updateTaskInState] and [removeTaskFromState]
    on the list alone. *)
Definition update_first (taskId updates : JsValue) (ts : list Obj) : list Obj :=
  match findTaskIndex taskId ts with
  | Some i => <[i := spread (nth i ts []) updates]> ts
  | None => ts
  end.

Definition remove_first (taskId : JsValue) (ts : list Obj) : list Obj :=
  match findTaskIndex taskId ts with
  | Some i => delete i ts
  | None => ts
  end.

Definition entity_id (t : Obj) : JsValue := get_field t "entity_id".

(** Each id is equal to itself (a primitive other than [NaN]) and to no
    other id of the list. *)
Fixpoint distinct_ids (ids : list JsValue) : bool :=
  match ids with
  | [] => true
  | x :: r => js_strict_eq x x && forallb (fun y => negb (js_strict_eq x y)) r
              && distinct_ids r
  end.

Definition ids_ok (ts : list Obj) : bool := distinct_ids (map entity_id ts).

(** The outcomes of [send_each]. *)
Fixpoint outcomes (sv : list Request -> Request -> ApiOutcome) (sn rs : list Request)
  : list ApiOutcome :=
  match rs with
  | [] => []
  | r :: rs' => sv sn r :: outcomes sv (sn ++ [r])%list rs'
  end.

(* ================================================================= *)
(** ** Task components ([src/components/tasks/TaskInput.vue] and
    [TaskItem.vue], [src/pages/tasks/TasksPage.vue]) *)

(** The characters [String.prototype.trim] removes among single-byte
    code units: tab, line feed, vertical tab, form feed, carriage return,
    space and no-break space. *)
Definition js_space (c : ascii) : bool :=
  existsb (Nat.eqb (nat_of_ascii c)) [9; 10; 11; 12; 13; 32; 160]%nat.

Fixpoint drop_spaces (l : list ascii) : list ascii :=
  match l with
  | [] => []
  | c :: r => if js_space c then drop_spaces r else l
  end.

Definition trim (s : string) : string :=
  string_of_list_ascii (rev (drop_spaces (rev (drop_spaces (list_ascii_of_string s))))).

(** [TaskInput.handleAddTask]: the result is the new value of the input
    field [newTaskTitle]. *)
Definition handleAddTask (newTaskTitle : string) : TM string :=
  let trimmedTitle := trim newTaskTitle in
  if String.eqb trimmedTitle "" then ret newTaskTitle
  else if (200 <? String.length trimmedTitle)%nat
  then showErrorNotification "Task title must be less than 200 characters" ;;;
       ret newTaskTitle
  else success <- addTask (JsObj [("title", JsStr trimmedTitle)]) ;;
       ret (if success then "" else newTaskTitle).

(** [TaskInput.handleToggleAll]. *)
Definition handleToggleAll : TM unit :=
  s <- get_tstate ;;
  toggleAllTasks (negb (allTasksCompleted s)) ;;;
  ret tt.

(** [getTaskId] of [TaskItem] and [TasksPage]: [task?.entity_id || null]. *)
Definition getTaskId (task : Obj) : JsValue :=
  let v := get_field task "entity_id" in
  if js_truthy v then v else JsNull.

(** The events [TaskItem] emits to the page. *)
Inductive ItemEmit :=
| EmitDelete (taskId : JsValue)
| EmitSaveEdit (taskId : JsValue) (title : string).

(** [TaskItem.handleSave], with [props.task], [props.editingTaskId] and
    the two edit fields. *)
Definition handleSave (task : Obj) (editingTaskId : JsValue)
  (editingTitle originalEditingTitle : string) : TM (option ItemEmit) :=
  let isEditing := js_strict_eq editingTaskId (getTaskId task) in
  let hasEditChanged :=
    isEditing && negb (String.eqb (trim editingTitle) (trim originalEditingTitle)) in
  if negb hasEditChanged then ret None else
  let trimmedTitle := trim editingTitle in
  if String.eqb trimmedTitle "" then
    ret (if js_truthy (getTaskId task) then Some (EmitDelete (getTaskId task)) else None)
  else if (200 <? String.length trimmedTitle)%nat
  then showErrorNotification "Task title must be less than 200 characters" ;;; ret None
  else ret (Some (EmitSaveEdit (getTaskId task) trimmedTitle)).

(** [TasksPage.handleDeleteTask]. *)
Definition page_handleDeleteTask (taskId : JsValue) : TM unit :=
  if negb (js_truthy taskId) then ret tt else deleteTask taskId ;;; ret tt.

(** [TasksPage.handleSaveEdit]: the result is the new [editingTaskId]. *)
Definition page_handleSaveEdit (editingTaskId taskId : JsValue) (title : string)
  : TM JsValue :=
  if negb (js_truthy taskId) || String.eqb title "" then ret editingTaskId else
  success <- updateTask taskId (JsObj [("title", JsStr title)]) ;;
  ret (if success then JsNull else editingTaskId).

(** The page's listeners on a [TaskItem]: [@delete] and [@save-edit]. *)
Definition page_on_item (editingTaskId : JsValue) (e : option ItemEmit) : TM JsValue :=
  match e with
  | None => ret editingTaskId
  | Some (EmitDelete taskId) => page_handleDeleteTask taskId ;;; ret editingTaskId
  | Some (EmitSaveEdit taskId title) => page_handleSaveEdit editingTaskId taskId title
  end.

(** The first and the last character of [s] are not spaces. *)
Definition no_edge_spaces (s : string) : bool :=
  match list_ascii_of_string s with
  | [] => true
  | c :: r => negb (js_space c) && negb (js_space (List.last (c :: r) c))
  end.

(* ================================================================= *)
(** ** Profile form ([src/pages/profile/EditProfilePage.vue], here
    [src/unnamed/part_004]) *)

(** A rule's result: [true] or the message it returns. *)
Inductive RuleResult := RuleOk | RuleMsg (message : string).

Definition rule_ok (r : RuleResult) : bool :=
  match r with RuleOk => true | RuleMsg _ => false end.

(** [(val && cond) || message] for a string [val]: [""] is falsy. *)
Definition rule_of (val : string) (cond : bool) (message : string) : RuleResult :=
  if negb (String.eqb val "") && cond then RuleOk else RuleMsg message.

Definition firstNameRules : list (string -> RuleResult) := [
  fun val => if negb (String.eqb val "") then RuleOk else RuleMsg "First name is required";
  fun val => rule_of val (0 <? String.length (trim val))%nat "First name cannot be empty";
  fun val => rule_of val (String.length (trim val) <=? 100)%nat
                     "First name must be less than 100 characters" ].

Definition lastNameRules : list (string -> RuleResult) := [
  fun val => if negb (String.eqb val "") then RuleOk else RuleMsg "Last name is required";
  fun val => rule_of val (0 <? String.length (trim val))%nat "Last name cannot be empty";
  fun val => rule_of val (String.length (trim val) <=? 100)%nat
                     "Last name must be less than 100 characters" ].

Record ProfileForm := mkProfileForm {
  firstName : string;
  lastName : string;
  initialFirstName : string;
  initialLastName : string;
  isSubmitting : bool;
  isEditing : bool;
  firstNameErrorMessage : string;
  lastNameErrorMessage : string;
  formErrorMessage : string
}.

Definition hasChanges (f : ProfileForm) : bool :=
  negb (String.eqb (trim (firstName f)) (trim (initialFirstName f)))
  || negb (String.eqb (trim (lastName f)) (trim (initialLastName f))).

Definition isFormValid (f : ProfileForm) : bool :=
  negb (String.eqb (trim (firstName f)) "") && negb (String.eqb (trim (lastName f)) "")
  && forallb (fun rule => rule_ok (rule (firstName f))) firstNameRules
  && forallb (fun rule => rule_ok (rule (lastName f))) lastNameRules
  && hasChanges f.

(** The message of the first failing rule, the loop with [break]. *)
Fixpoint first_failure (rules : list (string -> RuleResult)) (val : string) : option string :=
  match rules with
  | [] => None
  | rule :: r => match rule val with RuleOk => first_failure r val | RuleMsg m => Some m end
  end.

Definition set_errors (f : ProfileForm) (fe le me : string) : ProfileForm :=
  mkProfileForm (firstName f) (lastName f) (initialFirstName f) (initialLastName f)
    (isSubmitting f) (isEditing f) fe le me.

Definition validateForm (f : ProfileForm) : bool * ProfileForm :=
  let '(v1, fe) := match first_failure firstNameRules (firstName f) with
                   | Some m => (false, m) | None => (true, "") end in
  let '(v2, le) := match first_failure lastNameRules (lastName f) with
                   | Some m => (false, m) | None => (v1, "") end in
  if v2 && negb (hasChanges f)
  then (false, set_errors f fe le "Please update at least one field before saving.")
  else (v2, set_errors f fe le "").

(** What [handleSubmit] asks of the router and the auth store. *)
Inductive ProfileEffect :=
| ProfilePush (path : string)
| ProfileUpdate (first_name last_name : string)
| ProfileConsoleError.

(** [handleSubmit]; [hasUser] is [!!authStore.user] and
    [updateProfileInfo] the store action's outcome ([None] when it
    throws). *)
Definition handleSubmit (f : ProfileForm) (hasUser : bool)
  (updateProfileInfo : string -> string -> option bool) : ProfileForm * list ProfileEffect :=
  if negb (isEditing f) then (f, []) else
  let '(ok, f1) := validateForm (set_errors f "" "" "") in
  if negb ok then (f1, []) else
  if negb hasUser then (f1, [ProfilePush "/login"]) else
  let fn := trim (firstName f1) in
  let ln := trim (lastName f1) in
  match updateProfileInfo fn ln with
  | Some true =>
      (mkProfileForm (firstName f1) (lastName f1) fn ln false false
         (firstNameErrorMessage f1) (lastNameErrorMessage f1) (formErrorMessage f1),
       [ProfileUpdate fn ln])
  | Some false =>
      (mkProfileForm (firstName f1) (lastName f1) (initialFirstName f1) (initialLastName f1)
         false (isEditing f1) (firstNameErrorMessage f1) (lastNameErrorMessage f1)
         (formErrorMessage f1),
       [ProfileUpdate fn ln])
  | None =>
      (mkProfileForm (firstName f1) (lastName f1) (initialFirstName f1) (initialLastName f1)
         false (isEditing f1) (firstNameErrorMessage f1) (lastNameErrorMessage f1)
         "Something went wrong while updating your profile. Please try again.",
       [ProfileUpdate fn ln; ProfileConsoleError])
  end.


(** ASCII letters in lower case, other characters unchanged. *)
Definition ascii_lower_char (c : ascii) : ascii :=
  let n := nat_of_ascii c in
  if ((65 <=? n) && (n <=? 90))%nat then ascii_of_nat (n + 32) else c.

Fixpoint ascii_lower (s : string) : string :=
  match s with
  | EmptyString => EmptyString
  | String c r => String (ascii_lower_char c) (ascii_lower r)
  end.

(** The paths of the pages that require authentication, in lower case. *)
Definition protected_paths : list string :=
  ["/dashboard"; "/dashboard/"; "/tasks"; "/tasks/"; "/profile"; "/profile/"].

(** Under the [i] flag, a character of a static segment made of lower-case
    letters and dashes matches exactly the characters whose ASCII lower
    case is itself. *)
Definition ci_lit_char (a : ascii) : Prop :=
  forall b, N.eqb (canonicalize a) (canonicalize b) = Ascii.eqb (ascii_lower_char b) a.

Definition fetched (d : ApiData) : list Obj :=
  match data_tasks d with Some l => l | None => [] end.

Definition differs (c : bool) (t : Obj) : bool :=
  negb (js_strict_eq (get_field t "completed") (JsBool c)).

Definition is_done (t : Obj) : bool := js_truthy (get_field t "completed").

Definition refetched (sv : list Request -> Request -> ApiOutcome) (sn : list Request)
  (otherwise : list Obj) : list Obj :=
  match sv sn (GetReq "/task/") with
  | ApiResolved d => if data_success d then fetched d else otherwise
  | ApiRejected _ => otherwise
  end.

Definition name_ok (v : string) : Prop :=
  (1 <= String.length (trim v) <= 100)%nat.

(** Sample data: two tasks as the API returns them, a server that
    accepts every request without returning a list, and a profile form
    being edited. *)
Definition sample_task (id : Z) (done : bool) : Obj :=
  [("entity_id", JsNum (JsFinite id)); ("title", JsStr "Task"); ("completed", JsBool done)].

Definition sample_world : TasksWorld :=
  mkTasksWorld (mkTasksState [sample_task 1 false; sample_task 2 true] "all" false) [] []
    (fun _ _ => ApiResolved (mkApiData true "" None))
    (fun es => hd (mkApiError "" "" "") es).

(* ================================================================= *)
(** * Properties *)

(** ** Auth store *)

Lemma refreshToken_trace (reply : refresh_reply) (s : Store) :
  exists new, trace (snd (refreshToken reply s)) = (new ++ trace s)%list
              /\ count_event (EvPost REFRESH_URL) new = 1%nat.
Proof.
  destruct reply as [[|] tok exp|msg]; cbn.
  - exists [EvPersist "accessTokenExpiry"; EvPersist "accessToken"; EvPost REFRESH_URL].
    split; reflexivity.
  - exists [EvPost REFRESH_URL]. split; reflexivity.
  - exists [EvNavigate LOGIN_PATH; EvPost LOGOUT_URL; EvRemove "accessTokenExpiry";
            EvRemove "accessToken"; EvRemove "user"; EvPost REFRESH_URL].
    split; reflexivity.
Qed.

(** C1: [isAuthenticated] holds exactly when a token and an expiry are
    present and the expiry lies strictly after [now]; [isTokenExpired]
    holds exactly when the expiry is absent or not after [now]. *)
Theorem isAuthenticated_isTokenExpired_spec (now : Z) (a : AuthState) :
  (isAuthenticated now a = true <->
     (exists t, accessToken a = Some t)
     /\ exists e, accessTokenExpiry a = Some e /\ now < e)
  /\ (isTokenExpired now a = true <->
        accessTokenExpiry a = None
        \/ exists e, accessTokenExpiry a = Some e /\ e <= now).
Proof.
  unfold isAuthenticated, isTokenExpired.
  split.
  - destruct (accessToken a) as [t|], (accessTokenExpiry a) as [e|].
    + rewrite Z.ltb_lt. split.
      * intros H. split; eauto.
      * intros [_ [e' [He Hlt]]]. injection He as <-. exact Hlt.
    + split; [discriminate | intros [_ [e' [He _]]]; discriminate].
    + split; [discriminate | intros [[t' Ht] _]; discriminate].
    + split; [discriminate | intros [[t' Ht] _]; discriminate].
  - destruct (accessTokenExpiry a) as [e|].
    + rewrite Z.leb_le. split.
      * intros H. right. eauto.
      * intros [He | [e' [He Hle]]]; [discriminate | injection He as <-; exact Hle].
    + split; [intros _; left; reflexivity | intros _; reflexivity].
Qed.

(** C2: [checkAndRefreshToken()] returns [false] with no effect when the
    token or the expiry is absent; calls [refreshToken()] exactly once and
    returns its result when [0 < expiry - now < 300]; and returns [true]
    with no effect when the expiry is at least 5 minutes away or already
    reached. *)
Theorem checkAndRefreshToken_spec (now : Z) (reply : refresh_reply) (s : Store) :
  ((accessToken (mem s) = None \/ accessTokenExpiry (mem s) = None) ->
     checkAndRefreshToken now reply s = (false, s))
  /\ (forall t e, accessToken (mem s) = Some t -> accessTokenExpiry (mem s) = Some e ->
        0 < e - now < REFRESH_THRESHOLD ->
        checkAndRefreshToken now reply s = refreshToken reply s
        /\ exists new, trace (snd (checkAndRefreshToken now reply s)) = (new ++ trace s)%list
                       /\ count_event (EvPost REFRESH_URL) new = 1%nat)
  /\ (forall t e, accessToken (mem s) = Some t -> accessTokenExpiry (mem s) = Some e ->
        (REFRESH_THRESHOLD <= e - now \/ e - now <= 0) ->
        checkAndRefreshToken now reply s = (true, s)).
Proof.
  unfold checkAndRefreshToken, bind, get_state, REFRESH_THRESHOLD. cbn.
  split; [|split].
  - intros [H | H]; rewrite H; [reflexivity|].
    destruct (accessToken (mem s)); reflexivity.
  - intros t e Ht He Hrange. rewrite Ht, He.
    replace ((e - now <? 300) && (0 <? e - now))%bool with true
      by (symmetry; apply andb_true_intro; split; apply Z.ltb_lt; lia).
    split; [reflexivity | apply refreshToken_trace].
  - intros t e Ht He Hrange. rewrite Ht, He.
    replace ((e - now <? 300) && (0 <? e - now))%bool with false; [reflexivity|].
    symmetry. destruct Hrange as [Hr | Hr].
    + apply andb_false_intro1. apply Z.ltb_ge. exact Hr.
    + apply andb_false_intro2. apply Z.ltb_ge. exact Hr.
Qed.

(** C3: [refreshToken()] on success replaces only the token and its
    expiry and returns [true]; on a response with [success: false] it
    returns [false] and leaves the session and its persisted copy as they
    were; on a thrown error it performs [logout(false)] (no notification,
    navigation to the login page, session cleared) and returns [false].
    It never raises: its result is a plain boolean. *)
Theorem refreshToken_spec (s : Store) :
  (forall tok exp,
     fst (refreshToken (RefreshReplied true tok exp) s) = true
     /\ mem (snd (refreshToken (RefreshReplied true tok exp) s))
        = mkAuthState (user (mem s)) (Some tok) (Some exp)
                      (invitationToken (mem s)) (oauthErrorMessage (mem s)))
  /\ (forall tok exp,
        fst (refreshToken (RefreshReplied false tok exp) s) = false
        /\ mem (snd (refreshToken (RefreshReplied false tok exp) s)) = mem s
        /\ disk (snd (refreshToken (RefreshReplied false tok exp) s)) = disk s)
  /\ (forall msg,
        let s' := snd (refreshToken (RefreshThrew msg) s) in
        fst (refreshToken (RefreshThrew msg) s) = false
        /\ s' = snd (logout false (snd (emit (EvPost REFRESH_URL) s)))
        /\ user (mem s') = None /\ accessToken (mem s') = None
        /\ accessTokenExpiry (mem s') = None
        /\ exists new, trace s' = (new ++ trace s)%list
                       /\ In (EvNavigate "/login") new
                       /\ forall m, ~ In (EvNotify m) new).
Proof.
  split; [|split].
  - intros tok exp. split; reflexivity.
  - intros tok exp. repeat split.
  - intros msg. cbn. repeat split.
    exists [EvNavigate LOGIN_PATH; EvPost LOGOUT_URL; EvRemove "accessTokenExpiry";
            EvRemove "accessToken"; EvRemove "user"; EvPost REFRESH_URL].
    split; [reflexivity|split].
    + left. reflexivity.
    + intros m Hin. cbn in Hin. intuition discriminate.
Qed.

(** ** Navigation guard *)

Lemma beforeEach_next {S} (api : AuthStoreApi S) (to : RouteLocation) (s0 : S) :
  out_next (beforeEach api to s0)
  = navigation_decision (api_isAuthenticated api (out_state (beforeEach api to s0))) to.
Proof.
  unfold beforeEach.
  destruct (negb (truthy_str (api_accessToken api s0))) eqn:E0; cbn;
  [ destruct (truthy_str (api_accessToken api (api_initialize api s0))
              && api_isTokenExpired api (api_initialize api s0))%bool
  | destruct (truthy_str (api_accessToken api s0) && api_isTokenExpired api s0)%bool ];
  reflexivity.
Qed.

Lemma root_not_anonymous_only : anonymous_only_path "/" = false.
Proof. reflexivity. Qed.

(** C6: with [auth] the authentication status the guard reads after its
    token handling, an authenticated user going to a page for anonymous
    users goes to [/dashboard]; a route with [requiresAuth: true] sends
    an unauthenticated user to [/login]; the root sends unauthenticated
    users to [/login] and authenticated ones to [/dashboard]; every other
    navigation proceeds unchanged. *)
Theorem beforeEach_redirect_decision {S} (api : AuthStoreApi S)
    (to : RouteLocation) (s0 : S) :
  let o := beforeEach api to s0 in
  let auth := api_isAuthenticated api (out_state o) in
  (auth = true -> anonymous_only_path (to_path to) = true ->
     out_next o = NextRedirect "/dashboard")
  /\ (to_requiresAuth to = Some true -> auth = false ->
        out_next o = NextRedirect "/login")
  /\ (to_path to = "/" -> auth = false -> out_next o = NextRedirect "/login")
  /\ (to_path to = "/" -> auth = true -> out_next o = NextRedirect "/dashboard")
  /\ (~ (auth = true /\ anonymous_only_path (to_path to) = true) ->
      ~ (truthy_bool (to_requiresAuth to) = true /\ auth = false) ->
      to_path to <> "/" -> out_next o = NextProceed).
Proof.
  cbv zeta. rewrite beforeEach_next.
  generalize (api_isAuthenticated api (out_state (beforeEach api to s0))) as auth.
  intros auth. unfold navigation_decision.
  destruct to as [p ra]; cbn.
  split; [|split; [|split; [|split]]].
  - intros -> ->. reflexivity.
  - intros -> ->. cbn. destruct (anonymous_only_path p); reflexivity.
  - intros -> ->. rewrite root_not_anonymous_only. cbn.
    destruct (truthy_bool ra); reflexivity.
  - intros -> ->. rewrite root_not_anonymous_only. cbn.
    destruct (truthy_bool ra); reflexivity.
  - intros H1 H2 H3.
    destruct auth, (anonymous_only_path p), (truthy_bool ra);
      cbn; try (exfalso; tauto);
      (destruct (String.eqb_spec p "/"); [contradiction | reflexivity]).
Qed.

(** C7 (as the guard does it): with no (truthy) token the guard calls
    [initialize()] first, and then calls [checkAndRefreshToken()] only if
    the re-hydrated token is present and [isTokenExpired] holds; with a
    token present and [isTokenExpired] true it calls only
    [checkAndRefreshToken()] and decides on the authentication status of
    the state that call leaves; with a token present and [isTokenExpired]
    false it calls neither and decides on the unchanged state. *)
Theorem beforeEach_store_calls {S} (api : AuthStoreApi S)
    (to : RouteLocation) (s0 : S) :
  let o := beforeEach api to s0 in
  (truthy_str (api_accessToken api s0) = false ->
     let s1 := api_initialize api s0 in
     out_calls o = CallInitialize
                   :: (if truthy_str (api_accessToken api s1) && api_isTokenExpired api s1
                       then [CallCheckAndRefreshToken] else []))
  /\ (truthy_str (api_accessToken api s0) = true -> api_isTokenExpired api s0 = true ->
        let s2 := snd (api_checkAndRefreshToken api s0) in
        out_calls o = [CallCheckAndRefreshToken] /\ out_state o = s2
        /\ out_next o = navigation_decision (api_isAuthenticated api s2) to)
  /\ (truthy_str (api_accessToken api s0) = true -> api_isTokenExpired api s0 = false ->
        out_calls o = [] /\ out_state o = s0
        /\ out_next o = navigation_decision (api_isAuthenticated api s0) to).
Proof.
  cbv zeta. unfold beforeEach.
  split; [|split].
  - intros H. rewrite H. cbn.
    destruct (truthy_str (api_accessToken api (api_initialize api s0))
              && api_isTokenExpired api (api_initialize api s0))%bool; reflexivity.
  - intros H1 H2. rewrite H1. cbn. rewrite H1, H2. cbn. repeat split.
  - intros H1 H2. rewrite H1. cbn. rewrite H1, H2. cbn. repeat split.
Qed.

Lemma beforeEach_store_calls_witness :
  truthy_str (accessToken (mem (mkStore empty_auth empty_auth []))) = false
  /\ out_calls (beforeEach (spec_store_api 1000 (RefreshReplied true "t" 5000))
                 (resolve routes "/dashboard") (mkStore empty_auth empty_auth []))
     = [CallInitialize].
Proof.
  split; [reflexivity|].
  pose proof (proj1 (beforeEach_store_calls
                       (spec_store_api 1000 (RefreshReplied true "t" 5000))
                       (resolve routes "/dashboard") (mkStore empty_auth empty_auth []))
                eq_refl) as H.
  exact H.
Defined.

(** C7 counterexample: a token expiring 240 seconds from now is inside
    the 5-minute refresh window, yet the guard calls neither
    [initialize()] nor [checkAndRefreshToken()], because [isTokenExpired]
    is false for it. *)
Lemma beforeEach_expiring_token_not_checked :
  let s0 := mkStore (mkAuthState None (Some "tok") (Some 1240) None None)
                    (mkAuthState None (Some "tok") (Some 1240) None None) [] in
  accessToken (mem s0) = Some "tok"
  /\ 0 < 1240 - 1000 < REFRESH_THRESHOLD
  /\ out_calls (beforeEach (spec_store_api 1000 (RefreshReplied true "new" 5000))
                 (resolve routes "/dashboard") s0) = [].
Proof. vm_compute. split; [reflexivity | split; [split; reflexivity | reflexivity]]. Qed.

Lemma find_catchAll_meta (l : list Matchable) (p : string) :
  List.existsb (fun m => negb (m_catchAll m) && match_tokens (m_pattern m) p) l = false ->
  (forall m, In m l -> m_catchAll m = true -> m_requiresAuth m = None) ->
  match List.find (fun m => match_tokens (m_pattern m) p) l with
  | Some m => m_requiresAuth m
  | None => None
  end = None.
Proof.
  induction l as [|m l IH]; cbn; [reflexivity|].
  intros Hex Hcatch.
  apply orb_false_iff in Hex as [Hm Hl].
  destruct (match_tokens (m_pattern m) p) eqn:Hmatch.
  - apply Hcatch; [left; reflexivity|].
    destruct (m_catchAll m); [reflexivity | discriminate].
  - apply IH; [exact Hl|]. intros m' Hin. apply Hcatch. right. exact Hin.
Qed.

Lemma route_records_catchAll_no_meta :
  forall m, In m (route_records routes) -> m_catchAll m = true -> m_requiresAuth m = None.
Proof.
  intros m Hin. vm_compute in Hin.
  repeat (destruct Hin as [<- | Hin]; [vm_compute; try reflexivity; discriminate|]).
  destruct Hin.
Qed.

(** C10: a path that matches no declared route resolves to the catch-all
    record, which carries no [requiresAuth]; for a user who is not
    authenticated when the guard decides, such a navigation (not to [/]
    nor to a page for anonymous users) proceeds unchanged. *)
Theorem catchAll_unauthenticated_proceeds {S} (api : AuthStoreApi S) (s0 : S) (p : string) :
  matches_declared_route routes p = false ->
  p <> "/" -> anonymous_only_path p = false ->
  api_isAuthenticated api (out_state (beforeEach api (resolve routes p) s0)) = false ->
  to_requiresAuth (resolve routes p) = None
  /\ out_next (beforeEach api (resolve routes p) s0) = NextProceed.
Proof.
  intros Hnm Hroot Hanon Hauth.
  assert (Hmeta : to_requiresAuth (resolve routes p) = None).
  { unfold resolve.
    pose proof (find_catchAll_meta (route_records routes) p Hnm
                  route_records_catchAll_no_meta) as H.
    destruct (List.find _ _); exact H. }
  split; [exact Hmeta|].
  rewrite beforeEach_next, Hauth. unfold navigation_decision.
  rewrite Hmeta. cbn.
  assert (to_path (resolve routes p) = p) as ->
    by (unfold resolve; destruct (List.find _ _); reflexivity).
  destruct (String.eqb_spec p "/"); [contradiction | reflexivity].
Qed.

Lemma catchAll_unauthenticated_proceeds_witness :
  to_requiresAuth (resolve routes "/no-such-page") = None
  /\ out_next (beforeEach (spec_store_api 1000 (RefreshReplied true "t" 5000))
                 (resolve routes "/no-such-page") (mkStore empty_auth empty_auth []))
     = NextProceed.
Proof.
  apply (catchAll_unauthenticated_proceeds
           (spec_store_api 1000 (RefreshReplied true "t" 5000))
           (mkStore empty_auth empty_auth []) "/no-such-page").
  - vm_compute. reflexivity.
  - discriminate.
  - vm_compute. reflexivity.
  - vm_compute. reflexivity.
Defined.

(** ** HTTP client interceptors *)

Lemma on_rejected_exhausted (retry : RequestConfig -> NetM HttpResult) (err : HttpError) :
  retry_budget (err_config err) = 0%nat -> on_rejected retry err = ret (Rejected err).
Proof.
  unfold retry_budget, on_rejected, MAX_429_RETRIES, MAX_5XX_RETRIES.
  destruct (err_config err) as [u a r401 r429 r5xx]; cbn. intros H.
  destruct r401; [|lia].
  destruct r429 as [|r429]; [lia|]. destruct r5xx as [|[|r5xx]]; try lia.
  cbn. rewrite !andb_false_r. reflexivity.
Qed.

Lemma on_rejected_ext (r1 r2 : RequestConfig -> NetM HttpResult) (err : HttpError) :
  (forall c w, (retry_budget c < retry_budget (err_config err))%nat -> r1 c w = r2 c w) ->
  forall w, on_rejected r1 err w = on_rejected r2 err w.
Proof.
  intros Hext w. unfold on_rejected. cbv zeta.
  destruct ((err_status err =? 401) && negb (cfg_retried401 (err_config err)))%bool eqn:E401.
  - apply andb_true_iff in E401 as [_ Hr]. apply negb_true_iff in Hr.
    unfold bind. destruct (call_refresh w) as [[|] w1]; [|reflexivity].
    destruct (net_token w1); apply Hext; unfold retry_budget; cbn; rewrite Hr; lia.
  - destruct ((err_status err =? 429)
              && (cfg_retry429 (err_config err) <? MAX_429_RETRIES)%nat)%bool eqn:E429.
    + apply andb_true_iff in E429 as [_ Hr]. apply Nat.ltb_lt in Hr.
      unfold bind, net_emit. apply Hext. unfold retry_budget, MAX_429_RETRIES in *. cbn. lia.
    + destruct (is_5xx (err_status err)
                && (cfg_retry5xx (err_config err) <? MAX_5XX_RETRIES)%nat)%bool eqn:E5.
      * apply andb_true_iff in E5 as [_ Hr]. apply Nat.ltb_lt in Hr.
        unfold bind, net_emit. apply Hext. unfold retry_budget, MAX_5XX_RETRIES in *. cbn. lia.
      * reflexivity.
Qed.

Lemma attach_credential_budget (t : option string) (cfg : RequestConfig) :
  retry_budget (attach_credential t cfg) = retry_budget cfg.
Proof.
  unfold attach_credential. destruct (truthy_str t); [destruct t|]; reflexivity.
Qed.

(** The fuel of [request] is never what stops it: any fuel that covers the
    retry budget gives the same run. *)
Lemma request_fuel_irrelevant (f1 f2 : nat) (cfg : RequestConfig) (w : Net) :
  (retry_budget cfg <= f1)%nat -> (retry_budget cfg <= f2)%nat ->
  request f1 cfg w = request f2 cfg w.
Proof.
  revert f2 cfg w. induction f1 as [|f1 IH]; intros f2 cfg w H1 H2;
    destruct f2 as [|f2]; cbn; unfold bind; cbn;
    destruct (net_server w (net_dispatched w)) as [d|st ra]; try reflexivity.
  - rewrite on_rejected_exhausted; [reflexivity|]. cbn.
    rewrite attach_credential_budget. lia.
  - rewrite on_rejected_exhausted; [reflexivity|]. cbn.
    rewrite attach_credential_budget. lia.
  - apply on_rejected_ext. intros c w' Hc. cbn in Hc.
    rewrite attach_credential_budget in Hc. apply IH; lia.
Qed.

Lemma count_refresh_app (l1 l2 : list NetEvent) :
  count_refresh (l1 ++ l2) = (count_refresh l1 + count_refresh l2)%nat.
Proof. unfold count_refresh. rewrite List.filter_app, List.length_app. reflexivity. Qed.

Lemma attach_credential_retried401 (t : option string) (cfg : RequestConfig) :
  cfg_retried401 (attach_credential t cfg) = cfg_retried401 cfg.
Proof.
  unfold attach_credential. destruct (truthy_str t); [destruct t|]; reflexivity.
Qed.

(** A request that has already been retried after a 401 never calls the
    refresh operation again, whatever the server answers. *)
Lemma request_no_refresh (f : nat) :
  forall cfg w, cfg_retried401 cfg = true ->
  exists new, net_log (snd (request f cfg w)) = (new ++ net_log w)%list
              /\ count_refresh new = 0%nat.
Proof.
  induction f as [|f IH]; intros cfg w H;
    cbn [request]; unfold bind, dispatch; cbv zeta;
    destruct (net_server w (net_dispatched w)) as [d|st ra].
  - exists [NDispatch (attach_credential (net_token w) cfg)]. split; reflexivity.
  - exists [NDispatch (attach_credential (net_token w) cfg)]. split; reflexivity.
  - exists [NDispatch (attach_credential (net_token w) cfg)]. split; reflexivity.
  - set (cfg' := attach_credential (net_token w) cfg).
    assert (H' : cfg_retried401 cfg' = true)
      by (unfold cfg'; rewrite attach_credential_retried401; exact H).
    set (w1 := mkNet (net_token w) (net_server w) (S (net_dispatched w))
                     (net_refresh w) (net_refreshed w) (NDispatch cfg' :: net_log w)).
    unfold on_rejected. cbv zeta. cbn [err_config err_status err_retryAfter].
    rewrite H'. rewrite andb_false_r.
    destruct ((st =? 429) && (cfg_retry429 cfg' <? MAX_429_RETRIES)%nat)%bool.
    + unfold bind, net_emit.
      destruct (IH (with_retry429 cfg' (S (cfg_retry429 cfg')))
                   (mkNet (net_token w1) (net_server w1) (net_dispatched w1)
                          (net_refresh w1) (net_refreshed w1)
                          (NWait ra :: net_log w1)) H') as [new [Hlog Hc]].
      exists (new ++ [NWait ra; NDispatch cfg'])%list. split.
      * rewrite Hlog, <- app_assoc. reflexivity.
      * rewrite count_refresh_app, Hc. reflexivity.
    + destruct (is_5xx st && (cfg_retry5xx cfg' <? MAX_5XX_RETRIES)%nat)%bool.
      * unfold bind, net_emit.
        destruct (IH (with_retry5xx cfg' (S (cfg_retry5xx cfg')))
                     (mkNet (net_token w1) (net_server w1) (net_dispatched w1)
                            (net_refresh w1) (net_refreshed w1)
                            (NWait (2 ^ Z.of_nat (S (cfg_retry5xx cfg'))) :: net_log w1)) H')
          as [new [Hlog Hc]].
        exists (new ++ [NWait (2 ^ Z.of_nat (S (cfg_retry5xx cfg'))); NDispatch cfg'])%list.
        split.
        -- rewrite Hlog, <- app_assoc. reflexivity.
        -- rewrite count_refresh_app, Hc. reflexivity.
      * exists [NDispatch cfg']. split; reflexivity.
Qed.

(** C4: on a 401 for a request not yet retried after a 401, the
    interceptor calls the store's refresh; when it succeeds, the result
    is that of re-issuing the request (marked as retried, with the new
    bearer credential) through [apiClient.request], and the whole run
    calls refresh exactly once; when it fails, the interceptor logs out
    without notification, navigates to [/login] and rejects with the
    original error. *)
Theorem response_interceptor_401 (err : HttpError) (w : Net) :
  err_status err = 401 -> cfg_retried401 (err_config err) = false ->
  (forall t, net_refresh w (net_refreshed w) = RefreshOk t ->
     let w1 := snd (call_refresh w) in
     let cfg1 := with_authorization (with_retried401 (err_config err)) ("Bearer " ++ t) in
     response_interceptor err w = apiClient_request cfg1 w1
     /\ count_refresh (net_log (snd (response_interceptor err w)))
        = S (count_refresh (net_log w)))
  /\ ((forall t, net_refresh w (net_refreshed w) <> RefreshOk t) ->
      response_interceptor err w
      = (Rejected err,
         mkNet None (net_server w) (net_dispatched w) (net_refresh w)
               (S (net_refreshed w))
               (NNavigate "/login" :: NLogout false :: NRefresh :: net_log w))).
Proof.
  intros Hs Hr.
  assert (Hrun : response_interceptor err w
                 = (ok <- call_refresh ;;
                    if ok then
                      w' <- (fun w' => (w', w')) ;;
                      apiClient_request
                        (match net_token w' with
                         | Some t => with_authorization (with_retried401 (err_config err))
                                                        ("Bearer " ++ t)
                         | None => with_retried401 (err_config err)
                         end)
                    else net_logout ;;; net_emit (NNavigate "/login") ;;; ret (Rejected err)) w).
  { unfold response_interceptor, on_rejected. cbv zeta.
    replace ((err_status err =? 401) && negb (cfg_retried401 (err_config err)))%bool
      with true by (rewrite Hs, Hr; reflexivity).
    reflexivity. }
  split.
  - intros t Ht. cbv zeta.
    assert (Heq : response_interceptor err w
                  = apiClient_request (with_authorization (with_retried401 (err_config err))
                                                          ("Bearer " ++ t))
                                      (snd (call_refresh w))).
    { rewrite Hrun. unfold bind, call_refresh. rewrite Ht. reflexivity. }
    split; [exact Heq|].
    rewrite Heq. unfold apiClient_request.
    destruct (request_no_refresh
                (retry_budget (with_authorization (with_retried401 (err_config err))
                                                  ("Bearer " ++ t)))
                (with_authorization (with_retried401 (err_config err)) ("Bearer " ++ t))
                (snd (call_refresh w)) eq_refl) as [new [Hlog Hc]].
    rewrite Hlog, count_refresh_app, Hc.
    unfold call_refresh. rewrite Ht. reflexivity.
  - intros Hno. rewrite Hrun. unfold bind, call_refresh.
    destruct (net_refresh w (net_refreshed w)) as [t| |] eqn:Ht.
    + exfalso. exact (Hno t eq_refl).
    + reflexivity.
    + reflexivity.
Qed.

Lemma response_interceptor_401_witness :
  let err := mkHttpError 401 0 (mkConfig "/task/" (Some "Bearer old") false 0 0) in
  let w := mkNet (Some "old") (fun _ => HttpOk "success") 0 (fun _ => RefreshOk "new") 0 [] in
  response_interceptor err w
  = apiClient_request (with_authorization (with_retried401 (err_config err)) ("Bearer " ++ "new"))
                      (snd (call_refresh w))
  /\ count_refresh (net_log (snd (response_interceptor err w))) = 1%nat.
Proof.
  cbv zeta.
  exact (proj1 (response_interceptor_401
                  (mkHttpError 401 0 (mkConfig "/task/" (Some "Bearer old") false 0 0))
                  (mkNet (Some "old") (fun _ => HttpOk "success") 0 (fun _ => RefreshOk "new") 0 [])
                  eq_refl eq_refl) "new" eq_refl).
Defined.

(** C5: a 429 not yet retried waits [retry-after] seconds and re-issues
    once with its 429 counter at 1, a 429 already retried is rejected; a
    5xx with fewer than two retries waits [2^n] seconds ([n] the new
    count) and re-issues, a 5xx retried twice is rejected; any other
    status other than 401 is rejected at once. Each branch reads and
    bumps only its own counter, so the budgets are independent. *)
Theorem on_rejected_retry_policy (retry : RequestConfig -> NetM HttpResult) (err : HttpError) :
  let cfg := err_config err in
  (err_status err = 429 -> cfg_retry429 cfg = 0%nat ->
     on_rejected retry err
     = (net_emit (NWait (err_retryAfter err)) ;;; retry (with_retry429 cfg 1)))
  /\ (err_status err = 429 -> (1 <= cfg_retry429 cfg)%nat ->
        on_rejected retry err = ret (Rejected err))
  /\ (is_5xx (err_status err) = true -> (cfg_retry5xx cfg < 2)%nat ->
        on_rejected retry err
        = (net_emit (NWait (2 ^ Z.of_nat (S (cfg_retry5xx cfg)))) ;;;
           retry (with_retry5xx cfg (S (cfg_retry5xx cfg)))))
  /\ (is_5xx (err_status err) = true -> (2 <= cfg_retry5xx cfg)%nat ->
        on_rejected retry err = ret (Rejected err))
  /\ (err_status err <> 401 -> err_status err <> 429 -> is_5xx (err_status err) = false ->
        on_rejected retry err = ret (Rejected err))
  /\ (forall n, cfg_retried401 (with_retry429 cfg n) = cfg_retried401 cfg
                /\ cfg_retry5xx (with_retry429 cfg n) = cfg_retry5xx cfg
                /\ cfg_retried401 (with_retry5xx cfg n) = cfg_retried401 cfg
                /\ cfg_retry429 (with_retry5xx cfg n) = cfg_retry429 cfg
                /\ cfg_retry429 (with_retried401 cfg) = cfg_retry429 cfg
                /\ cfg_retry5xx (with_retried401 cfg) = cfg_retry5xx cfg).
Proof.
  cbv zeta. unfold on_rejected, MAX_429_RETRIES, MAX_5XX_RETRIES. cbv zeta.
  destruct (err_config err) as [u a r401 r429 r5xx]; cbn [cfg_retried401 cfg_retry429 cfg_retry5xx].
  assert (H5 : forall st, is_5xx st = true -> st <> 401 /\ st <> 429).
  { intros st Hst. unfold is_5xx in Hst.
    apply andb_true_iff in Hst as [Hlo _]. apply Z.leb_le in Hlo. lia. }
  split; [|split; [|split; [|split; [|split]]]].
  - intros Hs ->. rewrite Hs. reflexivity.
  - intros Hs Hle. rewrite Hs.
    replace (r429 <? 1)%nat with false by (symmetry; apply Nat.ltb_ge; exact Hle).
    destruct (is_5xx 429) eqn:E; [exfalso; apply (H5 429 E); reflexivity|].
    rewrite andb_false_r. cbn [andb negb Z.eqb]. reflexivity.
  - intros Hs Hlt. destruct (H5 _ Hs) as [N401 N429].
    apply Z.eqb_neq in N401, N429. rewrite N401, N429, Hs.
    replace (r5xx <? 2)%nat with true by (symmetry; apply Nat.ltb_lt; exact Hlt).
    reflexivity.
  - intros Hs Hle. destruct (H5 _ Hs) as [N401 N429].
    apply Z.eqb_neq in N401, N429. rewrite N401, N429, Hs.
    replace (r5xx <? 2)%nat with false by (symmetry; apply Nat.ltb_ge; exact Hle).
    reflexivity.
  - intros N401 N429 Hs.
    apply Z.eqb_neq in N401, N429. rewrite N401, N429, Hs. reflexivity.
  - intros n. repeat split.
Qed.

(** ** Strings *)

Lemma str_app_nil (b : string) : EmptyString ++ b = b.
Proof. reflexivity. Qed.

Lemma str_app_cons (x : ascii) (a b : string) : String x a ++ b = String x (a ++ b).
Proof. reflexivity. Qed.

Lemma str_app_assoc (a b c : string) : ((a ++ b) ++ c) = (a ++ (b ++ c)).
Proof.
  induction a as [|x a IH]; [reflexivity|].
  rewrite !str_app_cons, IH. reflexivity.
Qed.

(** Normalises appends whose left operand is a literal. *)
Ltac sapp := repeat (rewrite str_app_cons || rewrite str_app_nil).

Lemma str_length_app (a b : string) :
  String.length (a ++ b) = (String.length a + String.length b)%nat.
Proof. induction a as [|x a IH]; [reflexivity|]. rewrite str_app_cons. cbn. lia. Qed.

Lemma str_app_nil_r (a : string) : a ++ EmptyString = a.
Proof. induction a as [|x a IH]; [reflexivity|]. rewrite str_app_cons, IH. reflexivity. Qed.

Lemma join_cons2 (sep a b : string) (l : list string) :
  join sep (a :: b :: l) = a ++ sep ++ join sep (b :: l).
Proof. reflexivity. Qed.

Lemma join_head (sep a : string) (l : list string) : exists t, join sep (a :: l) = a ++ t.
Proof.
  destruct l as [|b l].
  - exists EmptyString. cbn. rewrite str_app_nil_r. reflexivity.
  - exists (sep ++ join sep (b :: l)). reflexivity.
Qed.

(** ** Persistent store adapter: proofs *)

Section StorageAdapterProofs.
Local Open Scope list_scope.

(** *** Strings: [JSON.parse] reads back what [QuoteJSONString] writes *)

Lemma hex_value_unit (d : Z) : 0 <= d < 16 -> hex_value (hex_unit d) = Some d.
Proof.
  intros Hd.
  assert (d = 0 \/ d = 1 \/ d = 2 \/ d = 3 \/ d = 4 \/ d = 5 \/ d = 6 \/ d = 7 \/ d = 8
          \/ d = 9 \/ d = 10 \/ d = 11 \/ d = 12 \/ d = 13 \/ d = 14 \/ d = 15) as H by lia.
  repeat (destruct H as [->|H]; [reflexivity|]). subst. reflexivity.
Qed.

Lemma parse_unicode_escape (u : Z) (t : jsstring) :
  0 <= u < 65536 ->
  parse_str_body (unicode_escape u ++ t)
  = match parse_str_body t with Some (w, rest) => Some (u :: w, rest) | None => None end.
Proof.
  intros Hu. unfold unicode_escape. cbn [app parse_str_body Z.eqb Pos.eqb].
  rewrite !hex_value_unit by (split; [apply Z.div_pos || apply Z.mod_pos_bound || idtac|];
                              Z.div_mod_to_equations; lia).
  replace (((u / 4096 * 16 + u / 256 mod 16) * 16 + u / 16 mod 16) * 16 + u mod 16) with u
    by (Z.div_mod_to_equations; lia).
  reflexivity.
Qed.

Lemma parse_literal_unit (u : Z) (t : jsstring) :
  32 <= u -> u <> 34 -> u <> 92 ->
  parse_str_body (u :: t)
  = match parse_str_body t with Some (w, rest) => Some (u :: w, rest) | None => None end.
Proof.
  intros H1 H2 H3. cbn [parse_str_body].
  rewrite (proj2 (Z.eqb_neq u 34) H2), (proj2 (Z.eqb_neq u 92) H3).
  replace (u <? 32) with false by lia. reflexivity.
Qed.

Lemma parse_escape_unit (u : Z) (t : jsstring) :
  0 <= u < 65536 ->
  parse_str_body (escape_unit u ++ t)
  = match parse_str_body t with Some (w, rest) => Some (u :: w, rest) | None => None end.
Proof.
  intros Hu. unfold escape_unit.
  destruct (Z.eqb_spec u 8) as [->|N8]; [reflexivity|].
  destruct (Z.eqb_spec u 9) as [->|N9]; [reflexivity|].
  destruct (Z.eqb_spec u 10) as [->|N10]; [reflexivity|].
  destruct (Z.eqb_spec u 12) as [->|N12]; [reflexivity|].
  destruct (Z.eqb_spec u 13) as [->|N13]; [reflexivity|].
  destruct (Z.eqb_spec u 34) as [->|N34]; [reflexivity|].
  destruct (Z.eqb_spec u 92) as [->|N92]; [reflexivity|].
  destruct (Z.ltb_spec u 32).
  - apply parse_unicode_escape. exact Hu.
  - apply parse_literal_unit; assumption.
Qed.

Lemma parse_escape_units (s rest : jsstring) :
  units_ok s = true -> parse_str_body (escape_units s ++ 34 :: rest) = Some (s, rest).
Proof.
  remember (length s) as n eqn:Hn. assert (Hle : (length s <= n)%nat) by lia. clear Hn.
  revert s Hle. induction n as [|n IH]; intros s Hle Hok.
  { destruct s; [reflexivity | cbn in Hle; lia]. }
  destruct s as [|u r]; [reflexivity|].
  cbn [units_ok forallb] in Hok. fold (units_ok r) in Hok.
  apply andb_true_iff in Hok as [Hu Hr].
  assert (Hu' : 0 <= u < 65536) by lia.
  cbn [length] in Hle. cbn [escape_units].
  destruct (is_high_surrogate u) eqn:Eh.
  - destruct r as [|v r'].
    + rewrite parse_unicode_escape by exact Hu'. reflexivity.
    + destruct (is_low_surrogate v) eqn:El.
      * cbn [units_ok forallb] in Hr. fold (units_ok r') in Hr.
        apply andb_true_iff in Hr as [Hv Hr'].
        unfold is_high_surrogate, is_low_surrogate in *.
        cbn [app]. rewrite parse_literal_unit by lia. rewrite parse_literal_unit by lia.
        cbn [length] in Hle. rewrite IH by (auto; lia). reflexivity.
      * rewrite <- app_assoc, parse_unicode_escape by exact Hu'.
        rewrite IH by (auto; lia). reflexivity.
  - destruct (is_low_surrogate u).
    + rewrite <- app_assoc, parse_unicode_escape by exact Hu'.
      rewrite IH by (auto; lia). reflexivity.
    + rewrite <- app_assoc, parse_escape_unit by exact Hu'.
      rewrite IH by (auto; lia). reflexivity.
Qed.

(** *** Numbers: rounding an exact binary64 value gives it back *)

Lemma digits2_pos_log2 (p : positive) : Zpos (digits2_pos p) = Z.log2 (Zpos p) + 1.
Proof.
  induction p as [p IH|p IH|]; [| |reflexivity]; cbn [digits2_pos];
    rewrite Pos2Z.inj_succ, IH.
  - change (Zpos p~1) with (2 * Zpos p + 1). rewrite Z.log2_succ_double by lia. lia.
  - change (Zpos p~0) with (2 * Zpos p). rewrite Z.log2_double by lia. lia.
Qed.

Lemma binary64_valid_finite (b : bool) (m : positive) (e : Z) :
  binary64_valid (S754_finite b m e) = true ->
  -1074 <= e <= 971 /\ Zpos m < 2 ^ 53 /\ (2 ^ 52 <= Zpos m \/ e = -1074).
Proof.
  unfold binary64_valid, valid_binary, bounded, canonical_mantissa, fexp, emin.
  rewrite digits2_pos_log2. intros [H1 H2]%andb_true_iff.
  apply Z.eqb_eq in H1. apply Z.leb_le in H2.
  pose proof (Z.log2_spec (Zpos m) ltac:(lia)) as [Hl Hu].
  pose proof (Z.log2_nonneg (Zpos m)).
  assert (Hc : Z.log2 (Zpos m) + 1 + e - 53 = e /\ -1074 <= e \/
               e = -1074 /\ Z.log2 (Zpos m) + 1 + e - 53 <= -1074) by lia.
  split; [lia|]. destruct Hc as [[Hc _]|[-> Hc]].
  - assert (Z.log2 (Zpos m) = 52) as Hm by lia. rewrite Hm in Hl, Hu.
    split; [exact Hu | left; exact Hl].
  - split; [|right; reflexivity].
    eapply Z.lt_le_trans; [exact Hu|]. apply Z.pow_le_mono_r; lia.
Qed.

Lemma scale_pos (num den e : Z) :
  0 < num -> 0 < den -> 0 < fst (scale num den e) /\ 0 < snd (scale num den e).
Proof.
  intros Hn Hd. unfold scale. destruct (Z.leb_spec 0 e); cbn [fst snd].
  - split; [exact Hn|]. apply Z.mul_pos_pos; [exact Hd | apply Z.pow_pos_nonneg; lia].
  - split; [|exact Hd]. apply Z.mul_pos_pos; [exact Hn | apply Z.pow_pos_nonneg; lia].
Qed.

Lemma scale_cross (num den e1 e2 : Z) :
  e1 <= e2 ->
  fst (scale num den e1) * snd (scale num den e2)
  = fst (scale num den e2) * snd (scale num den e1) * 2 ^ (e2 - e1).
Proof.
  intros He. unfold scale.
  destruct (Z.leb_spec 0 e1), (Z.leb_spec 0 e2); cbn [fst snd]; try lia.
  - replace e2 with (e1 + (e2 - e1)) at 1 by lia. rewrite Z.pow_add_r by lia. ring.
  - replace (e2 - e1) with (e2 + - e1) by lia. rewrite Z.pow_add_r by lia. ring.
  - replace (- e1) with (- e2 + (e2 - e1)) by lia. rewrite Z.pow_add_r by lia. ring.
Qed.

(** Above a binade the scaled value is at least twice as large. *)
Lemma scale_lt_contra (num den e e' : Z) :
  0 < num -> 0 < den -> e < e' ->
  2 ^ 52 * snd (scale num den e') <= fst (scale num den e') ->
  fst (scale num den e) < 2 ^ 53 * snd (scale num den e) -> False.
Proof.
  intros Hn Hd Hlt H3 H2.
  pose proof (scale_cross num den e e' ltac:(lia)) as Hc.
  pose proof (scale_pos num den e Hn Hd) as [Pa Pb].
  pose proof (scale_pos num den e' Hn Hd) as [Pa' Pb'].
  assert (Hp : 2 <= 2 ^ (e' - e)).
  { replace 2 with (2 ^ 1) at 1 by reflexivity. apply Z.pow_le_mono_r; lia. }
  set (a := fst (scale num den e)) in *. set (b := snd (scale num den e)) in *.
  set (a' := fst (scale num den e')) in *. set (b' := snd (scale num den e')) in *.
  set (P := 2 ^ (e' - e)) in *.
  change (2 ^ 53) with (2 * 2 ^ 52) in *.
  assert (S1 : 2 ^ 52 * b' * (b * P) <= a' * (b * P))
    by (apply Z.mul_le_mono_nonneg_r; lia).
  assert (S2 : 2 ^ 52 * b' * b * 2 <= 2 ^ 52 * b' * (b * P)).
  { rewrite (Z.mul_assoc _ b P), <- !(Z.mul_assoc (2 ^ 52 * b')).
    apply Z.mul_le_mono_nonneg_l; [lia|].
    apply Z.mul_le_mono_nonneg_l; lia. }
  assert (S3 : a * b' < 2 * 2 ^ 52 * b * b')
    by (apply Z.mul_lt_mono_pos_r; lia).
  assert (S4 : a * b' = a' * (b * P)) by (rewrite Hc; ring).
  lia.
Qed.

Lemma binade_unique (num den e1 e2 : Z) :
  0 < num -> 0 < den -> in_binade num den e1 -> in_binade num den e2 -> e1 = e2.
Proof.
  intros Hn Hd [H1 H2] [H3 H4].
  destruct (Z.lt_trichotomy e1 e2) as [Hl|[Hl|Hl]]; [|exact Hl|]; exfalso.
  - exact (scale_lt_contra num den e1 e2 Hn Hd Hl H3 H2).
  - exact (scale_lt_contra num den e2 e1 Hn Hd Hl H1 H4).
Qed.

Lemma div_ge_iff (k a b : Z) : 0 < b -> (k <= a / b <-> k * b <= a).
Proof.
  intros Hb. split.
  - intros H. pose proof (Z.mul_div_le a b Hb). nia.
  - intros H. apply Z.div_le_lower_bound; lia.
Qed.

(** At [g = log2 num - log2 den - 52] the scaled value lies in [2^51, 2^53). *)
Lemma scale_at_guess (num den : Z) :
  0 < num -> 0 < den ->
  let g := Z.log2 num - Z.log2 den - 52 in
  2 ^ 51 * snd (scale num den g) <= fst (scale num den g) < 2 ^ 53 * snd (scale num den g).
Proof.
  intros Hn Hd g.
  pose proof (Z.log2_spec num Hn) as [Ln Un].
  pose proof (Z.log2_spec den Hd) as [Ld Ud].
  pose proof (Z.log2_nonneg num). pose proof (Z.log2_nonneg den).
  set (ln := Z.log2 num) in *. set (ld := Z.log2 den) in *.
  rewrite Z.pow_succ_r in Un, Ud by lia.
  unfold scale. destruct (Z.leb_spec 0 g) as [Hg|Hg]; cbn [fst snd].
  - assert (E1 : 2 ^ ln = 2 ^ 51 * 2 ^ 1 * 2 ^ ld * 2 ^ g).
    { rewrite <- !Z.pow_add_r by lia. f_equal. unfold g. lia. }
    assert (E2 : 2 ^ 1 * 2 ^ ln = 2 ^ 53 * 2 ^ ld * 2 ^ g).
    { rewrite <- !Z.pow_add_r by lia. f_equal. unfold g. lia. }
    change (2 ^ 1) with 2 in E1, E2.
    assert (0 < 2 ^ g) by (apply Z.pow_pos_nonneg; lia).
    split; nia.
  - assert (E1 : 2 ^ ln * 2 ^ (- g) = 2 ^ 51 * 2 ^ 1 * 2 ^ ld).
    { rewrite <- !Z.pow_add_r by lia. f_equal. unfold g. lia. }
    assert (E2 : 2 ^ 1 * 2 ^ ln * 2 ^ (- g) = 2 ^ 53 * 2 ^ ld).
    { rewrite <- !Z.pow_add_r by lia. f_equal. unfold g. lia. }
    change (2 ^ 1) with 2 in E1, E2.
    assert (0 < 2 ^ (- g)) by (apply Z.pow_pos_nonneg; lia).
    split; nia.
Qed.

Lemma binade_spec (num den : Z) :
  0 < num -> 0 < den -> in_binade num den (binade num den).
Proof.
  intros Hn Hd. pose proof (scale_at_guess num den Hn Hd) as Hg. cbv zeta in Hg.
  unfold binade. set (g := Z.log2 num - Z.log2 den - 52) in *.
  pose proof (scale_pos num den g Hn Hd) as [Pa Pb].
  destruct (scale num den g) as [a b] eqn:Hs. cbn [fst snd] in *.
  destruct (Z.leb_spec (2 ^ 52) (a / b)) as [Hle|Hlt].
  - unfold in_binade. rewrite Hs. cbn [fst snd].
    apply (div_ge_iff _ _ _ Pb) in Hle. lia.
  - assert (Hlt' : a < 2 ^ 52 * b).
    { destruct (Z.lt_ge_cases a (2 ^ 52 * b)) as [H|H]; [exact H|].
      exfalso. apply (proj2 (div_ge_iff _ _ _ Pb)) in H. lia. }
    pose proof (scale_cross num den (g - 1) g ltac:(lia)) as Hc.
    rewrite Hs in Hc. cbn [fst snd] in Hc. replace (g - (g - 1)) with 1 in Hc by lia.
    pose proof (scale_pos num den (g - 1) Hn Hd) as [Pa1 Pb1].
    unfold in_binade.
    set (a1 := fst (scale num den (g - 1))) in *. set (b1 := snd (scale num den (g - 1))) in *.
    change (2 ^ 1) with 2 in Hc.
    split.
    + apply (Z.mul_le_mono_pos_r _ _ b Pb). nia.
    + apply (Z.mul_lt_mono_pos_r b _ _ Pb). nia.
Qed.

(** A value [num / den] that is exactly a valid binary64 [m * 2^e] rounds
    to itself. *)
Lemma round_exact (neg : bool) (num den : Z) (m : positive) (e : Z) :
  0 < num -> 0 < den -> binary64_valid (S754_finite neg m e) = true ->
  fst (scale num den e) = Zpos m * snd (scale num den e) ->
  round_binary64 neg num den = S754_finite neg m e.
Proof.
  intros Hn Hd Hv Hx. apply binary64_valid_finite in Hv as (He & Hm & Hn52).
  pose proof (scale_pos num den e Hn Hd) as [Pa Pb].
  assert (Hmax : Z.max (binade num den) (-1074) = e).
  { pose proof (binade_spec num den Hn Hd) as Hb.
    destruct Hn52 as [Hn52|He'].
    - assert (Hi : in_binade num den e) by (unfold in_binade; rewrite Hx; nia).
      rewrite (binade_unique num den _ _ Hn Hd Hb Hi). lia.
    - subst e. destruct (Z.le_gt_cases (binade num den) (-1074)) as [Hl|Hl]; [lia|].
      exfalso. destruct Hb as [Hb1 _].
      apply (scale_lt_contra num den (-1074) (binade num den) Hn Hd Hl Hb1).
      rewrite Hx. nia. }
  unfold round_binary64. rewrite Hmax.
  destruct (scale num den e) as [a b] eqn:Hs. cbn [fst snd] in *. subst a.
  rewrite Z.div_mul, Z_mod_mult by lia.
  replace (b <? 2 * 0) with false by lia. replace (2 * 0 =? b) with false by lia. cbn [orb andb].
  replace (Zpos m =? 2 ^ 53) with false by lia.
  replace (Zpos m =? 0) with false by lia. replace (971 <? e) with false by lia.
  reflexivity.
Qed.

Lemma number_value_exact (neg : bool) (q : Q) (m : positive) (e : Z) :
  binary64_valid (S754_finite neg m e) = true -> Qeq q (Q_of_float m e) ->
  number_value neg q = S754_finite neg m e.
Proof.
  intros Hv Hq. unfold number_value.
  pose proof (Qred_correct q) as Hr.
  assert (Hr' : Qeq (Qred q) (Q_of_float m e)) by (rewrite Hr; exact Hq).
  destruct (Qred q) as [n d]. cbn [Qnum Qden]. unfold Qeq in Hr'. cbn [Qnum Qden] in Hr'.
  unfold Q_of_float, inject_Z in Hr'.
  assert (Hs : fst (scale n (Zpos d) e) = Zpos m * snd (scale n (Zpos d) e) /\ 0 < n).
  { unfold scale. destruct (Z.leb_spec 0 e) as [He|He]; cbn [fst snd Qnum Qden] in Hr' |- *.
    - assert (0 < 2 ^ e) by (apply Z.pow_pos_nonneg; lia). split; nia.
    - assert (0 < 2 ^ (- e)) by (apply Z.pow_pos_nonneg; lia).
      rewrite Z2Pos.id in Hr' by lia. split; nia. }
  destruct Hs as [Hs Hn].
  replace (n =? 0) with false by lia.
  apply round_exact; [exact Hn | lia | exact Hv | exact Hs].
Qed.

Lemma number_value_sign (neg : bool) (q : Q) :
  number_value neg q = with_sign neg (number_value false q).
Proof.
  unfold number_value. destruct (Qnum (Qred q) =? 0); [reflexivity|].
  unfold round_binary64.
  destruct (scale _ _ _) as [a b].
  destruct (if _ =? 2 ^ 53 then _ else _) as [m' e'].
  destruct (m' =? 0); [reflexivity|]. destruct (971 <? e'); reflexivity.
Qed.

Lemma number_value_proper (neg : bool) (q q' : Q) :
  Qeq q q' -> number_value neg q = number_value neg q'.
Proof. intros H. unfold number_value. rewrite (Qred_complete q q' H). reflexivity. Qed.

(** *** Numbers: decimal digits *)

Lemma digits_value_fold (ds : list Z) (a : Z) :
  fold_left (fun acc d => acc * 10 + d) ds a
  = a * 10 ^ Z.of_nat (length ds) + digits_value ds.
Proof.
  unfold digits_value. revert a. induction ds as [|d ds IH]; intros a.
  - cbn. lia.
  - cbn [fold_left length]. rewrite (IH (a * 10 + d)), (IH (0 * 10 + d)).
    rewrite Nat2Z.inj_succ, Z.pow_succ_r by lia. ring.
Qed.

Lemma digits_value_cons (d : Z) (ds : list Z) :
  digits_value (d :: ds) = d * 10 ^ Z.of_nat (length ds) + digits_value ds.
Proof. unfold digits_value at 1. cbn [fold_left]. rewrite digits_value_fold. ring. Qed.

Lemma digits_value_app (xs ys : list Z) :
  digits_value (xs ++ ys) = digits_value xs * 10 ^ Z.of_nat (length ys) + digits_value ys.
Proof. unfold digits_value at 1. rewrite fold_left_app, digits_value_fold. reflexivity. Qed.

Lemma digits_value_zeros (j : nat) : digits_value (repeat 0 j) = 0.
Proof. induction j as [|j IH]; [reflexivity|]. cbn [repeat]. rewrite digits_value_cons, IH. lia. Qed.

Lemma digits_value_bound (ds : list Z) :
  Forall (fun d => 0 <= d <= 9) ds -> 0 <= digits_value ds < 10 ^ Z.of_nat (length ds).
Proof.
  induction 1 as [|d ds Hd Hds IH]; [cbn; lia|].
  rewrite digits_value_cons. cbn [length]. rewrite Nat2Z.inj_succ, Z.pow_succ_r by lia.
  assert (0 < 10 ^ Z.of_nat (length ds)) by (apply Z.pow_pos_nonneg; lia). nia.
Qed.

Lemma digits_fuel_spec (f : nat) (n : Z) (acc : list Z) :
  0 <= n < 10 ^ (Z.of_nat f + 1) ->
  exists d ds, digits_fuel f n acc = d :: ds ++ acc /\ 0 <= d <= 9 /\ (0 < n -> 0 < d)
    /\ Forall (fun x => 0 <= x <= 9) ds /\ digits_value (d :: ds) = n.
Proof.
  revert n acc. induction f as [|f IH]; intros n acc Hn.
  - exists n, []. cbn in Hn |- *. repeat split; try lia. constructor.
  - cbn [digits_fuel]. destruct (Z.ltb_spec n 10) as [Hl|Hl].
    + exists n, []. repeat split; try lia. constructor.
    + destruct (IH (n / 10) (n mod 10 :: acc)) as (d & ds & E & Hd & Hp & Hf & Hv).
      { split; [apply Z.div_pos; lia|]. apply Z.div_lt_upper_bound; [lia|].
        rewrite <- Z.pow_succ_r by lia. rewrite Nat2Z.inj_succ in Hn.
        replace (Z.succ (Z.of_nat f + 1)) with (Z.succ (Z.of_nat f) + 1) by lia. lia. }
      exists d, (ds ++ [n mod 10]). rewrite E, <- app_assoc. split; [reflexivity|].
      split; [exact Hd|]. split; [intros _; apply Hp; apply Z.div_str_pos; lia|].
      split; [apply Forall_app; split; [exact Hf | constructor; [|constructor]]; 
              pose proof (Z.mod_pos_bound n 10); lia|].
      change (d :: ds ++ [n mod 10]) with ((d :: ds) ++ [n mod 10]).
      rewrite digits_value_app, Hv. cbn. pose proof (Z.div_mod n 10). lia.
Qed.

Lemma dec_digits_spec (n : Z) :
  0 <= n ->
  exists d ds, dec_digits n = d :: ds /\ 0 <= d <= 9 /\ (0 < n -> 0 < d)
    /\ Forall (fun x => 0 <= x <= 9) ds /\ digits_value (d :: ds) = n.
Proof.
  intros Hn. unfold dec_digits.
  destruct (digits_fuel_spec (Z.to_nat (Z.log2 n + 1)) n []) as (d & ds & E & R).
  - split; [exact Hn|]. pose proof (Z.log2_nonneg n).
    rewrite Z2Nat.id by lia.
    destruct (Z.eq_dec n 0) as [->|Hz]; [apply Z.pow_pos_nonneg; lia|].
    pose proof (Z.log2_spec n ltac:(lia)) as [_ Hu].
    eapply Z.lt_le_trans; [exact Hu|].
    eapply Z.le_trans; [apply (Z.pow_le_mono_l 2 10); lia|].
    apply Z.pow_le_mono_r; lia.
  - exists d, ds. rewrite E, app_nil_r. split; [reflexivity | exact R].
Qed.

(** [s] has [k] digits. *)
Lemma dec_digits_length (s k : Z) :
  1 <= k -> 10 ^ (k - 1) <= s < 10 ^ k -> Z.of_nat (length (dec_digits s)) = k.
Proof.
  intros Hk Hs. assert (0 < 10 ^ (k - 1)) by (apply Z.pow_pos_nonneg; lia).
  destruct (dec_digits_spec s ltac:(lia)) as (d & ds & E & Hd & Hp & Hf & Hv).
  rewrite E. cbn [length]. rewrite Nat2Z.inj_succ.
  pose proof (digits_value_bound ds Hf) as Hb.
  rewrite digits_value_cons in Hv. specialize (Hp ltac:(lia)).
  set (L := Z.of_nat (length ds)) in *.
  assert (0 <= L) by lia.
  assert (HL1 : 10 ^ L <= s) by nia.
  assert (HL2 : s < 10 ^ (L + 1)) by (rewrite Z.pow_add_r by lia; nia).
  destruct (Z.lt_trichotomy L (k - 1)) as [Hl|[Hl|Hl]]; [| lia |].
  - assert (10 ^ (L + 1) <= 10 ^ (k - 1)) by (apply Z.pow_le_mono_r; lia). lia.
  - assert (10 ^ k <= 10 ^ L) by (apply Z.pow_le_mono_r; lia). lia.
Qed.

Lemma take_digits_units (ds : list Z) (rest : jsstring) :
  Forall (fun d => 0 <= d <= 9) ds -> digit_free_head rest ->
  take_digits (map digit_unit ds ++ rest) = (ds, rest).
Proof.
  intros Hf Hr. induction Hf as [|d ds Hd Hf IH].
  - destruct rest as [|u r]; [reflexivity|]. cbn in Hr |- *. rewrite Hr. reflexivity.
  - cbn [map app take_digits]. unfold digit_unit at 1.
    replace (is_digit_unit (48 + d)) with true
      by (unfold is_digit_unit; symmetry; apply andb_true_iff; split; apply Z.leb_le; lia).
    rewrite IH. unfold digit_unit. replace (48 + d - 48) with d by lia. reflexivity.
Qed.

Lemma repeat_48 (j : nat) : repeat 48 j = map digit_unit (repeat 0 j).
Proof. induction j as [|j IH]; [reflexivity|]. cbn. rewrite IH. reflexivity. Qed.

(** *** Numbers: [JSON.parse] reads back what [Number::toString] writes *)

Lemma Forall_firstn_Z (P : Z -> Prop) (j : nat) (l : list Z) :
  Forall P l -> Forall P (firstn j l).
Proof. revert l. induction j as [|j IH]; intros [|x l] H; cbn; try constructor;
  inversion H; subst; auto. Qed.

Lemma Forall_skipn_Z (P : Z -> Prop) (j : nat) (l : list Z) :
  Forall P l -> Forall P (skipn j l).
Proof. revert l. induction j as [|j IH]; intros [|x l] H; cbn; auto. inversion H; auto. Qed.

Lemma Forall_zeros (j : nat) : Forall (fun x => 0 <= x <= 9) (repeat 0 j).
Proof. induction j as [|j IH]; cbn; constructor; [lia | exact IH]. Qed.

Lemma number_end_cons (u : Z) (r : jsstring) :
  number_end (u :: r) = true ->
  is_digit_unit u = false /\ u <> 46 /\ u <> 101 /\ u <> 69.
Proof.
  cbn. intros H. apply negb_true_iff in H. rewrite !orb_false_iff in H.
  destruct H as (((H1 & H2) & H3) & H4). apply Z.eqb_neq in H2, H3, H4. tauto.
Qed.

Lemma number_end_free (r : jsstring) : number_end r = true -> digit_free_head r.
Proof. intros H. destruct r as [|u r]; [exact I|]. apply number_end_cons in H. apply H. Qed.

Lemma parse_int_part_digits (d : Z) (ds : list Z) (rest : jsstring) :
  1 <= d <= 9 -> Forall (fun x => 0 <= x <= 9) ds -> digit_free_head rest ->
  parse_int_part (map digit_unit (d :: ds) ++ rest) = Some (d :: ds, rest).
Proof.
  intros Hd Hf Hr. cbn [map app parse_int_part].
  rewrite take_digits_units by assumption. unfold digit_unit.
  replace (48 + d =? 48) with false by lia.
  replace (is_digit_unit (48 + d)) with true
    by (unfold is_digit_unit; symmetry; apply andb_true_iff; split; apply Z.leb_le; lia).
  replace (48 + d - 48) with d by lia. reflexivity.
Qed.

Lemma parse_frac_absent (rest : jsstring) :
  number_end rest = true -> parse_frac rest = Some ([], rest).
Proof.
  destruct rest as [|u r]; [reflexivity|]. intros H. apply number_end_cons in H.
  cbn. replace (u =? 46) with false by lia. reflexivity.
Qed.

Lemma parse_frac_digits (ds : list Z) (rest : jsstring) :
  ds <> [] -> Forall (fun x => 0 <= x <= 9) ds -> digit_free_head rest ->
  parse_frac (46 :: map digit_unit ds ++ rest) = Some (ds, rest).
Proof.
  intros Hn Hf Hr. cbn [parse_frac Z.eqb Pos.eqb].
  rewrite take_digits_units by assumption. destruct ds; [contradiction | reflexivity].
Qed.

Lemma parse_exp_absent (rest : jsstring) :
  number_end rest = true -> parse_exp rest = Some (0, rest).
Proof.
  destruct rest as [|u r]; [reflexivity|]. intros H. apply number_end_cons in H.
  cbn. replace ((u =? 101) || (u =? 69)) with false by lia. reflexivity.
Qed.

Lemma parse_exp_digits (j : Z) (rest : jsstring) :
  digit_free_head rest ->
  parse_exp (101 :: (if 0 <=? j then 43 else 45) :: map digit_unit (dec_digits (Z.abs j)) ++ rest)
  = Some (j, rest).
Proof.
  intros Hr. destruct (dec_digits_spec (Z.abs j) ltac:(lia)) as (d & ds & E & Hd & _ & Hf & Hv).
  rewrite E.
  assert (Ht : take_digits (map digit_unit (d :: ds) ++ rest) = (d :: ds, rest))
    by (apply take_digits_units; [constructor; assumption | exact Hr]).
  destruct (Z.leb_spec 0 j); cbn [parse_exp Z.eqb Pos.eqb orb]; cbn [Z.eqb Pos.eqb];
    rewrite Ht; rewrite Hv; f_equal; f_equal; lia.
Qed.

Lemma parse_number_parts (neg : bool) (s1 s2 s3 s4 : jsstring) (ids fds : list Z) (ex : Z) :
  parse_int_part s1 = Some (ids, s2) -> parse_frac s2 = Some (fds, s3) ->
  parse_exp s3 = Some (ex, s4) ->
  parse_number ((if neg then [45] else []) ++ s1)
  = Some (number_value neg (decimal_Q (digits_value (ids ++ fds))
                                      (ex - Z.of_nat (length fds))), s4).
Proof.
  intros H1 H2 H3. unfold parse_number. destruct neg.
  - cbn [app Z.eqb Pos.eqb]. rewrite H1, H2, H3. reflexivity.
  - cbn [app]. destruct s1 as [|u r]; [discriminate H1|].
    destruct (Z.eqb_spec u 45) as [->|Hu]; [discriminate H1|].
    rewrite H1, H2, H3. reflexivity.
Qed.

Ltac zbool H :=
  rewrite ?andb_true_iff, ?andb_false_iff, ?Z.leb_le, ?Z.leb_gt, ?Z.ltb_lt, ?Z.ltb_ge,
    ?Z.eqb_eq, ?Z.eqb_neq in H.

(** The literal [Number::toString] writes for [s * 10^(n - k)], [s] of [k]
    digits, parses back to the Number value of that decimal. *)
Lemma format_decimal_parse (neg : bool) (s n : Z) (rest : jsstring) :
  0 < s -> number_end rest = true ->
  parse_number ((if neg then [45] else []) ++ format_decimal (dec_digits s) n ++ rest)
  = Some (number_value neg (decimal_Q s (n - Z.of_nat (length (dec_digits s)))), rest).
Proof.
  intros Hs Hr. pose proof (number_end_free rest Hr) as Hr'.
  destruct (dec_digits_spec s ltac:(lia)) as (d & ds & E & Hd & Hp & Hf & Hv).
  specialize (Hp Hs). rewrite E. unfold format_decimal. cbv zeta.
  set (K := Z.of_nat (length (d :: ds))).
  assert (HK : K = 1 + Z.of_nat (length ds)) by (unfold K; cbn [length]; lia).
  destruct ((K <=? n) && (n <=? 21)) eqn:CA.
  { (* integer with trailing zeros *)
    zbool CA. rewrite repeat_48, <- app_assoc.
    replace (map digit_unit (d :: ds) ++ map digit_unit (repeat 0 (Z.to_nat (n - K))) ++ rest)
      with (map digit_unit (d :: ds ++ repeat 0 (Z.to_nat (n - K))) ++ rest)
      by (rewrite app_assoc, <- map_app; reflexivity).
    rewrite (parse_number_parts neg _ rest rest rest (d :: ds ++ repeat 0 (Z.to_nat (n - K))) [] 0).
    2: { apply parse_int_part_digits; [lia | | exact Hr'].
         apply Forall_app; split; [exact Hf | apply Forall_zeros]. }
    2: exact (parse_frac_absent rest Hr).
    2: exact (parse_exp_absent rest Hr).
    f_equal. f_equal. f_equal. rewrite app_nil_r.
    change (d :: ds ++ repeat 0 (Z.to_nat (n - K))) with ((d :: ds) ++ repeat 0 (Z.to_nat (n - K))).
    rewrite digits_value_app, digits_value_zeros, repeat_length, Z2Nat.id, Hv by lia.
    unfold decimal_Q. cbn [length Z.of_nat]. rewrite Z.sub_0_r.
    replace (0 <=? 0) with true by reflexivity. replace (0 <=? n - K) with true by lia.
    f_equal. rewrite Z.pow_0_r. ring. }
  destruct ((0 <? n) && (n <=? 21)) eqn:CB.
  { (* a point inside the digits *)
    zbool CA. zbool CB. assert (HnK : n < K) by lia.
    rewrite firstn_map, skipn_map.
    destruct (Z.to_nat n) as [|j] eqn:Hj; [lia|].
    cbn [firstn skipn]. rewrite <- !app_assoc. cbn [app].
    assert (Hjl : (j < length ds)%nat) by lia.
    rewrite (parse_number_parts neg _ (46 :: map digit_unit (skipn j ds) ++ rest) rest rest
               (d :: firstn j ds) (skipn j ds) 0).
    2: { change (map digit_unit (d :: firstn j ds) ++ 46 :: map digit_unit (skipn j ds) ++ rest)
           with (map digit_unit (d :: firstn j ds) ++ 46 :: map digit_unit (skipn j ds) ++ rest).
         apply parse_int_part_digits; [lia | apply Forall_firstn_Z; exact Hf | reflexivity]. }
    2: { apply parse_frac_digits; [| apply Forall_skipn_Z; exact Hf | exact Hr'].
         intros Hn. apply (f_equal (@length Z)) in Hn. rewrite length_skipn in Hn. cbn in Hn. lia. }
    2: exact (parse_exp_absent rest Hr).
    f_equal. f_equal. f_equal. f_equal.
    - change ((d :: firstn j ds) ++ skipn j ds) with (d :: (firstn j ds ++ skipn j ds)).
      rewrite firstn_skipn. exact Hv.
    - rewrite length_skipn. lia. }
  destruct ((-6 <? n) && (n <=? 0)) eqn:CC.
  { (* [0.] and zeros before the digits *)
    zbool CC. rewrite repeat_48, <- !app_assoc. cbn [app].
    replace (map digit_unit (repeat 0 (Z.to_nat (- n))) ++ map digit_unit (d :: ds) ++ rest)
      with (map digit_unit (repeat 0 (Z.to_nat (- n)) ++ d :: ds) ++ rest)
      by (rewrite map_app, app_assoc; reflexivity).
    rewrite (parse_number_parts neg _ (46 :: map digit_unit (repeat 0 (Z.to_nat (- n)) ++ d :: ds) ++ rest)
               rest rest [0] (repeat 0 (Z.to_nat (- n)) ++ d :: ds) 0).
    2: reflexivity.
    2: { apply parse_frac_digits; [| | exact Hr'].
         - destruct (Z.to_nat (- n)); discriminate.
         - apply Forall_app; split; [apply Forall_zeros | constructor; [lia | exact Hf]]. }
    2: exact (parse_exp_absent rest Hr).
    f_equal. f_equal. f_equal. f_equal.
    - rewrite !digits_value_app, digits_value_zeros, Hv. cbn. lia.
    - rewrite length_app, repeat_length. fold (length (d :: ds)). fold K. lia. }
  destruct (K =? 1) eqn:CD.
  { (* one digit, an exponent *)
    zbool CD. destruct ds as [|d2 ds]; [|cbn in HK; lia].
    rewrite <- !app_assoc. cbn [app map].
    rewrite (parse_number_parts neg _ (101 :: (if 0 <=? n - 1 then 43 else 45)
                :: map digit_unit (dec_digits (Z.abs (n - 1))) ++ rest)
               (101 :: (if 0 <=? n - 1 then 43 else 45)
                :: map digit_unit (dec_digits (Z.abs (n - 1))) ++ rest) rest [d] [] (n - 1)).
    2: { change (digit_unit d :: 101 :: (if 0 <=? n - 1 then 43 else 45)
                   :: map digit_unit (dec_digits (Z.abs (n - 1))) ++ rest)
           with (map digit_unit [d] ++ 101 :: (if 0 <=? n - 1 then 43 else 45)
                   :: map digit_unit (dec_digits (Z.abs (n - 1))) ++ rest).
         apply parse_int_part_digits; [lia | constructor | reflexivity]. }
    2: reflexivity.
    2: exact (parse_exp_digits (n - 1) rest Hr').
    f_equal. f_equal. f_equal. f_equal; [exact Hv | cbn; lia]. }
  { (* several digits, an exponent *)
    zbool CD. assert (Hne : ds <> []) by (intros ->; cbn in HK; lia).
    cbn [firstn skipn map]. rewrite ?firstn_O, ?skipn_O. rewrite <- !app_assoc. cbn [app].
    rewrite (parse_number_parts neg _ (46 :: map digit_unit ds ++ 101 :: (if 0 <=? n - 1 then 43 else 45)
                :: map digit_unit (dec_digits (Z.abs (n - 1))) ++ rest)
               (101 :: (if 0 <=? n - 1 then 43 else 45)
                :: map digit_unit (dec_digits (Z.abs (n - 1))) ++ rest) rest [d] ds (n - 1)).
    2: { change (digit_unit d :: 46 :: map digit_unit ds ++ 101 :: (if 0 <=? n - 1 then 43 else 45)
                   :: map digit_unit (dec_digits (Z.abs (n - 1))) ++ rest)
           with (map digit_unit [d] ++ 46 :: map digit_unit ds ++ 101 :: (if 0 <=? n - 1 then 43 else 45)
                   :: map digit_unit (dec_digits (Z.abs (n - 1))) ++ rest).
         apply parse_int_part_digits; [lia | constructor | reflexivity]. }
    2: { apply parse_frac_digits; [exact Hne | exact Hf | reflexivity]. }
    2: exact (parse_exp_digits (n - 1) rest Hr').
    f_equal. f_equal. f_equal. f_equal; [exact Hv | lia]. }
Qed.

(** *** Numbers: the shortest-digits search *)

Lemma float_eqb_eq (x y : spec_float) : float_eqb x y = true -> x = y.
Proof.
  destruct x as [a|a| |a m e], y as [b|b| |b m' e']; cbn; try discriminate; try reflexivity.
  - intros H. apply Bool.eqb_prop in H. subst. reflexivity.
  - intros H. apply Bool.eqb_prop in H. subst. reflexivity.
  - intros H. apply andb_true_iff in H as [H H3]. apply andb_true_iff in H as [H1 H2].
    apply Bool.eqb_prop in H1. apply Pos.eqb_eq in H2. apply Z.eqb_eq in H3. subst. reflexivity.
Qed.

Lemma pick_in (xq : Q) (k : Z) (cs : list (Z * Z)) (c : Z * Z) :
  pick xq k cs = Some c -> In c cs.
Proof.
  unfold pick.
  assert (H : forall best, fold_left (fun best c => match best with
                                                    | None => Some c
                                                    | Some b => if better xq k c b then Some c else best
                                                    end) cs best = Some c ->
              best = Some c \/ In c cs).
  { induction cs as [|c' cs IH]; intros best Hf; [left; exact Hf|].
    cbn [fold_left] in Hf. apply IH in Hf as [Hf|Hf]; [|right; right; exact Hf].
    destruct best as [b|]; [|right; left; congruence].
    destruct (better xq k c' b); [right; left; congruence | left; exact Hf]. }
  intros Hp. destruct (H None Hp) as [Hn|Hi]; [discriminate Hn | exact Hi].
Qed.

Lemma clamp_range (lo hi s : Z) : lo <= hi -> lo <= clamp lo hi s <= hi.
Proof. unfold clamp. lia. Qed.

Lemma candidates_range (s0 t0 k n s : Z) :
  1 <= k -> In s (candidates s0 t0 k n) -> 10 ^ (k - 1) <= s <= 10 ^ k - 1.
Proof.
  intros Hk Hi.
  assert (Hlh : 10 ^ (k - 1) <= 10 ^ k - 1).
  { replace k with (Z.succ (k - 1)) at 2 by lia. rewrite Z.pow_succ_r by lia.
    assert (0 < 10 ^ (k - 1)) by (apply Z.pow_pos_nonneg; lia). lia. }
  unfold candidates in Hi. destruct (0 <=? t0 + k - n).
  - destruct Hi as [<-|[]]. apply clamp_range. exact Hlh.
  - destruct Hi as [<-|[<-|[]]]; apply clamp_range; exact Hlh.
Qed.

(** What the search returns is a number of [k] digits whose decimal value
    rounds to [x]. *)
Lemma shortest_spec (fuel : nat) (x : spec_float) (xq : Q) (s0 t0 n0 k s n : Z) :
  1 <= k -> shortest fuel x xq s0 t0 n0 k = Some (s, n) ->
  exists k', 1 <= k' /\ 10 ^ (k' - 1) <= s <= 10 ^ k' - 1
    /\ number_value false (decimal_Q s (n - k')) = x.
Proof.
  revert k. induction fuel as [|f IH]; intros k Hk Hs; [discriminate Hs|].
  cbn [shortest] in Hs.
  destruct (pick _ _ _) as [c|] eqn:Hp.
  - injection Hs as Hcs. subst c. apply pick_in in Hp.
    apply filter_In in Hp as [Hin Heq]. apply in_flat_map in Hin as (n' & _ & Hin).
    apply in_map_iff in Hin as (s' & Hc & Hin). cbn [fst snd] in *.
    injection Hc as -> ->. exists k. split; [exact Hk|].
    split; [exact (candidates_range s0 t0 k n s Hk Hin) | apply float_eqb_eq; exact Heq].
  - apply (IH (k + 1)); [lia | exact Hs].
Qed.

Lemma exact_decimal_Q (m : positive) (e s0 t0 : Z) :
  exact_decimal m e = (s0, t0) -> 0 < s0 /\ Qeq (decimal_Q s0 t0) (Q_of_float m e).
Proof.
  unfold exact_decimal, decimal_Q, Q_of_float, Qeq.
  destruct (Z.leb_spec 0 e) as [He|He]; intros Hx; injection Hx as <- <-.
  - assert (0 < 2 ^ e) by (apply Z.pow_pos_nonneg; lia).
    split; [lia|]. cbn. ring.
  - assert (0 < 2 ^ (- e)) by (apply Z.pow_pos_nonneg; lia).
    assert (0 < 5 ^ (- e)) by (apply Z.pow_pos_nonneg; lia).
    assert (0 < 10 ^ (- e)) by (apply Z.pow_pos_nonneg; lia).
    replace (0 <=? e) with false by lia. split; [lia|]. cbn [Qnum Qden].
    rewrite !Z2Pos.id by lia. change 10 with (2 * 5). rewrite Z.pow_mul_l. ring.
Qed.

Lemma binary64_valid_sign (neg : bool) (m : positive) (e : Z) :
  binary64_valid (S754_finite neg m e) = binary64_valid (S754_finite false m e).
Proof. reflexivity. Qed.

(** [Number::toString] on a finite positive [x], read back by
    [JSON.parse], with or without a minus sign before it. *)
Lemma number_to_string_parse (neg : bool) (m : positive) (e : Z) (rest : jsstring) :
  binary64_valid (S754_finite false m e) = true -> number_end rest = true ->
  parse_number ((if neg then [45] else []) ++ number_to_string_pos m e ++ rest)
  = Some (S754_finite neg m e, rest).
Proof.
  intros Hv Hr. unfold number_to_string_pos.
  destruct (exact_decimal m e) as [s0 t0] eqn:Hx.
  destruct (exact_decimal_Q m e s0 t0 Hx) as [Hs0 Hq].
  destruct (shortest _ _ _ _ _ _ _) as [[s n]|] eqn:Hs.
  - apply shortest_spec in Hs as (k & Hk & Hrange & Hval); [|lia].
    rewrite format_decimal_parse by (lia || exact Hr).
    rewrite (dec_digits_length s k Hk ltac:(lia)).
    rewrite number_value_sign, Hval. reflexivity.
  - rewrite format_decimal_parse by (lia || exact Hr).
    replace (Z.of_nat (length (dec_digits s0)) + t0 - Z.of_nat (length (dec_digits s0)))
      with t0 by ring.
    rewrite (number_value_exact neg _ m e); [reflexivity | | exact Hq].
    rewrite binary64_valid_sign. exact Hv.
Qed.

(** [JSON.stringify] on a finite number other than [-0], read back. *)
Lemma number_json_parse (x : spec_float) (rest : jsstring) :
  number_safe x = true -> number_end rest = true ->
  parse_number (number_json x ++ rest) = Some (x, rest).
Proof.
  intros Hx Hr. destruct x as [[]|[]| |[] m e]; try discriminate Hx.
  - exact (parse_number_parts false (48 :: rest) rest rest rest [0] [] 0 eq_refl
             (parse_frac_absent rest Hr) (parse_exp_absent rest Hr)).
  - apply (number_to_string_parse true m e rest); [|exact Hr].
    rewrite <- (binary64_valid_sign true). exact Hx.
  - exact (number_to_string_parse false m e rest Hx Hr).
Qed.

(** *** Objects: defining the parsed members in order *)

Lemma keys_distinct_fresh (l1 l2 : list jsstring) (k : jsstring) :
  keys_distinct (l1 ++ k :: l2) = true -> Forall (fun k' => k' <> k) l1.
Proof.
  induction l1 as [|k0 l1 IH]; intros H; [constructor|].
  cbn [app keys_distinct] in H. apply andb_true_iff in H as [H1 H2].
  constructor; [|exact (IH H2)].
  intros ->. apply negb_true_iff in H1. rewrite existsb_app in H1.
  apply orb_false_iff in H1 as [_ H1]. cbn [existsb] in H1.
  rewrite bool_decide_eq_true_2 in H1 by reflexivity. discriminate H1.
Qed.

Lemma ordered_keys_before (l1 l2 : list jsstring) (k : jsstring) (i : Z) :
  ordered_keys (l1 ++ k :: l2) = true -> array_index k = Some i ->
  Forall (fun k' => exists j, array_index k' = Some j /\ j < i) l1.
Proof.
  induction l1 as [|k0 l1 IH]; intros H Hi; [constructor|].
  cbn [app ordered_keys] in H. apply andb_true_iff in H as [H1 H2].
  constructor; [|exact (IH H2 Hi)].
  destruct (array_index k0) as [j|];
    rewrite forallb_app in H1; apply andb_true_iff in H1 as [_ H1]; cbn [forallb] in H1;
    rewrite Hi in H1.
  - apply andb_true_iff in H1 as [H1 _]. exists j. split; [reflexivity | lia].
  - discriminate H1.
Qed.

Lemma insert_index_last (i : Z) (k : jsstring) (v : JsVal) (ps : list (jsstring * JsVal)) :
  Forall (fun k' => exists j, array_index k' = Some j /\ j < i) (map fst ps) ->
  insert_index i k v ps = ps ++ [(k, v)].
Proof.
  induction ps as [|[k' v'] ps IH]; intros H; [reflexivity|].
  inversion H as [|? ? (j & Hj & Hlt) Hr]; subst. cbn [insert_index]. rewrite Hj.
  replace (j <? i) with true by lia. rewrite IH by exact Hr. reflexivity.
Qed.

(** A key that is new and comes in enumeration order goes last. *)
Lemma obj_define_fresh (acc : list (jsstring * JsVal)) (k : jsstring) (x : JsVal)
    (fs : list (jsstring * JsVal)) :
  keys_distinct (map fst (acc ++ (k, x) :: fs)) = true ->
  ordered_keys (map fst (acc ++ (k, x) :: fs)) = true ->
  obj_define acc k x = acc ++ [(k, x)].
Proof.
  rewrite map_app. cbn [map fst]. intros Hd Ho.
  pose proof (keys_distinct_fresh _ _ _ Hd) as Hf.
  unfold obj_define.
  replace (existsb (fun kv => bool_decide (fst kv = k)) acc) with false.
  2: { symmetry. clear -Hf. induction acc as [|[k' v'] acc IH]; [reflexivity|].
       inversion Hf; subst. cbn [existsb fst]. rewrite bool_decide_eq_false_2 by assumption.
       apply IH. assumption. }
  destruct (array_index k) as [i|] eqn:Hi; [|reflexivity].
  apply insert_index_last. exact (ordered_keys_before _ _ _ i Ho Hi).
Qed.

(** *** Values: [JSON.parse] reads back what [JSON.stringify] writes *)

Lemma safe_stringify (v : JsVal) : json_safe v = true -> json_stringify v = Some (elem_json v).
Proof. destruct v as [| |[]| | | | |]; cbn; try discriminate; reflexivity. Qed.

Lemma elem_json_arr (xs : list JsVal) :
  elem_json (VArr xs) = [91] ++ join_units [44] (map elem_json xs) ++ [93].
Proof. reflexivity. Qed.

Lemma members_json (fs : list (jsstring * JsVal)) :
  forallb (fun '(k, x) => units_ok k && json_safe x) fs = true ->
  flat_map (fun '(k, x) => match json_stringify x with
                           | Some s => [quote_units k ++ [58] ++ s]
                           | None => []
                           end) fs = map member_json fs.
Proof.
  induction fs as [|[k x] fs IH]; cbn [flat_map map forallb]; [reflexivity|].
  intros [[_ Hx]%andb_true_iff Hr]%andb_true_iff.
  rewrite (safe_stringify x Hx), IH by exact Hr. reflexivity.
Qed.

Lemma elem_json_obj (fs : list (jsstring * JsVal)) :
  forallb (fun '(k, x) => units_ok k && json_safe x) fs = true ->
  elem_json (VObj fs) = [123] ++ join_units [44] (map member_json fs) ++ [125].
Proof. intros H. unfold elem_json. cbn [json_stringify]. rewrite members_json by exact H. reflexivity. Qed.

Lemma parse_number_head (c : Z) (r : jsstring) (x : spec_float) (r' : jsstring) :
  parse_number (c :: r) = Some (x, r') -> c = 45 \/ 48 <= c <= 57.
Proof.
  unfold parse_number. destruct (Z.eqb_spec c 45) as [|Hc]; [left; assumption|].
  unfold parse_int_part. intros H. right.
  destruct (Z.eqb_spec c 48); [lia|].
  destruct (is_digit_unit c) eqn:Hd; [|discriminate H].
  unfold is_digit_unit in Hd. lia.
Qed.

Lemma number_json_head (x : spec_float) :
  number_safe x = true -> exists c r, number_json x = c :: r /\ (c = 45 \/ 48 <= c <= 57).
Proof.
  intros Hx. pose proof (number_json_parse x [] Hx eq_refl) as H.
  destruct (number_json x) as [|c r]; [discriminate H|].
  exists c, r. split; [reflexivity|]. exact (parse_number_head c _ _ _ H).
Qed.

Lemma parse_value_number (f : nat) (c : Z) (r : jsstring) :
  c = 45 \/ 48 <= c <= 57 ->
  parse_value (S f) (c :: r) =
  match parse_number (c :: r) with
  | Some (x, r') => Some (VNum x, r')
  | None => None
  end.
Proof.
  intros Hc.
  assert (c = 45 \/ c = 48 \/ c = 49 \/ c = 50 \/ c = 51 \/ c = 52 \/ c = 53 \/ c = 54
          \/ c = 55 \/ c = 56 \/ c = 57) as H by lia.
  repeat (destruct H as [->|H]; [reflexivity|]). subst. reflexivity.
Qed.

Lemma elem_json_head (v : JsVal) :
  json_safe v = true ->
  exists c r, elem_json v = c :: r /\ is_ws_unit c = false /\ c <> 93.
Proof.
  intros Hs. destruct v as [| |[]|x|s|xs|fs|]; try discriminate Hs;
    try (do 2 eexists; split; [reflexivity | split; [reflexivity | discriminate]]).
  destruct (number_json_head x Hs) as (c & r & Hc & Hn).
  exists c, r. split; [exact Hc|].
  assert (c = 45 \/ c = 48 \/ c = 49 \/ c = 50 \/ c = 51 \/ c = 52 \/ c = 53 \/ c = 54
          \/ c = 55 \/ c = 56 \/ c = 57) as H by lia.
  repeat (destruct H as [->|H]; [split; [reflexivity | discriminate]|]).
  subst. split; [reflexivity | discriminate].
Qed.

Lemma elem_json_not_close (x : JsVal) (s : jsstring) :
  json_safe x = true -> next_is 93 (skip_ws (elem_json x ++ s)) = None.
Proof.
  intros Hx. destruct (elem_json_head x Hx) as (c & r & Hc & Hw & Hb).
  rewrite Hc. cbn [app skip_ws]. rewrite Hw. cbn [next_is].
  rewrite (proj2 (Z.eqb_neq c 93) Hb). reflexivity.
Qed.

Lemma join_units_head (sep a : jsstring) (l : list jsstring) :
  exists t, join_units sep (a :: l) = a ++ t.
Proof.
  destruct l as [|b l].
  - exists []. cbn. rewrite app_nil_r. reflexivity.
  - exists (sep ++ join_units sep (b :: l)). reflexivity.
Qed.

Lemma join_units_cons2 (sep a b : jsstring) (l : list jsstring) :
  join_units sep (a :: b :: l) = a ++ sep ++ join_units sep (b :: l).
Proof. reflexivity. Qed.

Lemma next_is_skip (c : Z) (r : jsstring) :
  is_ws_unit c = false -> next_is c (skip_ws (c :: r)) = Some r.
Proof. intros H. cbn [skip_ws]. rewrite H. cbn [next_is]. rewrite Z.eqb_refl. reflexivity. Qed.

Lemma parse_value_quote (f : nat) (r : jsstring) :
  parse_value (S f) (34 :: r) =
  match parse_str_body r with Some (t, r') => Some (VStr t, r') | None => None end.
Proof. reflexivity. Qed.

Lemma parse_value_lbracket (f : nat) (r : jsstring) :
  parse_value (S f) (91 :: r) =
  match next_is 93 (skip_ws r) with
  | Some r' => Some (VArr [], r')
  | None => match parse_elements f r with
            | Some (xs, r') => Some (VArr xs, r')
            | None => None
            end
  end.
Proof. reflexivity. Qed.

Lemma parse_value_lbrace (f : nat) (r : jsstring) :
  parse_value (S f) (123 :: r) =
  match next_is 125 (skip_ws r) with
  | Some r' => Some (VObj [], r')
  | None => match parse_members f [] r with
            | Some (ps, r') => Some (VObj ps, r')
            | None => None
            end
  end.
Proof. reflexivity. Qed.

Lemma parse_elements_S (f : nat) (s : jsstring) :
  parse_elements (S f) s =
  match parse_value f s with
  | None => None
  | Some (v, r) =>
      match next_is 44 (skip_ws r) with
      | Some r' => match parse_elements f r' with
                   | Some (vs, r'') => Some (v :: vs, r'')
                   | None => None
                   end
      | None => match next_is 93 (skip_ws r) with
                | Some r' => Some ([v], r')
                | None => None
                end
      end
  end.
Proof. reflexivity. Qed.

Lemma parse_members_quote (f : nat) (acc : list (jsstring * JsVal)) (r : jsstring) :
  parse_members (S f) acc (34 :: r) =
  match parse_str_body r with
  | None => None
  | Some (k, r1) =>
      match next_is 58 (skip_ws r1) with
      | None => None
      | Some r2 =>
          match parse_value f r2 with
          | None => None
          | Some (v, r3) =>
              let acc' := obj_define acc k v in
              match next_is 44 (skip_ws r3) with
              | Some r4 => parse_members f acc' r4
              | None => match next_is 125 (skip_ws r3) with
                        | Some r4 => Some (acc', r4)
                        | None => None
                        end
              end
          end
      end
  end.
Proof. reflexivity. Qed.

Lemma member_json_app (k : jsstring) (x : JsVal) (t : jsstring) :
  member_json (k, x) ++ t = 34 :: escape_units k ++ 34 :: 58 :: elem_json x ++ t.
Proof. unfold member_json, quote_units. cbn [fst snd app]. rewrite <- !app_assoc. reflexivity. Qed.

Lemma parse_roundtrip_fuel (f : nat) :
  (forall v rest, json_safe v = true -> (jsize v <= f)%nat -> number_end rest = true ->
     parse_value f (elem_json v ++ rest) = Some (v, rest))
  /\ (forall xs rest, xs <> [] -> forallb json_safe xs = true ->
     (list_sum (map (fun x => S (jsize x)) xs) <= f)%nat ->
     parse_elements f (join_units [44] (map elem_json xs) ++ 93 :: rest) = Some (xs, rest))
  /\ (forall fs acc rest, fs <> [] ->
     forallb (fun '(k, x) => units_ok k && json_safe x) fs = true ->
     keys_distinct (map fst (acc ++ fs)) = true ->
     ordered_keys (map fst (acc ++ fs)) = true ->
     (list_sum (map (fun '(_, x) => S (jsize x)) fs) <= f)%nat ->
     parse_members f acc (join_units [44] (map member_json fs) ++ 125 :: rest)
     = Some (acc ++ fs, rest)).
Proof.
  induction f as [|f IH].
  - split; [|split].
    + intros v rest _ Hz. destruct v; cbn in Hz; lia.
    + intros [|x xs] rest Hne _ Hz; [contradiction|]. cbn in Hz. lia.
    + intros [|[k x] fs] acc rest Hne _ _ _ Hz; [contradiction|]. cbn in Hz. lia.
  - destruct IH as (IHv & IHe & IHm). split; [|split].
    + intros v rest Hs Hz Hr.
      destruct v as [| |[]|x|s|xs|fs|]; try discriminate Hs.
      * reflexivity.
      * reflexivity.
      * reflexivity.
      * cbn [json_safe] in Hs. change (elem_json (VNum x)) with (number_json x).
        destruct (number_json_head x Hs) as (c & r & Hc & Hn).
        pose proof (number_json_parse x rest Hs Hr) as Hp.
        rewrite Hc in *. cbn [app] in *.
        rewrite parse_value_number by exact Hn. rewrite Hp. reflexivity.
      * change (elem_json (VStr s)) with (34 :: escape_units s ++ [34]).
        cbn [app]. rewrite <- app_assoc. cbn [app].
        rewrite parse_value_quote, parse_escape_units by exact Hs. reflexivity.
      * rewrite elem_json_arr, <- !app_assoc. cbn [app].
        rewrite parse_value_lbracket.
        destruct xs as [|x xs'].
        -- reflexivity.
        -- cbn [json_safe forallb] in Hs. pose proof Hs as Hx.
           apply andb_true_iff in Hx as [Hx _].
           destruct (join_units_head [44] (elem_json x) (map elem_json xs')) as [t Ht].
           cbn [map]. rewrite Ht, <- app_assoc, elem_json_not_close by exact Hx.
           rewrite app_assoc, <- Ht.
           change (elem_json x :: map elem_json xs') with (map elem_json (x :: xs')).
           rewrite IHe; [reflexivity | discriminate | exact Hs |].
           cbn [jsize] in Hz. lia.
      * cbn [json_safe] in Hs. apply andb_true_iff in Hs as [Hs Ho].
        apply andb_true_iff in Hs as [Hf Hd].
        rewrite (elem_json_obj fs Hf), <- !app_assoc. cbn [app].
        rewrite parse_value_lbrace.
        destruct fs as [|[k x] fs'].
        -- reflexivity.
        -- destruct (join_units_head [44] (member_json (k, x)) (map member_json fs')) as [t Ht].
           cbn [map]. rewrite Ht, <- app_assoc, member_json_app.
           change (next_is 125 (skip_ws (34 :: escape_units k ++ 34 :: 58 :: elem_json x ++ t ++ 125 :: rest)))
             with (@None jsstring). cbv iota.
           rewrite <- member_json_app, app_assoc, <- Ht.
           change (member_json (k, x) :: map member_json fs')
             with (map member_json ((k, x) :: fs')).
           rewrite (IHm ((k, x) :: fs') [] rest); [reflexivity | discriminate | exact Hf
                                                  | exact Hd | exact Ho |].
           cbn [jsize] in Hz. lia.
    + intros xs rest Hne Hs Hz. destruct xs as [|x xs']; [contradiction|].
      cbn [forallb] in Hs. apply andb_true_iff in Hs as [Hx Hs].
      rewrite parse_elements_S.
      destruct xs' as [|y ys].
      * cbn [map join_units].
        rewrite IHv; [reflexivity | exact Hx | cbn in Hz; lia | reflexivity].
      * cbn [map]. rewrite join_units_cons2, <- !app_assoc. cbn [app].
        rewrite IHv; [| exact Hx | cbn in Hz; lia | reflexivity].
        rewrite next_is_skip by reflexivity.
        change (join_units [44] (elem_json y :: map elem_json ys))
          with (join_units [44] (map elem_json (y :: ys))).
        rewrite IHe; [reflexivity | discriminate | exact Hs | cbn in Hz |- *; lia].
    + intros fs acc rest Hne Hs Hd Ho Hz. destruct fs as [|[k x] fs']; [contradiction|].
      cbn [forallb] in Hs. apply andb_true_iff in Hs as [Hx Hs].
      apply andb_true_iff in Hx as [Hk Hx].
      destruct fs' as [|[k2 x2] fs''].
      * cbn [map join_units].
        rewrite member_json_app, parse_members_quote, parse_escape_units by exact Hk.
        rewrite next_is_skip by reflexivity.
        rewrite IHv; [| exact Hx | cbn in Hz; lia | reflexivity].
        rewrite (obj_define_fresh acc k x [] Hd Ho). reflexivity.
      * cbn [map]. rewrite join_units_cons2, <- !app_assoc. cbn [app].
        rewrite member_json_app, parse_members_quote, parse_escape_units by exact Hk.
        rewrite next_is_skip by reflexivity.
        rewrite IHv; [| exact Hx | cbn in Hz; lia | reflexivity].
        rewrite next_is_skip by reflexivity.
        rewrite (obj_define_fresh acc k x ((k2, x2) :: fs'') Hd Ho).
        change (join_units [44] (member_json (k2, x2) :: map member_json fs''))
          with (join_units [44] (map member_json ((k2, x2) :: fs''))).
        rewrite IHm; [rewrite <- app_assoc; reflexivity | discriminate | exact Hs | | |].
        -- rewrite <- app_assoc. exact Hd.
        -- rewrite <- app_assoc. exact Ho.
        -- cbn in Hz |- *. lia.
Qed.

Lemma jsize_length_fuel (f : nat) :
  (forall v, json_safe v = true -> (jsize v <= f)%nat ->
     (jsize v <= length (elem_json v))%nat)
  /\ (forall xs, forallb json_safe xs = true ->
     (list_sum (map (fun x => S (jsize x)) xs) <= f)%nat ->
     (list_sum (map (fun x => S (jsize x)) xs)
      <= S (length (join_units [44%Z] (map elem_json xs))))%nat)
  /\ (forall fs, forallb (fun '(k, x) => units_ok k && json_safe x) fs = true ->
     (list_sum (map (fun '(_, x) => S (jsize x)) fs) <= f)%nat ->
     (list_sum (map (fun '(_, x) => S (jsize x)) fs)
      <= S (length (join_units [44%Z] (map member_json fs))))%nat).
Proof.
  induction f as [|f IH].
  - split; [|split].
    + intros v _ Hz. destruct v; cbn in Hz; lia.
    + intros [|x xs] _ Hz; cbn in Hz |- *; lia.
    + intros [|[k x] fs] _ Hz; cbn in Hz |- *; lia.
  - destruct IH as (IHv & IHe & IHm). split; [|split].
    + intros v Hs Hz.
      destruct v as [| |[]|x|s|xs|fs|]; try discriminate Hs; try (cbn; lia).
      * cbn [json_safe] in Hs. destruct (number_json_head x Hs) as (c & r & Hc & _).
        change (elem_json (VNum x)) with (number_json x). rewrite Hc. cbn. lia.
      * rewrite elem_json_arr, !length_app. cbn [jsize] in Hz |- *.
        specialize (IHe xs Hs ltac:(lia)). cbn [length]. lia.
      * cbn [json_safe] in Hs. apply andb_true_iff in Hs as [Hs _].
        apply andb_true_iff in Hs as [Hf _].
        rewrite (elem_json_obj fs Hf), !length_app. cbn [jsize] in Hz |- *.
        specialize (IHm fs Hf ltac:(lia)). cbn [length]. lia.
    + intros xs Hs Hz. destruct xs as [|x xs']; [cbn; lia|].
      cbn [forallb] in Hs. apply andb_true_iff in Hs as [Hx Hs].
      destruct xs' as [|y ys].
      * cbn in Hz |- *. specialize (IHv x Hx ltac:(lia)). lia.
      * cbn [map]. rewrite join_units_cons2, !length_app.
        specialize (IHe (y :: ys) Hs). cbn [map] in IHe.
        cbn in Hz, IHe |- *. specialize (IHv x Hx ltac:(lia)). lia.
    + intros fs Hs Hz. destruct fs as [|[k x] fs']; [cbn; lia|].
      cbn [forallb] in Hs. apply andb_true_iff in Hs as [Hx Hs].
      apply andb_true_iff in Hx as [_ Hx].
      destruct fs' as [|[k2 x2] fs''].
      * cbn [map join_units]. unfold member_json. cbn [fst snd]. rewrite !length_app.
        cbn in Hz |- *. specialize (IHv x Hx ltac:(lia)). lia.
      * cbn [map]. rewrite join_units_cons2. unfold member_json at 1. cbn [fst snd].
        rewrite !length_app.
        specialize (IHm ((k2, x2) :: fs'') Hs). cbn [map] in IHm.
        cbn in Hz, IHm |- *. specialize (IHv x Hx ltac:(lia)). lia.
Qed.

Lemma json_parse_stringify (v : JsVal) :
  json_safe v = true -> json_parse (elem_json v) = Some v.
Proof.
  intros Hs. unfold json_parse.
  destruct (jsize_length_fuel (jsize v)) as (Hl & _ & _).
  specialize (Hl v Hs (le_n _)).
  destruct (parse_roundtrip_fuel (S (length (elem_json v)))) as (Hp & _ & _).
  specialize (Hp v [] Hs ltac:(lia) eq_refl).
  rewrite app_nil_r in Hp. rewrite Hp. reflexivity.
Qed.

(** *** The adapter *)

(** C8: the store adapter never raises. A throwing read gives [null] and
    logs; a missing key reads as [null]; a read of a raw string returns its
    [JSON.parse] result when it parses and the raw string otherwise;
    [setItem] stores a string as is and any other value as its
    [JSON.stringify] text; a throwing write leaves the store as it was and
    logs. *)
Theorem storage_adapter_never_raises :
  (forall b key e, read_error b = Some e ->
     fst (getItem b key) = VNull /\ snd (getItem b key) <> [])
  /\ (forall b key, read_error b = None -> items b !! key = None ->
     getItem b key = (VNull, []))
  /\ (forall b key raw v, read_error b = None -> items b !! key = Some raw ->
     json_parse raw = Some v -> getItem b key = (v, []))
  /\ (forall b key raw, read_error b = None -> items b !! key = Some raw ->
     json_parse raw = None -> getItem b key = (VStr raw, []))
  /\ (forall b key s, write_error b = None ->
     items (fst (setItem b key (VStr s))) = <[key := s]> (items b))
  /\ (forall b key v, write_error b = None -> (forall s, v <> VStr s) ->
     items (fst (setItem b key v))
     = <[key := match json_stringify v with Some s => s | None => U "undefined" end]> (items b))
  /\ (forall b key v e, write_error b = Some e ->
     fst (setItem b key v) = b /\ snd (setItem b key v) <> []).
Proof.
  split; [|split; [|split; [|split; [|split; [|split]]]]].
  - intros b key e He. unfold getItem. rewrite He. split; [reflexivity | discriminate].
  - intros b key He Hk. unfold getItem. rewrite He, Hk. reflexivity.
  - intros b key raw v He Hk Hp. unfold getItem. rewrite He, Hk, Hp. reflexivity.
  - intros b key raw He Hk Hp. unfold getItem. rewrite He, Hk, Hp. reflexivity.
  - intros b key s He. unfold setItem. rewrite He. reflexivity.
  - intros b key v He Hv. unfold setItem. rewrite He. cbn [fst items].
    destruct v; try reflexivity. exfalso. eapply Hv. reflexivity.
  - intros b key v e He. unfold setItem. rewrite He. split; [reflexivity | discriminate].
Qed.

(** C9 counterexample: [NaN] is a number; [setItem] stores it as ["null"]
    and [getItem] reads back [null]. *)
Lemma setItem_getItem_NaN :
  fst (getItem (fst (setItem empty_backend (U "key") (VNum S754_nan))) (U "key")) = VNull.
Proof. vm_compute. reflexivity. Qed.

(** C9 (amended): when reads and writes succeed, [setItem] then [getItem]
    returns any value that is not itself a string and is built from
    [null], booleans, finite numbers other than [-0], strings, arrays and
    objects whose keys are distinct and in the order the object enumerates
    them (no [undefined], functions, [NaN] or infinities inside); and it
    returns a string that does not parse as JSON unchanged. *)
Theorem setItem_getItem_roundtrip (b : Backend) (key : jsstring) :
  read_error b = None -> write_error b = None ->
  (forall v, json_safe v = true -> (forall s, v <> VStr s) ->
     fst (getItem (fst (setItem b key v)) key) = v)
  /\ (forall s, json_parse s = None ->
     fst (getItem (fst (setItem b key (VStr s))) key) = VStr s).
Proof.
  intros Hr Hw. split.
  - intros v Hs Hv. unfold setItem. rewrite Hw. unfold getItem. cbn [fst items read_error].
    rewrite Hr, lookup_insert_eq.
    assert (Hraw : storage_raw v = elem_json v).
    { destruct v as [| |[]| | | | |]; try reflexivity; try discriminate Hs.
      exfalso. eapply Hv. reflexivity. }
    rewrite Hraw, json_parse_stringify by exact Hs. reflexivity.
  - intros s Hp. unfold setItem. rewrite Hw. unfold getItem. cbn [fst items read_error].
    rewrite Hr, lookup_insert_eq. cbn [storage_raw]. rewrite Hp. reflexivity.
Qed.

(** The amended C9 at the tests' user object, with a fractional score,
    and at a plain string. *)
Lemma setItem_getItem_roundtrip_witness :
  read_error empty_backend = None /\ write_error empty_backend = None /\
  fst (getItem (fst (setItem empty_backend (U "user") john)) (U "user")) = john /\
  fst (getItem (fst (setItem empty_backend (U "user") (VStr (U "plain string")))) (U "user"))
  = VStr (U "plain string").
Proof.
  destruct (setItem_getItem_roundtrip empty_backend (U "user") eq_refl eq_refl) as [H1 H2].
  split; [reflexivity|]. split; [reflexivity|]. split.
  - apply H1; [vm_compute; reflexivity | intros s; discriminate].
  - apply H2. vm_compute. reflexivity.
Defined.

End StorageAdapterProofs.


(** ** Router: route table and guard *)

Lemma route_records_routes :
  route_records routes =
  [ mkMatchable [TStatic "dashboard"] (Some true) false;
    mkMatchable [TStatic "tasks"] (Some true) false;
    mkMatchable [TStatic "profile"] (Some true) false;
    mkMatchable [] None false;
    mkMatchable [TStatic "signup"] (Some false) false;
    mkMatchable [TStatic "login"] (Some false) false;
    mkMatchable [TStatic "forgot-password"] (Some false) false;
    mkMatchable [TStatic "set-password"; TParam; TParam] (Some false) false;
    mkMatchable [TStatic "auth"; TStatic "callback"] (Some false) false;
    mkMatchable [] None false;
    mkMatchable [TCatchAll] None true ].
Proof. reflexivity. Qed.

Lemma str_app_inv_l (a b c : string) : a ++ b = a ++ c -> b = c.
Proof.
  induction a as [|x a IH]; [rewrite !str_app_nil; auto|].
  rewrite !str_app_cons. intros H. injection H. exact IH.
Qed.

(** A property of characters checked on all 256 of them. *)
Lemma all_ascii (f : ascii -> bool) :
  forallb (fun n => f (ascii_of_nat n)) (seq 0 256) = true -> forall c, f c = true.
Proof.
  intros H c. rewrite <- (Ascii.ascii_nat_embedding c).
  rewrite forallb_forall in H. apply H, in_seq.
  pose proof (Ascii.nat_ascii_bounded c). lia.
Qed.

Lemma ascii_lower_nil (s : string) : ascii_lower s = "" <-> s = "".
Proof. destruct s; cbn; split; congruence. Qed.

Lemma ascii_lower_char_slash (c : ascii) : ascii_lower_char c = "/"%char <-> c = "/"%char.
Proof.
  assert (H := all_ascii (fun c => Bool.eqb (Ascii.eqb (ascii_lower_char c) "/")
                                           (Ascii.eqb c "/")) ltac:(vm_compute; reflexivity) c).
  apply Bool.eqb_prop in H.
  destruct (Ascii.eqb_spec (ascii_lower_char c) "/"), (Ascii.eqb_spec c "/");
    try discriminate; split; congruence.
Qed.

Lemma ascii_lower_slash (s : string) : ascii_lower s = "/" <-> s = "/".
Proof.
  destruct s as [|c [|d r]]; cbn [ascii_lower]; split; try congruence.
  - intros H. injection H as H. apply (proj1 (ascii_lower_char_slash c)) in H. congruence.
  - intros H. injection H as ->. reflexivity.
Qed.

Lemma ascii_lower_app_inv (p l1 l2 : string) :
  ascii_lower p = l1 ++ l2 ->
  exists p1 p2, p = p1 ++ p2 /\ ascii_lower p1 = l1 /\ ascii_lower p2 = l2.
Proof.
  revert p. induction l1 as [|a l1 IH]; intros p H.
  - exists "", p. rewrite str_app_nil in H. split; [symmetry; apply str_app_nil|].
    split; [reflexivity | exact H].
  - rewrite str_app_cons in H. destruct p as [|c p]; [discriminate|].
    cbn in H. injection H as Ha Hr. destruct (IH p Hr) as (p1 & p2 & -> & H1 & H2).
    exists (String c p1), p2. rewrite str_app_cons.
    split; [reflexivity|]. cbn. rewrite Ha, H1. split; [reflexivity | exact H2].
Qed.

Lemma ascii_lower_app (a b : string) : ascii_lower (a ++ b) = ascii_lower a ++ ascii_lower b.
Proof.
  induction a as [|c a IH]; [rewrite !str_app_nil; reflexivity|].
  rewrite !str_app_cons. cbn. rewrite IH, str_app_cons. reflexivity.
Qed.

Lemma ci_lit_char_check (a : ascii) :
  forallb (fun n => Bool.eqb (N.eqb (canonicalize a) (canonicalize (ascii_of_nat n)))
                             (Ascii.eqb (ascii_lower_char (ascii_of_nat n)) a))
          (seq 0 256) = true -> ci_lit_char a.
Proof.
  intros H b. apply Bool.eqb_prop.
  exact (all_ascii (fun b => Bool.eqb (N.eqb (canonicalize a) (canonicalize b))
                                      (Ascii.eqb (ascii_lower_char b) a)) H b).
Qed.

Lemma strip_ci_spec (lit p q : string) :
  Forall ci_lit_char (list_ascii_of_string lit) ->
  strip_ci lit p = Some q <-> exists p1, p = p1 ++ q /\ ascii_lower p1 = lit.
Proof.
  revert p. induction lit as [|a lit IH]; intros p Hok.
  - cbn. split.
    + intros [= ->]. exists "". split; [symmetry; apply str_app_nil | reflexivity].
    + intros (p1 & -> & H1). apply ascii_lower_nil in H1 as ->. rewrite str_app_nil. reflexivity.
  - inversion Hok as [|? ? Ha Hok']; subst. destruct p as [|b p]; cbn.
    + split; [discriminate|]. intros (p1 & Hp & H1).
      destruct p1; [discriminate|]. rewrite str_app_cons in Hp. discriminate.
    + rewrite (Ha b). destruct (Ascii.eqb_spec (ascii_lower_char b) a) as [Hb|Hb].
      * rewrite (IH p Hok'). split.
        -- intros (p1 & -> & H1). exists (String b p1). rewrite str_app_cons.
           split; [reflexivity|]. cbn. congruence.
        -- intros (p1 & Hp & H1). destruct p1 as [|c p1]; [cbn in H1; discriminate|].
           rewrite str_app_cons in Hp. injection Hp as <- ->. cbn in H1.
           injection H1 as _ H1. exists p1. split; [reflexivity | exact H1].
      * split; [discriminate|]. intros (p1 & Hp & H1).
        destruct p1 as [|c p1]; [cbn in H1; discriminate|].
        rewrite str_app_cons in Hp. injection Hp as <- _. cbn in H1.
        injection H1 as H1 _. contradiction.
Qed.

(** vue-router's matcher for a one-segment static record accepts a path
    exactly when its ASCII lower case is [/lit] or [/lit/]. *)
Lemma match_static_ci (lit p : string) :
  Forall ci_lit_char (list_ascii_of_string lit) ->
  match_tokens [TStatic lit] p = true <->
  ascii_lower p = String "/" lit \/ ascii_lower p = String "/" (lit ++ "/").
Proof.
  intros Hok. destruct p as [|c p]; cbn [ascii_lower match_tokens].
  { split; [discriminate|]. intros [H|H]; discriminate. }
  assert (Hgen : forall r, String (ascii_lower_char c) (ascii_lower p) = String "/" r <->
                           c = "/"%char /\ ascii_lower p = r).
  { intros r. split.
    - intros H. injection H as Hc Hr. apply (proj1 (ascii_lower_char_slash c)) in Hc. auto.
    - intros [-> ->]. reflexivity. }
  rewrite !Hgen.
  destruct (Ascii.eqb_spec c "/") as [->|Hc]; cbn [andb].
  2:{ split; [discriminate|]. intros [[]|[]]; contradiction. }
  destruct (strip_ci lit p) as [q|] eqn:Hs.
  - apply (strip_ci_spec lit p q Hok) in Hs as (p1 & -> & H1).
    cbn [match_tokens]. rewrite ascii_lower_app, H1, orb_true_iff, !String.eqb_eq. split.
    + intros [->| ->]; [left; split; [reflexivity|]; apply str_app_nil_r
                       | right; split; reflexivity].
    + intros [[_ H]|[_ H]].
      * left. rewrite <- (str_app_nil_r lit) in H at 2.
        apply str_app_inv_l in H. exact (proj1 (ascii_lower_nil q) H).
      * right. apply str_app_inv_l in H. exact (proj1 (ascii_lower_slash q) H).
  - split; [discriminate|]. intros [[_ H]|[_ H]]; exfalso.
    + rewrite <- (str_app_nil_r lit) in H.
      destruct (ascii_lower_app_inv p lit "" H) as (p1 & p2 & -> & H1 & _).
      assert (strip_ci lit (p1 ++ p2) = Some p2) by (apply strip_ci_spec; eauto).
      congruence.
    + destruct (ascii_lower_app_inv p lit "/" H) as (p1 & p2 & -> & H1 & _).
      assert (strip_ci lit (p1 ++ p2) = Some p2) by (apply strip_ci_spec; eauto).
      congruence.
Qed.

Ltac ci_lit := repeat constructor; apply ci_lit_char_check; vm_compute; reflexivity.

Lemma resolve_requiresAuth (p : string) :
  truthy_bool (to_requiresAuth (resolve routes p)) = true <->
  In (ascii_lower p) protected_paths.
Proof.
  unfold resolve. rewrite route_records_routes. cbn [List.find m_pattern].
  destruct (match_tokens [TStatic "dashboard"] p) eqn:E1.
  { apply match_static_ci in E1; [|ci_lit]. split; [intros _|reflexivity].
    destruct E1 as [H|H]; rewrite H; cbn; repeat (first [left; reflexivity | right]). }
  destruct (match_tokens [TStatic "tasks"] p) eqn:E2.
  { apply match_static_ci in E2; [|ci_lit]. split; [intros _|reflexivity].
    destruct E2 as [H|H]; rewrite H; cbn; repeat (first [left; reflexivity | right]). }
  destruct (match_tokens [TStatic "profile"] p) eqn:E3.
  { apply match_static_ci in E3; [|ci_lit]. split; [intros _|reflexivity].
    destruct E3 as [H|H]; rewrite H; cbn; repeat (first [left; reflexivity | right]). }
  assert (Hn : ~ In (ascii_lower p) protected_paths).
  { assert (F1 := match_static_ci "dashboard" p ltac:(ci_lit)).
    assert (F2 := match_static_ci "tasks" p ltac:(ci_lit)).
    assert (F3 := match_static_ci "profile" p ltac:(ci_lit)).
    rewrite E1 in F1; rewrite E2 in F2; rewrite E3 in F3.
    cbn. intros [H|[H|[H|[H|[H|[H|[]]]]]]];
      [ pose proof (proj2 F1 (or_introl (eq_sym H))) | pose proof (proj2 F1 (or_intror (eq_sym H)))
      | pose proof (proj2 F2 (or_introl (eq_sym H))) | pose proof (proj2 F2 (or_intror (eq_sym H)))
      | pose proof (proj2 F3 (or_introl (eq_sym H))) | pose proof (proj2 F3 (or_intror (eq_sym H))) ];
      discriminate. }
  split; [|tauto]. intros H. exfalso.
  repeat match goal with
  | H : context [if ?b then _ else _] |- _ => destruct b; cbn in H
  end; discriminate.
Qed.

(** X1: whenever the guard redirects, the target is [/dashboard] for an
    authenticated user and [/login] otherwise, and the guard lets the same
    user proceed to that target: a redirect never leads to another one. *)
Lemma redirect_target_no_loop (isAuth : bool) (p q : string)
  (H : navigation_decision isAuth (resolve routes p) = NextRedirect q) :
  q = (if isAuth then "/dashboard" else "/login") /\
  navigation_decision isAuth (resolve routes q) = NextProceed.
Proof.
  unfold navigation_decision in H.
  destruct isAuth; cbn [andb negb] in H; rewrite ?andb_false_r, ?andb_true_r in H;
    repeat match goal with
    | H : context [if ?b then _ else _] |- _ => destruct b; cbn in H
    end; try discriminate; injection H as <-; split; reflexivity.
Qed.

Lemma redirect_target_no_loop_witness :
  navigation_decision false (resolve routes "/tasks") = NextRedirect "/login" /\
  "/login" = "/login" /\
  navigation_decision false (resolve routes "/login") = NextProceed.
Proof.
  assert (H : navigation_decision false (resolve routes "/tasks") = NextRedirect "/login")
    by reflexivity.
  split; [exact H|]. exact (redirect_target_no_loop false "/tasks" "/login" H).
Defined.

(** X2: on the route table, an unauthenticated user proceeds exactly to the
    paths other than [/] that are not [/dashboard], [/tasks] or [/profile]
    (matched as vue-router does: ignoring ASCII case, with an optional
    trailing slash); an authenticated user proceeds exactly to the paths
    other than [/] that are not [/login], [/signup], [/forgot-password] or
    start with [/set-password] (compared case-sensitively by the guard). *)
Lemma navigation_decision_routes (p : string) :
  (navigation_decision false (resolve routes p) = NextProceed <->
     ~ In (ascii_lower p) protected_paths /\ p <> "/") /\
  (navigation_decision true (resolve routes p) = NextProceed <->
     anonymous_only_path p = false /\ p <> "/").
Proof.
  pose proof (resolve_requiresAuth p) as HR.
  assert (Hp : to_path (resolve routes p) = p)
    by (unfold resolve; destruct List.find; reflexivity).
  unfold navigation_decision. rewrite Hp. split.
  - cbn [andb negb]. rewrite andb_true_r.
    destruct (truthy_bool _) eqn:E.
    + split; [discriminate|]. intros [Hn _]. exfalso. apply Hn, HR; reflexivity.
    + destruct (String.eqb p "/") eqn:Ep.
      * apply String.eqb_eq in Ep. split; [discriminate|]. tauto.
      * apply String.eqb_neq in Ep. split; [|reflexivity]. intros _. split; [|exact Ep].
        intros Hi. apply HR in Hi. congruence.
  - cbn [andb negb]. rewrite andb_false_r, andb_true_r.
    destruct (anonymous_only_path p).
    + split; [discriminate|]. intros [H _]; discriminate.
    + destruct (String.eqb p "/") eqn:Ep.
      * apply String.eqb_eq in Ep. split; [discriminate|]. tauto.
      * apply String.eqb_neq in Ep. cbn. tauto.
Qed.


(** ** Tasks store *)

Lemma getTasks_run (w : TasksWorld) :
  let '(r, w') := getTasks w in
  loading (tstate w') = false /\ task_filter (tstate w') = task_filter (tstate w) /\
  sent w' = (sent w ++ [GetReq "/task/"])%list /\
  server w' = server w /\ first_rejection w' = first_rejection w /\
  match server w (sent w) (GetReq "/task/") with
  | ApiResolved d =>
      if data_success d
      then r = true /\ tasks (tstate w') = fetched d /\ ui w' = ui w
      else r = false /\ tasks (tstate w') = tasks (tstate w) /\
           ui w' = (ui w ++ [NotifyError (extractErrorMessage d "Failed to fetch tasks")])%list
  | ApiRejected e =>
      r = false /\ tasks (tstate w') = tasks (tstate w) /\
      ui w' = (ui w ++ [NotifyError (str_or (err_data_message e)
                 (str_or (err_data_error e) (str_or (err_message e) "Failed to fetch tasks")))])%list
  end.
Proof.
  destruct w as [[ts f ld] u sn sv fr]. cbn.
  destruct (sv sn (GetReq "/task/")) as [[[] m tk]|e]; cbn; auto 10.
Qed.

Lemma js_strict_eq_sym (a b : JsValue) : js_strict_eq a b = js_strict_eq b a.
Proof.
  destruct a as [| |x|[x| | |]|x| | |], b as [| |y|[y| | |]|y| | |]; cbn; try reflexivity.
  - destruct x, y; reflexivity.
  - apply Z.eqb_sym.
  - destruct (String.eqb_spec x y), (String.eqb_spec y x); congruence.
Qed.

Lemma find_index_app {A} (p : A -> bool) (l1 l2 : list A) :
  forallb (fun x => negb (p x)) l1 = true ->
  find_index p (l1 ++ l2) = option_map (fun i => length l1 + i)%nat (find_index p l2).
Proof.
  induction l1 as [|x l1 IH]; cbn; intros H.
  - destruct (find_index p l2); reflexivity.
  - apply andb_true_iff in H as [H1 H2]. destruct (p x); [discriminate|].
    rewrite IH by exact H2. destruct (find_index p l2); reflexivity.
Qed.

Lemma distinct_ids_app (l1 l2 : list JsValue) :
  distinct_ids (l1 ++ l2) = true ->
  distinct_ids l1 = true /\ distinct_ids l2 = true /\
  forall x y, In x l1 -> In y l2 -> js_strict_eq x y = false.
Proof.
  induction l1 as [|a l1 IH]; cbn; intros H.
  - split; [reflexivity|]. split; [exact H|]. intros x y [].
  - apply andb_true_iff in H as [H H3]. apply andb_true_iff in H as [H1 H2].
    rewrite forallb_app in H2. apply andb_true_iff in H2 as [H2a H2b].
    destruct (IH H3) as (Ha & Hb & Hc).
    rewrite H1, H2a, Ha. split; [reflexivity|]. split; [exact Hb|].
    intros x y [Hx|Hx] Hy.
    + subst x. rewrite forallb_forall in H2b. apply H2b in Hy. now destruct (js_strict_eq a y).
    + now apply Hc.
Qed.

Lemma findTaskIndex_distinct (pre r : list Obj) (t : Obj) :
  ids_ok (pre ++ t :: r) = true ->
  findTaskIndex (entity_id t) (pre ++ t :: r) = Some (length pre).
Proof.
  unfold ids_ok, findTaskIndex. rewrite map_app. intros H.
  apply distinct_ids_app in H as (_ & H2 & H3).
  rewrite find_index_app.
  - cbn in H2 |- *. apply andb_true_iff in H2 as [H2 _]. apply andb_true_iff in H2 as [H2 _].
    change (js_strict_eq (entity_id t) (entity_id t) = true) in H2.
    fold (entity_id t). rewrite H2. cbn. f_equal. lia.
  - apply forallb_forall. intros x Hx.
    pose proof (H3 (entity_id x) (entity_id t) (in_map _ _ _ Hx) (or_introl eq_refl)) as H4.
    change (negb (js_strict_eq (entity_id x) (entity_id t)) = true). rewrite H4. reflexivity.
Qed.

Lemma get_field_obj_set (t : Obj) (k k' : string) (v : JsValue) :
  get_field (obj_set t k v) k' = if String.eqb k' k then v else get_field t k'.
Proof.
  induction t as [|[k1 v1] r IH]; cbn.
  - destruct (String.eqb k' k); reflexivity.
  - destruct (String.eqb_spec k k1) as [->|Hk]; cbn.
    + destruct (String.eqb k' k1); reflexivity.
    + rewrite IH. destruct (String.eqb_spec k' k1) as [->|]; [|reflexivity].
      destruct (String.eqb_spec k1 k); [congruence|reflexivity].
Qed.

Lemma update_first_middle (pre r : list Obj) (t : Obj) (U : JsValue) :
  ids_ok (pre ++ t :: r) = true ->
  update_first (entity_id t) U (pre ++ t :: r) = (pre ++ spread t U :: r)%list.
Proof.
  intros H. unfold update_first. rewrite findTaskIndex_distinct by exact H.
  rewrite app_nth2, Nat.sub_diag by lia. cbn [nth].
  rewrite <- (Nat.add_0_r (length pre)), insert_app_r. reflexivity.
Qed.

Lemma remove_first_middle (pre r : list Obj) (t : Obj) :
  ids_ok (pre ++ t :: r) = true ->
  remove_first (entity_id t) (pre ++ t :: r) = (pre ++ r)%list.
Proof.
  intros H. unfold remove_first. rewrite findTaskIndex_distinct by exact H.
  apply delete_middle.
Qed.

Lemma ids_ok_same_id (pre r : list Obj) (t t' : Obj) :
  entity_id t' = entity_id t ->
  ids_ok (pre ++ t' :: r) = ids_ok (pre ++ t :: r).
Proof. intros H. unfold ids_ok. rewrite !map_app. cbn [map]. rewrite H. reflexivity. Qed.

Lemma ids_ok_remove (pre r : list Obj) (t : Obj) :
  ids_ok (pre ++ t :: r) = true -> ids_ok (pre ++ r) = true.
Proof.
  unfold ids_ok. rewrite !map_app. cbn [map].
  induction (map entity_id pre) as [|a l IH]; cbn.
  - intros H. apply andb_true_iff in H as [_ H]. exact H.
  - intros H. apply andb_true_iff in H as [H H3]. apply andb_true_iff in H as [H1 H2].
    rewrite forallb_app in H2 |- *. cbn [forallb] in H2.
    apply andb_true_iff in H2 as [H2a H2b]. apply andb_true_iff in H2b as [_ H2b].
    rewrite H1, H2a, H2b, IH by exact H3. reflexivity.
Qed.


Lemma fold_update_first (c : bool) (pre ts : list Obj) :
  ids_ok (pre ++ ts) = true ->
  fold_left (fun acc t => update_first (get_field t "entity_id")
                            (JsObj [("completed", JsBool c)]) acc)
            (List.filter (differs c) ts) (pre ++ ts)%list
  = (pre ++ map (fun t => if differs c t then obj_set t "completed" (JsBool c) else t) ts)%list.
Proof.
  revert pre. induction ts as [|t r IH]; intros pre H; [reflexivity|].
  cbn [List.filter map]. destruct (differs c t) eqn:Ed; cbn [fold_left].
  - change (get_field t "entity_id") with (entity_id t).
    rewrite update_first_middle by exact H.
    change (spread t (JsObj [("completed", JsBool c)])) with (obj_set t "completed" (JsBool c)).
    pose proof (IH (pre ++ [obj_set t "completed" (JsBool c)])%list) as IH'.
    rewrite <- !app_assoc in IH'. cbn [app] in IH'. apply IH'.
    rewrite ids_ok_same_id with (t := t); [exact H|].
    unfold entity_id. rewrite get_field_obj_set. reflexivity.
  - pose proof (IH (pre ++ [t])%list) as IH'.
    rewrite <- !app_assoc in IH'. cbn [app] in IH'. apply IH'. exact H.
Qed.


Lemma fold_remove_first (pre ts : list Obj) :
  ids_ok (pre ++ ts) = true ->
  fold_left (fun acc taskId => remove_first taskId acc)
            (map (fun t => get_field t "entity_id") (List.filter is_done ts)) (pre ++ ts)%list
  = (pre ++ List.filter (fun t => negb (is_done t)) ts)%list.
Proof.
  revert pre. induction ts as [|t r IH]; intros pre H; [reflexivity|].
  cbn [List.filter]. destruct (is_done t) eqn:Ed; cbn [map fold_left negb].
  - change (get_field t "entity_id") with (entity_id t).
    rewrite remove_first_middle by exact H. apply IH. eapply ids_ok_remove, H.
  - pose proof (IH (pre ++ [t])%list) as IH'.
    rewrite <- !app_assoc in IH'. cbn [app] in IH'. apply IH'. exact H.
Qed.

Lemma updateTaskInState_run taskId U ts f ld u sn sv fr :
  updateTaskInState taskId U (mkTasksWorld (mkTasksState ts f ld) u sn sv fr) =
  (match findTaskIndex taskId ts with Some _ => true | None => false end,
   mkTasksWorld (mkTasksState (update_first taskId U ts) f ld) u sn sv fr).
Proof. unfold update_first, findTaskIndex. cbn. destruct (find_index _ ts); reflexivity. Qed.

Lemma removeTaskFromState_run taskId ts f ld u sn sv fr :
  removeTaskFromState taskId (mkTasksWorld (mkTasksState ts f ld) u sn sv fr) =
  (match findTaskIndex taskId ts with Some _ => true | None => false end,
   mkTasksWorld (mkTasksState (remove_first taskId ts) f ld) u sn sv fr).
Proof. unfold remove_first, findTaskIndex. cbn. destruct (find_index _ ts); reflexivity. Qed.

Lemma for_each_update_run (U : JsValue) xs ts f ld u sn sv fr :
  for_each (fun t => updateTaskInState (get_field t "entity_id") U ;;; ret tt) xs
    (mkTasksWorld (mkTasksState ts f ld) u sn sv fr) =
  (tt, mkTasksWorld (mkTasksState
         (fold_left (fun acc t => update_first (get_field t "entity_id") U acc) xs ts)
         f ld) u sn sv fr).
Proof.
  revert ts. induction xs as [|x r IH]; intros ts; [reflexivity|].
  cbn [for_each fold_left]. unfold bind. rewrite updateTaskInState_run.
  cbn. apply IH.
Qed.

Lemma for_each_remove_run ids ts f ld u sn sv fr :
  for_each (fun taskId => removeTaskFromState taskId ;;; ret tt) ids
    (mkTasksWorld (mkTasksState ts f ld) u sn sv fr) =
  (tt, mkTasksWorld (mkTasksState
         (fold_left (fun acc taskId => remove_first taskId acc) ids ts) f ld) u sn sv fr).
Proof.
  revert ts. induction ids as [|x r IH]; intros ts; [reflexivity|].
  cbn [for_each fold_left]. unfold bind. rewrite removeTaskFromState_run.
  cbn. apply IH.
Qed.

Lemma send_each_run rs s u sn sv fr :
  send_each rs (mkTasksWorld s u sn sv fr) =
  (outcomes sv sn rs, mkTasksWorld s u (sn ++ rs)%list sv fr).
Proof.
  revert sn. induction rs as [|r rs IH]; intros sn; cbn.
  - rewrite app_nil_r. reflexivity.
  - unfold bind. cbn. rewrite IH. rewrite <- app_assoc. reflexivity.
Qed.


(** X12: with distinct task ids, [toggleAllTasks c] does nothing when no
    task differs from [c]; otherwise it sends one PUT per differing task,
    then a GET [/task/], ends with loading off, keeps the optimistic list if
    the refetch fails, and returns true exactly when no PUT was rejected. *)
Lemma toggleAllTasks_spec (c : bool) (w : TasksWorld) :
  ids_ok (tasks (tstate w)) = true ->
  let ts := tasks (tstate w) in
  let puts := map (fun t => PutReq (task_url (entity_id t)) (JsObj [("completed", JsBool c)]))
                  (List.filter (differs c) ts) in
  let optimistic :=
    map (fun t => if differs c t then obj_set t "completed" (JsBool c) else t) ts in
  let '(r, w') := toggleAllTasks c w in
  (List.filter (differs c) ts = [] ->
     r = true /\ tstate w' = tstate w /\ sent w' = sent w /\ ui w' = ui w) /\
  (List.filter (differs c) ts <> [] ->
     sent w' = (sent w ++ puts ++ [GetReq "/task/"])%list /\
     tasks (tstate w') = refetched (server w) (sent w ++ puts)%list optimistic /\
     loading (tstate w') = false /\
     r = match rejections (outcomes (server w) (sent w) puts) with
         | [] => true | _ => false end).
Proof.
  destruct w as [[ts f ld] u sn sv fr]. cbn [tasks tstate sent server ui]. intros Hok.
  cbv zeta. unfold toggleAllTasks, bind at 1, get_tstate.
  cbv beta zeta. cbn [tasks tstate].
  change (fun t => negb (js_strict_eq (get_field t "completed") (JsBool c))) with (differs c).
  destruct (List.filter (differs c) ts) as [|x xs] eqn:E.
  - cbn. split; [intros _; auto|]. intros H; congruence.
  - rewrite <- E.
    unfold bind at 1. rewrite for_each_update_run.
    pose proof (fold_update_first c [] ts Hok) as HF. cbn [app] in HF. rewrite HF.
    unfold bind at 1. rewrite send_each_run.
    unfold promise_all, bind, refetched. cbn.
    destruct (rejections _); cbn;
      destruct (sv _ (GetReq "/task/")) as [[[] m tk]|e]; cbn;
      (split; [intros H; rewrite H in E; discriminate|]); intros _;
      rewrite <- ?app_assoc; auto.
Qed.

Lemma toggleAllTasks_spec_witness :
  ids_ok (tasks (tstate sample_world)) = true /\
  let ts := tasks (tstate sample_world) in
  let puts := map (fun t => PutReq (task_url (entity_id t)) (JsObj [("completed", JsBool true)]))
                  (List.filter (differs true) ts) in
  let optimistic :=
    map (fun t => if differs true t then obj_set t "completed" (JsBool true) else t) ts in
  let '(r, w') := toggleAllTasks true sample_world in
  (List.filter (differs true) ts = [] ->
     r = true /\ tstate w' = tstate sample_world /\ sent w' = sent sample_world /\
     ui w' = ui sample_world) /\
  (List.filter (differs true) ts <> [] ->
     sent w' = (sent sample_world ++ puts ++ [GetReq "/task/"])%list /\
     tasks (tstate w') = refetched (server sample_world) (sent sample_world ++ puts)%list optimistic /\
     loading (tstate w') = false /\
     r = match rejections (outcomes (server sample_world) (sent sample_world) puts) with
         | [] => true | _ => false end).
Proof.
  split; [reflexivity|].
  apply (toggleAllTasks_spec true sample_world). reflexivity.
Defined.

(** X13: with distinct task ids, [clearCompleted] does nothing when no task
    is completed; otherwise it sends one DELETE per completed task, then a
    GET [/task/], ends with loading off, and when no DELETE is rejected it
    returns true and announces the number of cleared tasks. *)
Lemma clearCompleted_spec (w : TasksWorld) :
  ids_ok (tasks (tstate w)) = true ->
  let ts := tasks (tstate w) in
  let n := List.length (List.filter is_done ts) in
  let dels := map (fun t => DeleteReq (task_url (entity_id t))) (List.filter is_done ts) in
  let '(r, w') := clearCompleted w in
  (n = 0%nat -> r = true /\ tstate w' = tstate w /\ sent w' = sent w /\ ui w' = ui w) /\
  ((0 < n)%nat ->
     sent w' = (sent w ++ dels ++ [GetReq "/task/"])%list /\
     tasks (tstate w') =
       refetched (server w) (sent w ++ dels)%list (List.filter (fun t => negb (is_done t)) ts) /\
     loading (tstate w') = false /\
     (rejections (outcomes (server w) (sent w) dels) = [] ->
        r = true /\
        exists mid, ui w' = (ui w ++ mid ++
          [NotifySuccess ("Cleared " ++ number_to_json (Z.of_nat n) ++ " completed task"
                          ++ (if (1 <? n)%nat then "s" else "") ++ "!") 2000])%list) /\
     (rejections (outcomes (server w) (sent w) dels) <> [] -> r = false)).
Proof.
  destruct w as [[ts f ld] u sn sv fr]. cbn [tasks tstate sent server ui]. intros Hok.
  cbv zeta. unfold clearCompleted, bind at 1, get_tstate.
  cbv beta zeta. cbn [tasks tstate].
  change (fun t => js_truthy (get_field t "completed")) with is_done.
  destruct (List.filter is_done ts) as [|x xs] eqn:E.
  - cbn. split; [intros _; auto|]. intros H; lia.
  - rewrite <- E.
    unfold bind at 1. rewrite for_each_remove_run.
    pose proof (fold_remove_first [] ts Hok) as HF. cbn [app] in HF. rewrite HF.
    unfold bind at 1. rewrite send_each_run.
    unfold promise_all, bind, refetched. cbn.
    assert (Hn : (0 < length (List.filter is_done ts))%nat) by (rewrite E; cbn; lia).
    destruct (rejections _) eqn:Er; cbn;
      destruct (sv _ (GetReq "/task/")) as [[[] m tk]|e]; cbn;
      (split; [intros H; lia|]); intros _;
      rewrite <- ?app_assoc;
      (split; [reflexivity|]); (split; [reflexivity|]); (split; [reflexivity|]);
      split; intros H;
      first [ congruence
            | split; [reflexivity|]; first [exists []; reflexivity | eexists [_]; reflexivity]
            | reflexivity ].
Qed.

Lemma clearCompleted_spec_witness :
  ids_ok (tasks (tstate sample_world)) = true /\
  let ts := tasks (tstate sample_world) in
  let n := List.length (List.filter is_done ts) in
  let dels := map (fun t => DeleteReq (task_url (entity_id t))) (List.filter is_done ts) in
  let '(r, w') := clearCompleted sample_world in
  (n = 0%nat -> r = true /\ tstate w' = tstate sample_world /\
                sent w' = sent sample_world /\ ui w' = ui sample_world) /\
  ((0 < n)%nat ->
     sent w' = (sent sample_world ++ dels ++ [GetReq "/task/"])%list /\
     tasks (tstate w') =
       refetched (server sample_world) (sent sample_world ++ dels)%list
                 (List.filter (fun t => negb (is_done t)) ts) /\
     loading (tstate w') = false /\
     (rejections (outcomes (server sample_world) (sent sample_world) dels) = [] ->
        r = true /\
        exists mid, ui w' = (ui sample_world ++ mid ++
          [NotifySuccess ("Cleared " ++ number_to_json (Z.of_nat n) ++ " completed task"
                          ++ (if (1 <? n)%nat then "s" else "") ++ "!") 2000])%list) /\
     (rejections (outcomes (server sample_world) (sent sample_world) dels) <> [] -> r = false)).
Proof.
  split; [reflexivity|].
  apply (clearCompleted_spec sample_world). reflexivity.
Defined.

Lemma filter_length_split {A} (p : A -> bool) (l : list A) :
  (length (List.filter (fun x => negb (p x)) l) + length (List.filter p l))%nat = length l.
Proof. induction l as [|x l IH]; cbn; [reflexivity|]. destruct (p x); cbn; lia. Qed.

(** X3: the active and completed counts add up to the number of tasks, and
    the filtered list has as many tasks as the count matching the filter
    (all tasks for any other filter). *)
Lemma task_counts (s : TasksState) :
  (activeTaskCount s + completedTaskCount s)%nat = length (tasks s) /\
  length (filteredTasks s) =
    (if String.eqb (task_filter s) "active" then activeTaskCount s
     else if String.eqb (task_filter s) "completed" then completedTaskCount s
     else length (tasks s)).
Proof.
  split.
  - apply (filter_length_split (fun t => js_truthy (get_field t "completed"))).
  - unfold filteredTasks. destruct (String.eqb _ "active"); [reflexivity|].
    destruct (String.eqb _ "completed"); reflexivity.
Qed.

(** X4: [allTasksCompleted] holds exactly when the list is non-empty and
    no task is active. *)
Lemma allTasksCompleted_iff (s : TasksState) :
  allTasksCompleted s = true <-> tasks s <> [] /\ activeTaskCount s = 0%nat.
Proof.
  unfold allTasksCompleted, activeTaskCount. destruct (tasks s) as [|t ts]; cbn.
  - split; [discriminate|]. intros [H _]. congruence.
  - split.
    + intros H. split; [discriminate|]. rewrite andb_true_iff in H. destruct H as [H1 H2].
      rewrite H1. cbn. clear H1. induction ts as [|u ts IH]; [reflexivity|].
      cbn in H2 |- *. apply andb_true_iff in H2 as [H2 H3]. rewrite H2. cbn. apply IH, H3.
    + intros [_ H]. destruct (js_truthy (get_field t "completed")); cbn in H |- *; [|discriminate].
      induction ts as [|u ts IH]; [reflexivity|].
      cbn in H |- *. destruct (js_truthy (get_field u "completed")); cbn in H |- *;
        [apply IH, H|discriminate].
Qed.

(** X5: after [setFilter] the filter is always one of all, active and
    completed; a known filter is stored silently, any other one stores
    [all] and logs a warning; tasks and requests are untouched. *)
Lemma setFilter_spec (filter : string) (w : TasksWorld) :
  let '(_, w') := setFilter filter w in
  In (task_filter (tstate w')) FILTER_TYPES /\
  tasks (tstate w') = tasks (tstate w) /\ sent w' = sent w /\
  (In filter FILTER_TYPES -> task_filter (tstate w') = filter /\ ui w' = ui w) /\
  (~ In filter FILTER_TYPES ->
     task_filter (tstate w') = "all" /\
     ui w' = (ui w ++ [ConsoleWarn ("Invalid filter type: " ++ filter
                                    ++ ". Using default: all")])%list).
Proof.
  destruct w as [[ts f ld] u sn sv fr]. unfold setFilter.
  destruct (existsb (String.eqb filter) FILTER_TYPES) eqn:E.
  - apply existsb_exists in E as [x [Hx Hfx]]. apply String.eqb_eq in Hfx. subst x.
    cbn. split; [exact Hx|]. split; [reflexivity|]. split; [reflexivity|].
    split; [auto|]. intros Hn. contradiction.
  - cbn. split; [left; reflexivity|]. split; [reflexivity|]. split; [reflexivity|].
    split; [|auto]. intros Hin. exfalso.
    assert (existsb (String.eqb filter) FILTER_TYPES = true)
      by (apply existsb_exists; exists filter; split; [exact Hin|apply String.eqb_refl]).
    congruence.
Qed.

(** X6: [getTasks] sends one GET [/task/] and always ends with loading
    off; on success it replaces the tasks by the server's list (empty when
    absent), otherwise it keeps them and shows the server's message or the
    default [Failed to fetch tasks]. *)
Lemma getTasks_spec (w : TasksWorld) :
  let '(r, w') := getTasks w in
  loading (tstate w') = false /\ sent w' = (sent w ++ [GetReq "/task/"])%list /\
  match server w (sent w) (GetReq "/task/") with
  | ApiResolved d =>
      if data_success d
      then r = true /\ tasks (tstate w') = fetched d /\ ui w' = ui w
      else r = false /\ tasks (tstate w') = tasks (tstate w) /\
           ui w' = (ui w ++ [NotifyError (str_or (data_message d) "Failed to fetch tasks")])%list
  | ApiRejected e =>
      r = false /\ tasks (tstate w') = tasks (tstate w) /\
      ui w' = (ui w ++ [NotifyError (str_or (err_data_message e)
                 (str_or (err_data_error e) (str_or (err_message e) "Failed to fetch tasks")))])%list
  end.
Proof.
  pose proof (getTasks_run w) as H. destruct (getTasks w) as [r w'].
  destruct H as (H1 & _ & H3 & _ & _ & H6). auto.
Qed.

Lemma find_index_Some {A} (p : A -> bool) (l : list A) (i : nat) :
  find_index p l = Some i ->
  exists x, l !! i = Some x /\ p x = true /\
            forall j y, (j < i)%nat -> l !! j = Some y -> p y = false.
Proof.
  revert i. induction l as [|x l IH]; intros i H; cbn in H; [discriminate|].
  destruct (p x) eqn:Ep.
  - injection H as <-. exists x. split; [reflexivity|]. split; [exact Ep|]. intros j y Hj; lia.
  - destruct (find_index p l) as [k|] eqn:Ek; cbn in H; [|discriminate].
    injection H as <-. destruct (IH k eq_refl) as (y & Hy & Hpy & Hb).
    exists y. split; [exact Hy|]. split; [exact Hpy|].
    intros [|j] z Hj Hz; cbn in Hz.
    + injection Hz as <-. exact Ep.
    + apply (Hb j z); [lia|exact Hz].
Qed.

Lemma find_index_None {A} (p : A -> bool) (l : list A) :
  find_index p l = None -> forall x, In x l -> p x = false.
Proof.
  induction l as [|y l IH]; cbn; intros H x Hx; [contradiction|].
  destruct (p y) eqn:Ep; [discriminate|].
  destruct (find_index p l); [discriminate|].
  destruct Hx as [<-|Hx]; [exact Ep|]. apply IH; auto.
Qed.

(** X7: [updateTaskInState] replaces only the first task whose [entity_id]
    is strictly equal to the id, by that task spread with the updates, and
    keeps the length; without a match it changes nothing and returns false. *)
Lemma updateTaskInState_spec (taskId updates : JsValue) (w : TasksWorld) :
  let ts := tasks (tstate w) in
  let '(b, w') := updateTaskInState taskId updates w in
  sent w' = sent w /\ ui w' = ui w /\ length (tasks (tstate w')) = length ts /\
  match findTaskIndex taskId ts with
  | None =>
      b = false /\ tasks (tstate w') = ts /\
      forall t, In t ts -> js_strict_eq (entity_id t) taskId = false
  | Some i =>
      b = true /\
      (exists t, ts !! i = Some t /\ js_strict_eq (entity_id t) taskId = true /\
                 tasks (tstate w') !! i = Some (spread t updates)) /\
      (forall j, j <> i -> tasks (tstate w') !! j = ts !! j) /\
      (forall j t, (j < i)%nat -> ts !! j = Some t ->
                   js_strict_eq (entity_id t) taskId = false)
  end.
Proof.
  destruct w as [[ts f ld] u sn sv fr]. cbv zeta. rewrite updateTaskInState_run.
  cbn [tasks tstate sent ui]. unfold update_first.
  destruct (findTaskIndex taskId ts) as [i|] eqn:E.
  - apply find_index_Some in E as (t & Ht & Hp & Hb).
    rewrite length_insert. split; [reflexivity|]. split; [reflexivity|].
    split; [reflexivity|]. split; [reflexivity|].
    split; [|split].
    + exists t. split; [exact Ht|]. split; [exact Hp|].
      rewrite list_lookup_insert_eq by (eapply lookup_lt_Some; exact Ht).
      rewrite (nth_lookup_Some ts i [] t Ht). reflexivity.
    + intros j Hj. apply list_lookup_insert_ne. congruence.
    + exact Hb.
  - repeat split. apply find_index_None, E.
Qed.

(** X8: [removeTaskFromState] deletes only the first task whose
    [entity_id] is strictly equal to the id, shortening the list by one;
    without a match it changes nothing and returns false. *)
Lemma removeTaskFromState_spec (taskId : JsValue) (w : TasksWorld) :
  let ts := tasks (tstate w) in
  let '(b, w') := removeTaskFromState taskId w in
  sent w' = sent w /\ ui w' = ui w /\
  match findTaskIndex taskId ts with
  | None =>
      b = false /\ tasks (tstate w') = ts /\
      forall t, In t ts -> js_strict_eq (entity_id t) taskId = false
  | Some i =>
      b = true /\ tasks (tstate w') = (take i ts ++ drop (S i) ts)%list /\
      length (tasks (tstate w')) = pred (length ts) /\
      (exists t, ts !! i = Some t /\ js_strict_eq (entity_id t) taskId = true) /\
      (forall j t, (j < i)%nat -> ts !! j = Some t ->
                   js_strict_eq (entity_id t) taskId = false)
  end.
Proof.
  destruct w as [[ts f ld] u sn sv fr]. cbv zeta. rewrite removeTaskFromState_run.
  cbn [tasks tstate sent ui]. unfold remove_first.
  destruct (findTaskIndex taskId ts) as [i|] eqn:E.
  - apply find_index_Some in E as (t & Ht & Hp & Hb).
    split; [reflexivity|]. split; [reflexivity|]. split; [reflexivity|].
    rewrite delete_take_drop. split; [reflexivity|].
    split; [|split; [exists t; auto|exact Hb]].
    rewrite <- delete_take_drop, length_delete by (exists t; exact Ht). lia.
  - repeat split. apply find_index_None, E.
Qed.

(** X9: [updateTask] and [deleteTask] with a falsy task id send no request,
    leave the tasks unchanged, show [Task ID is missing] and return false. *)
Lemma falsy_taskId_no_request (taskId payload : JsValue) (w : TasksWorld) :
  js_truthy taskId = false ->
  (let '(r, w') := updateTask taskId payload w in
   r = false /\ tstate w' = tstate w /\ sent w' = sent w /\
   ui w' = (ui w ++ [NotifyError "Task ID is missing"])%list) /\
  (let '(r, w') := deleteTask taskId w in
   r = false /\ tstate w' = tstate w /\ sent w' = sent w /\
   ui w' = (ui w ++ [NotifyError "Task ID is missing"])%list).
Proof.
  intros H. destruct w as [s u sn sv fr].
  unfold updateTask, deleteTask, validateTaskId. rewrite H. cbn. auto.
Qed.

Lemma falsy_taskId_no_request_witness :
  js_truthy (JsStr "") = false /\
  ((let '(r, w') := updateTask (JsStr "") (JsObj []) sample_world in
    r = false /\ tstate w' = tstate sample_world /\ sent w' = sent sample_world /\
    ui w' = (ui sample_world ++ [NotifyError "Task ID is missing"])%list) /\
   (let '(r, w') := deleteTask (JsStr "") sample_world in
    r = false /\ tstate w' = tstate sample_world /\ sent w' = sent sample_world /\
    ui w' = (ui sample_world ++ [NotifyError "Task ID is missing"])%list)).
Proof.
  split; [reflexivity|].
  apply (falsy_taskId_no_request (JsStr "") (JsObj []) sample_world). reflexivity.
Defined.

(** X10: [addTask] and [updateTask] with a payload that is not an object
    send no request, leave the tasks unchanged, show an error and return
    false. *)
Lemma invalid_payload_no_request (taskId payload : JsValue) (w : TasksWorld) :
  valid_payload payload = false ->
  (let '(r, w') := addTask payload w in
   r = false /\ tstate w' = tstate w /\ sent w' = sent w /\
   ui w' = (ui w ++ [NotifyError "Invalid task data"])%list) /\
  (let '(r, w') := updateTask taskId payload w in
   r = false /\ tstate w' = tstate w /\ sent w' = sent w /\
   ui w' = (ui w ++ [NotifyError (if js_truthy taskId then "Invalid task data"
                                  else "Task ID is missing")])%list).
Proof.
  intros H. destruct w as [s u sn sv fr].
  unfold addTask, updateTask, validateTaskId. rewrite H.
  destruct (js_truthy taskId); cbn; auto.
Qed.

Lemma invalid_payload_no_request_witness :
  valid_payload JsNull = false /\
  ((let '(r, w') := addTask JsNull sample_world in
    r = false /\ tstate w' = tstate sample_world /\ sent w' = sent sample_world /\
    ui w' = (ui sample_world ++ [NotifyError "Invalid task data"])%list) /\
   (let '(r, w') := updateTask (JsNum (JsFinite 1)) JsNull sample_world in
    r = false /\ tstate w' = tstate sample_world /\ sent w' = sent sample_world /\
    ui w' = (ui sample_world ++ [NotifyError (if js_truthy (JsNum (JsFinite 1))
                                   then "Invalid task data" else "Task ID is missing")])%list)).
Proof.
  split; [reflexivity|].
  apply (invalid_payload_no_request (JsNum (JsFinite 1)) JsNull sample_world). reflexivity.
Defined.

Lemma find_first {A} (p : A -> bool) (l : list A) (i : nat) (x : A) :
  find_index p l = Some i -> l !! i = Some x -> List.find p l = Some x.
Proof.
  revert i. induction l as [|y l IH]; intros i H Hx; cbn in H; [discriminate|].
  cbn. destruct (p y).
  - injection H as <-. cbn in Hx. exact Hx.
  - destruct (find_index p l) as [k|] eqn:Ek; cbn in H; [|discriminate].
    injection H as <-. apply (IH k eq_refl Hx).
Qed.

Lemma find_none {A} (p : A -> bool) (l : list A) :
  find_index p l = None -> List.find p l = None.
Proof.
  induction l as [|y l IH]; cbn; intros H; [reflexivity|].
  destruct (p y); [discriminate|]. destruct (find_index p l); [discriminate|]. apply IH; reflexivity.
Qed.

(** X11: for a truthy task id, [toggleTaskComplete] on an id no task has
    sends nothing and shows [Task not found]; on a known one it sends one
    PUT with the negated completion and, when the server reports success,
    sets that value on the first matching task only. *)
Lemma toggleTaskComplete_spec (taskId : JsValue) (w : TasksWorld) :
  js_truthy taskId = true ->
  let ts := tasks (tstate w) in
  match findTaskIndex taskId ts with
  | None =>
      let '(r, w') := toggleTaskComplete taskId w in
      r = false /\ tstate w' = tstate w /\ sent w' = sent w /\
      ui w' = (ui w ++ [NotifyError "Task not found"])%list
  | Some i =>
      forall t, ts !! i = Some t ->
      let flipped := JsBool (negb (js_truthy (get_field t "completed"))) in
      let req := PutReq (task_url taskId) (JsObj [("completed", flipped)]) in
      let '(r, w') := toggleTaskComplete taskId w in
      sent w' = (sent w ++ [req])%list /\
      match server w (sent w) req with
      | ApiResolved d =>
          if data_success d
          then r = true /\ tasks (tstate w') = <[i := obj_set t "completed" flipped]> ts
          else r = false /\ tasks (tstate w') = ts
      | ApiRejected _ => r = false /\ tasks (tstate w') = ts
      end
  end.
Proof.
  intros Hid. destruct w as [[ts f ld] u sn sv fr]. cbv zeta. cbn [tasks tstate].
  unfold toggleTaskComplete, bind at 1, get_tstate. cbn [tasks tstate].
  destruct (findTaskIndex taskId ts) as [i|] eqn:E.
  - intros t Ht. unfold findTaskIndex in E. rewrite (find_first _ _ _ _ E Ht).
    unfold updateTask, validateTaskId. rewrite Hid. cbn.
    destruct (sv sn _) as [[[] m tk]|e]; cbn; [|auto|auto].
    unfold bind at 1. rewrite updateTaskInState_run. unfold update_first, findTaskIndex.
    rewrite E. cbn. rewrite (nth_lookup_Some ts i [] t Ht). auto.
  - unfold findTaskIndex in E. cbn. rewrite (find_none _ _ E). cbn. auto.
Qed.

Lemma toggleTaskComplete_spec_witness :
  js_truthy (JsNum (JsFinite 2)) = true /\
  let ts := tasks (tstate sample_world) in
  match findTaskIndex (JsNum (JsFinite 2)) ts with
  | None =>
      let '(r, w') := toggleTaskComplete (JsNum (JsFinite 2)) sample_world in
      r = false /\ tstate w' = tstate sample_world /\ sent w' = sent sample_world /\
      ui w' = (ui sample_world ++ [NotifyError "Task not found"])%list
  | Some i =>
      forall t, ts !! i = Some t ->
      let flipped := JsBool (negb (js_truthy (get_field t "completed"))) in
      let req := PutReq (task_url (JsNum (JsFinite 2))) (JsObj [("completed", flipped)]) in
      let '(r, w') := toggleTaskComplete (JsNum (JsFinite 2)) sample_world in
      sent w' = (sent sample_world ++ [req])%list /\
      match server sample_world (sent sample_world) req with
      | ApiResolved d =>
          if data_success d
          then r = true /\ tasks (tstate w') = <[i := obj_set t "completed" flipped]> ts
          else r = false /\ tasks (tstate w') = ts
      | ApiRejected _ => r = false /\ tasks (tstate w') = ts
      end
  end.
Proof.
  split; [reflexivity|].
  apply (toggleTaskComplete_spec (JsNum (JsFinite 2)) sample_world). reflexivity.
Defined.

Lemma handleToggleAll_sends (s : TasksState) :
  tasks s <> [] ->
  List.filter (differs (negb (allTasksCompleted s))) (tasks s) <> [].
Proof.
  intros Hne. unfold allTasksCompleted.
  destruct (tasks s) as [|t ts]; [congruence|]. cbn [length Nat.ltb Nat.leb andb].
  destruct (forallb (fun t => js_truthy (get_field t "completed")) (t :: ts)) eqn:Ea; cbn [negb].
  - cbn [List.filter]. cbn in Ea. apply andb_true_iff in Ea as [Ht _].
    unfold differs at 1. destruct (get_field t "completed") as [| |[]|[]| | | |];
      cbn in Ht |- *; try discriminate; congruence.
  - apply Bool.not_true_iff_false in Ea. intros Hf. apply Ea.
    apply forallb_forall. intros x Hx.
    destruct (js_truthy (get_field x "completed")) eqn:Ex; [reflexivity|].
    assert (Hin : In x (List.filter (differs true) (t :: ts))).
    { apply filter_In. split; [exact Hx|]. unfold differs.
      destruct (get_field x "completed") as [| |[]|[]| | | |]; cbn in Ex |- *;
        try discriminate; reflexivity. }
    rewrite Hf in Hin. contradiction.
Qed.


(** ** Task components *)

Lemma drop_spaces_split (l : list ascii) :
  exists sp, l = (sp ++ drop_spaces l)%list /\ forallb js_space sp = true.
Proof.
  induction l as [|c l IH]; cbn [drop_spaces].
  - exists []. auto.
  - destruct (js_space c) eqn:Ec.
    + destruct IH as [sp [H1 H2]]. exists (c :: sp). cbn [app forallb]. rewrite Ec, H2. rewrite <- H1. auto.
    + exists []. auto.
Qed.

Lemma drop_spaces_head (l : list ascii) :
  match drop_spaces l with [] => True | c :: _ => js_space c = false end.
Proof.
  induction l as [|c l IH]; cbn [drop_spaces]; [exact I|]. destruct (js_space c) eqn:Ec; [exact IH|exact Ec].
Qed.

Lemma drop_spaces_fixed (l : list ascii) :
  match l with [] => True | c :: _ => js_space c = false end -> drop_spaces l = l.
Proof. destruct l as [|c l]; cbn [drop_spaces]; [reflexivity|]. intros ->. reflexivity. Qed.

Lemma drop_spaces_idem (l : list ascii) : drop_spaces (drop_spaces l) = drop_spaces l.
Proof. apply drop_spaces_fixed, drop_spaces_head. Qed.

(** The trimmed list, and the fact that it starts the once-dropped list. *)
Lemma trim_core (l : list ascii) :
  let A := drop_spaces l in
  let T := rev (drop_spaces (rev A)) in
  (exists sp, A = (T ++ sp)%list) /\
  match T with [] => True | c :: _ => js_space c = false end /\
  match rev T with [] => True | c :: _ => js_space c = false end.
Proof.
  cbv zeta. destruct (drop_spaces_split (rev (drop_spaces l))) as [sp [Hs _]].
  assert (HA : drop_spaces l = (rev (drop_spaces (rev (drop_spaces l))) ++ rev sp)%list).
  { rewrite <- rev_app_distr, <- Hs, rev_involutive. reflexivity. }
  split; [eexists; exact HA|]. split.
  - pose proof (drop_spaces_head l) as Hh. rewrite HA in Hh.
    destruct (rev (drop_spaces (rev (drop_spaces l)))); [exact I|exact Hh].
  - rewrite rev_involutive. apply drop_spaces_head.
Qed.

Lemma trim_list (s : string) :
  list_ascii_of_string (trim s) =
  rev (drop_spaces (rev (drop_spaces (list_ascii_of_string s)))).
Proof. unfold trim. apply list_ascii_of_string_of_list_ascii. Qed.

Lemma trim_idem (s : string) : trim (trim s) = trim s.
Proof.
  pose proof (trim_core (list_ascii_of_string s)) as (_ & Hh & _).
  unfold trim at 1. rewrite trim_list. unfold trim.
  set (T := rev (drop_spaces (rev (drop_spaces (list_ascii_of_string s))))) in *.
  rewrite (drop_spaces_fixed T Hh).
  unfold T at 1. rewrite rev_involutive, drop_spaces_idem. reflexivity.
Qed.

Lemma trim_edges (s : string) : no_edge_spaces (trim s) = true.
Proof.
  pose proof (trim_core (list_ascii_of_string s)) as (_ & Hh & Hl).
  unfold no_edge_spaces. rewrite trim_list.
  set (T := rev (drop_spaces (rev (drop_spaces (list_ascii_of_string s))))) in *.
  destruct T as [|c r] eqn:ET; [reflexivity|]. rewrite Hh. cbn [negb andb].
  rewrite (app_removelast_last c (l := c :: r)) in Hl by discriminate.
  rewrite rev_app_distr in Hl. cbn [rev app] in Hl. rewrite Hl. reflexivity.
Qed.

(** X15: [handleAddTask] sends nothing for a blank title and shows an error
    for a trimmed title over 200 characters; otherwise it posts the trimmed
    title, which has no leading or trailing white space, and clears the
    input only when the server reports success. *)
Lemma handleAddTask_spec (title : string) (w : TasksWorld) :
  let s := trim title in
  let post := PostReq "/task/" (JsObj [("title", JsStr s)]) in
  let '(v, w') := handleAddTask title w in
  if String.eqb s "" || (200 <? String.length s)%nat
  then v = title /\ tstate w' = tstate w /\ sent w' = sent w /\
       ui w' = (ui w ++ (if String.eqb s "" then []
                         else [NotifyError "Task title must be less than 200 characters"]))%list
  else
    no_edge_spaces s = true /\
    match server w (sent w) post with
    | ApiResolved d =>
        if data_success d
        then v = "" /\ sent w' = (sent w ++ [post; GetReq "/task/"])%list
        else v = title /\ sent w' = (sent w ++ [post])%list
    | ApiRejected _ => v = title /\ sent w' = (sent w ++ [post])%list
    end.
Proof.
  destruct w as [s0 u sn sv fr]. cbv zeta. unfold handleAddTask.
  destruct (String.eqb (trim title) "") eqn:E0; cbn [orb].
  - cbn. rewrite app_nil_r. auto.
  - destruct (200 <? String.length (trim title))%nat eqn:E1.
    + cbn. auto.
    + pose proof (trim_edges title) as He. unfold addTask, bind. cbn.
      destruct (sv sn _) as [[[] m tk]|e]; cbn; [|auto|auto].
      destruct (sv _ (GetReq "/task/")) as [[[] m' tk']|e']; cbn;
        rewrite <- app_assoc; auto.
Qed.

(** X16: saving a changed edit in a task item, handled by the tasks page,
    for a task whose [entity_id] is truthy and strictly equal to itself
    (not [NaN]): a blank title deletes the task, a trimmed title over 200
    characters only shows an error, any other one is sent as one PUT of the
    trimmed title, and the page leaves edit mode only when the server
    reports success. *)
Lemma edit_save_flow (task : Obj) (edited original : string) (w : TasksWorld) :
  js_truthy (entity_id task) = true ->
  js_strict_eq (entity_id task) (entity_id task) = true ->
  trim edited <> trim original ->
  let s := trim edited in
  let put := PutReq (task_url (entity_id task)) (JsObj [("title", JsStr s)]) in
  let '(e, w1) := handleSave task (entity_id task) edited original w in
  let '(editing, w2) := page_on_item (entity_id task) e w1 in
  (s = "" -> sent w2 = (sent w ++ [DeleteReq (task_url (entity_id task))])%list /\
             editing = entity_id task) /\
  ((200 < String.length s)%nat ->
     sent w2 = sent w /\ tstate w2 = tstate w /\ editing = entity_id task /\
     ui w2 = (ui w ++ [NotifyError "Task title must be less than 200 characters"])%list) /\
  (s <> "" -> (String.length s <= 200)%nat ->
     sent w2 = (sent w ++ [put])%list /\
     match server w (sent w) put with
     | ApiResolved d => editing = (if data_success d then JsNull else entity_id task)
     | ApiRejected _ => editing = entity_id task
     end).
Proof.
  intros Ht Hr Hc. destruct w as [s0 u sn sv fr]. cbv zeta.
  unfold handleSave, getTaskId. unfold entity_id in *. rewrite Ht, Hr.
  apply String.eqb_neq in Hc. rewrite Hc. cbn [andb negb].
  destruct (String.eqb (trim edited) "") eqn:E0.
  - apply String.eqb_eq in E0. rewrite E0.
    unfold page_on_item, page_handleDeleteTask, deleteTask, validateTaskId, bind, ret, send.
    rewrite Ht. cbn.
    rewrite Ht. cbn.
    destruct (sv sn (DeleteReq (task_url (get_field task "entity_id")))) as [[[] m tk]|e]; cbn;
      try (destruct (findTaskIndex _ _); cbn);
      (split; [auto|]); (split; [intros H; cbn in H; lia|]); intros H; congruence.
  - apply String.eqb_neq in E0.
    destruct (200 <? String.length (trim edited))%nat eqn:E1.
    + apply Nat.ltb_lt in E1. cbn.
      split; [intros H; congruence|]. split; [auto|]. intros _ H; lia.
    + apply Nat.ltb_ge in E1.
      unfold page_on_item, page_handleSaveEdit, updateTask, validateTaskId, bind, ret, send.
      rewrite Ht. cbn. rewrite ?Ht. cbn. apply String.eqb_neq in E0. rewrite ?E0. cbn.
      destruct (sv sn (PutReq (task_url (get_field task "entity_id"))
                              (JsObj [("title", JsStr (trim edited))])))
        as [[[] m tk]|e]; cbn; try (destruct (findTaskIndex _ _); cbn);
        (split; [intros H; apply String.eqb_neq in E0; congruence|]);
        (split; [intros H; lia|]); intros _ _; auto.
Qed.

Lemma edit_save_flow_witness :
  js_truthy (entity_id (sample_task 1 false)) = true /\
  js_strict_eq (entity_id (sample_task 1 false)) (entity_id (sample_task 1 false)) = true /\
  trim " Buy milk " <> trim "Task" /\
  let task := sample_task 1 false in
  let s := trim " Buy milk " in
  let put := PutReq (task_url (entity_id task)) (JsObj [("title", JsStr s)]) in
  let '(e, w1) := handleSave task (entity_id task) " Buy milk " "Task" sample_world in
  let '(editing, w2) := page_on_item (entity_id task) e w1 in
  (s = "" -> sent w2 = (sent sample_world ++ [DeleteReq (task_url (entity_id task))])%list /\
             editing = entity_id task) /\
  ((200 < String.length s)%nat ->
     sent w2 = sent sample_world /\ tstate w2 = tstate sample_world /\ editing = entity_id task /\
     ui w2 = (ui sample_world ++ [NotifyError "Task title must be less than 200 characters"])%list) /\
  (s <> "" -> (String.length s <= 200)%nat ->
     sent w2 = (sent sample_world ++ [put])%list /\
     match server sample_world (sent sample_world) put with
     | ApiResolved d => editing = (if data_success d then JsNull else entity_id task)
     | ApiRejected _ => editing = entity_id task
     end).
Proof.
  assert (H3 : trim " Buy milk " <> trim "Task") by (vm_compute; discriminate).
  split; [reflexivity|]. split; [reflexivity|]. split; [exact H3|].
  exact (edit_save_flow (sample_task 1 false) " Buy milk " "Task" sample_world
           eq_refl eq_refl H3).
Defined.

Lemma toggleAllTasks_sent (c : bool) (w : TasksWorld) :
  List.filter (differs c) (tasks (tstate w)) <> [] ->
  sent (snd (toggleAllTasks c w)) =
  (sent w ++ map (fun t => PutReq (task_url (entity_id t)) (JsObj [("completed", JsBool c)]))
                 (List.filter (differs c) (tasks (tstate w))) ++ [GetReq "/task/"])%list.
Proof.
  destruct w as [[ts f ld] u sn sv fr]. cbn [tasks tstate sent]. intros Hne.
  unfold toggleAllTasks, bind at 1, get_tstate.
  cbv beta zeta. cbn [tasks tstate].
  change (fun t => negb (js_strict_eq (get_field t "completed") (JsBool c))) with (differs c).
  destruct (List.filter (differs c) ts) as [|x xs] eqn:E; [congruence|].
  rewrite <- E. unfold bind at 1. rewrite for_each_update_run.
  unfold bind at 1. rewrite send_each_run.
  unfold promise_all, bind. cbn.
  destruct (rejections _); cbn;
    destruct (sv _ (GetReq "/task/")) as [[[] m tk]|e]; cbn;
    rewrite <- ?app_assoc; reflexivity.
Qed.

(** X14: on a non-empty list the toggle-all button always sends at least one
    PUT (completing all tasks unless all are completed, then reopening
    them), followed by one GET [/task/]. *)
Lemma handleToggleAll_spec (w : TasksWorld) :
  tasks (tstate w) <> [] ->
  let c := negb (allTasksCompleted (tstate w)) in
  let puts := map (fun t => PutReq (task_url (entity_id t)) (JsObj [("completed", JsBool c)]))
                  (List.filter (differs c) (tasks (tstate w))) in
  puts <> [] /\
  sent (snd (handleToggleAll w)) = (sent w ++ puts ++ [GetReq "/task/"])%list.
Proof.
  intros Hne. cbv zeta.
  pose proof (handleToggleAll_sends (tstate w) Hne) as Hs.
  split.
  - intros H. apply map_eq_nil in H. contradiction.
  - rewrite <- (toggleAllTasks_sent _ w Hs). unfold handleToggleAll, bind, get_tstate, ret.
    destruct (toggleAllTasks _ w). reflexivity.
Qed.

Lemma handleToggleAll_spec_witness :
  tasks (tstate sample_world) <> [] /\
  let c := negb (allTasksCompleted (tstate sample_world)) in
  let puts := map (fun t => PutReq (task_url (entity_id t)) (JsObj [("completed", JsBool c)]))
                  (List.filter (differs c) (tasks (tstate sample_world))) in
  puts <> [] /\
  sent (snd (handleToggleAll sample_world)) = (sent sample_world ++ puts ++ [GetReq "/task/"])%list.
Proof.
  assert (H : tasks (tstate sample_world) <> []) by discriminate.
  split; [exact H|]. exact (handleToggleAll_spec sample_world H).
Defined.


(** ** Profile page *)

Lemma trim_nonempty_input (v : string) : String.eqb v "" = true -> trim v = "".
Proof. intros H. apply String.eqb_eq in H. subst v. reflexivity. Qed.

Lemma name_rules_ok (v : string) :
  (forallb (fun rule => rule_ok (rule v)) firstNameRules = true <-> name_ok v) /\
  (forallb (fun rule => rule_ok (rule v)) lastNameRules = true <-> name_ok v) /\
  (first_failure firstNameRules v = None <-> name_ok v) /\
  (first_failure lastNameRules v = None <-> name_ok v).
Proof.
  unfold name_ok, firstNameRules, lastNameRules, rule_of. cbn [forallb first_failure].
  destruct (String.eqb v "") eqn:E.
  - rewrite (trim_nonempty_input v E). cbn. repeat split; (discriminate || lia).
  - cbn [negb andb rule_ok].
    destruct (0 <? String.length (trim v))%nat eqn:E1;
      destruct (String.length (trim v) <=? 100)%nat eqn:E2; cbn;
      rewrite ?Nat.ltb_lt, ?Nat.ltb_ge, ?Nat.leb_le, ?Nat.leb_gt in *;
      repeat split; (intros; (lia || discriminate || reflexivity)).
Qed.

Lemma isFormValid_iff (f : ProfileForm) :
  isFormValid f = true <->
  name_ok (firstName f) /\ name_ok (lastName f) /\ hasChanges f = true.
Proof.
  pose proof (name_rules_ok (firstName f)) as (Hf & _ & _ & _).
  pose proof (name_rules_ok (lastName f)) as (_ & Hl & _ & _).
  unfold isFormValid. rewrite !andb_true_iff, Hf, Hl.
  unfold name_ok. rewrite !negb_true_iff, !String.eqb_neq.
  split.
  - intros [[[[_ _] H1] H2] H3]. auto.
  - intros (H1 & H2 & H3).
    assert (trim (firstName f) <> "") by (intros He; rewrite He in H1; cbn in H1; lia).
    assert (trim (lastName f) <> "") by (intros He; rewrite He in H2; cbn in H2; lia).
    tauto.
Qed.

Lemma validateForm_result (f : ProfileForm) :
  fst (validateForm f) = isFormValid f.
Proof.
  pose proof (name_rules_ok (firstName f)) as (_ & _ & Hf & _).
  pose proof (name_rules_ok (lastName f)) as (_ & _ & _ & Hl).
  apply eq_true_iff_eq. rewrite isFormValid_iff. unfold validateForm.
  destruct (first_failure firstNameRules (firstName f)) as [m1|] eqn:E1.
  - destruct (first_failure lastNameRules (lastName f)); cbn;
      (split; [discriminate|intros (H1 & _ & _); apply Hf in H1; congruence]).
  - destruct (first_failure lastNameRules (lastName f)) as [m2|] eqn:E2; cbn.
    + split; [discriminate|intros (_ & H2 & _); apply Hl in H2; congruence].
    + destruct (hasChanges f) eqn:Hc; cbn.
      * split; [intros _|reflexivity].
        split; [apply Hf; reflexivity|]. split; [apply Hl; reflexivity|reflexivity].
      * split; [discriminate|intros (_ & _ & H3); discriminate].
Qed.

Lemma validateForm_fields (g : ProfileForm) :
  let f1 := snd (validateForm g) in
  firstName f1 = firstName g /\ lastName f1 = lastName g /\
  initialFirstName f1 = initialFirstName g /\ initialLastName f1 = initialLastName g /\
  isEditing f1 = isEditing g.
Proof.
  cbv zeta. unfold validateForm.
  destruct (first_failure firstNameRules (firstName g));
    destruct (first_failure lastNameRules (lastName g)); cbn;
    try destruct (hasChanges g); cbn; auto.
Qed.

(** X17: [validateForm] returns true exactly when [isFormValid] holds,
    which is when both trimmed names have 1 to 100 characters and one of
    them differs from its initial value once trimmed. *)
Lemma validateForm_agrees (f : ProfileForm) :
  fst (validateForm f) = isFormValid f /\
  (isFormValid f = true <->
   name_ok (firstName f) /\ name_ok (lastName f) /\ hasChanges f = true).
Proof. split; [apply validateForm_result|apply isFormValid_iff]. Qed.

(** X18: the profile form calls [updateProfileInfo] exactly when it is in
    edit mode, [isFormValid] holds and a user is signed in, always with the
    trimmed names of 1 to 100 characters; a successful update leaves edit
    mode and submission with no pending changes. *)
Lemma handleSubmit_spec (f : ProfileForm) (hasUser : bool)
  (updateProfileInfo : string -> string -> option bool) :
  let '(f', effects) := handleSubmit f hasUser updateProfileInfo in
  ((exists a b, In (ProfileUpdate a b) effects) <->
     isEditing f = true /\ isFormValid f = true /\ hasUser = true) /\
  (forall a b, In (ProfileUpdate a b) effects ->
     a = trim (firstName f) /\ b = trim (lastName f) /\
     (1 <= String.length a <= 100)%nat /\ (1 <= String.length b <= 100)%nat) /\
  (isEditing f && isFormValid f && hasUser = true ->
   updateProfileInfo (trim (firstName f)) (trim (lastName f)) = Some true ->
   isEditing f' = false /\ isSubmitting f' = false /\ hasChanges f' = false).
Proof.
  pose proof (validateForm_result (set_errors f "" "" "")) as Hv.
  pose proof (isFormValid_iff (set_errors f "" "" "")) as Hiff.
  pose proof (validateForm_fields (set_errors f "" "" "")) as (Ef & El & Eif & Eil & Ee).
  assert (Hsame : isFormValid (set_errors f "" "" "") = isFormValid f) by reflexivity.
  rewrite Hsame in Hv, Hiff.
  unfold handleSubmit.
  destruct (isEditing f) eqn:Hed; cbn [negb andb].
  2:{ split; [split; [intros (a & b & [])|intros (H & _); discriminate]|].
      split; [intros a b []|]. intros H; discriminate. }
  destruct (validateForm (set_errors f "" "" "")) as [ok f1]. cbn [fst snd] in *.
  subst ok. cbn [firstName lastName initialFirstName initialLastName isEditing set_errors] in *.
  destruct (isFormValid f) eqn:Hvalid; cbn [negb andb].
  2:{ split; [split; [intros (a & b & [])|intros (_ & H & _); discriminate]|].
      split; [intros a b []|]. intros H; discriminate. }
  destruct hasUser; cbn [negb andb].
  2:{ split; [split; [intros (a & b & [H|[]]); discriminate|intros (_ & _ & H); discriminate]|].
      split; [intros a b [H|[]]; discriminate|]. intros H; discriminate. }
  destruct (proj1 Hiff eq_refl) as (Hn1 & Hn2 & _).
  unfold name_ok in Hn1, Hn2. rewrite Ef, El.
  assert (Hu : forall a b effs, (effs = [ProfileUpdate (trim (firstName f)) (trim (lastName f))]
                  \/ effs = [ProfileUpdate (trim (firstName f)) (trim (lastName f)); ProfileConsoleError]) ->
               In (ProfileUpdate a b) effs ->
               a = trim (firstName f) /\ b = trim (lastName f) /\
               (1 <= String.length a <= 100)%nat /\ (1 <= String.length b <= 100)%nat).
  { intros a b effs [-> | ->] Hin; cbn in Hin;
      [destruct Hin as [Hin|[]] | destruct Hin as [Hin|[Hin|[]]]];
      try discriminate; injection Hin as <- <-; auto. }
  destruct (updateProfileInfo (trim (firstName f)) (trim (lastName f))) as [[]|] eqn:Eu;
    (split; [split; [intros _; auto|intros _; eexists _, _; left; reflexivity]|]);
    (split; [intros a b Hin; eapply Hu; [|exact Hin]; auto|]);
    intros _ H; try discriminate.
  cbn. split; [reflexivity|]. split; [reflexivity|].
  unfold hasChanges. cbn [firstName lastName initialFirstName initialLastName].
  rewrite ?Ef, ?El, !trim_idem, !String.eqb_refl. reflexivity.
Qed.
